(** * flashpca: randomized PCA / kernel PCA (randompca.cpp)

    A shallow embedding of [src/randompca.cpp] and the properties of its
    functions.  The C++ code is written against Eigen (dense matrices,
    QR, SVD and symmetric eigensolver) and Boost.Random; those library
    primitives are interfaces of the development ([EigenLib],
    [BoostRandom], [StdSort], [Util]), everything the file itself does
    is a definition below.

    Conventions.
    - [double] is an abstract scalar type with the operations the code
      uses ([Scalar]).  Two instances are given: IEEE binary64
      ([double_scalar], the kernel's primitive floats) and the real
      numbers ([R_scalar], exact arithmetic).  Control-flow and
      data-movement properties are proved for every scalar type;
      algebraic properties are proved for the reals.
    - [MatrixXd] is a pair of dimensions with a coefficient accessor, as
      Eigen's [rows()], [cols()] and [operator()(i,j)]; [VectorXd] is a
      list of scalars.
    - [unsigned int] values are 32 bits wide: conversions and arithmetic
      wrap modulo [2^32] ([u32]).
    - The [verbose && std::cout << ...] log lines are output only and are
      left out of the model. *)

From Stdlib Require Import ZArith List Lia Bool Arith.
From Stdlib Require Import Reals Lra.
From Stdlib Require Import Sorted Permutation.
From Stdlib Require PrimFloat Uint63 FloatAxioms.
From Equations Require Import Equations.
Import ListNotations.

Set Implicit Arguments.

(** ** Scalars *)

(** The operations of [double] that randompca.cpp uses. *)
Class Scalar (T : Type) : Type := {
  s0 : T;                       (* 0.0 *)
  s1 : T;                       (* 1.0 *)
  sadd : T -> T -> T;
  ssub : T -> T -> T;
  smul : T -> T -> T;
  sdiv : T -> T -> T;
  ssqrt : T -> T;               (* sqrt *)
  slt : T -> T -> bool;         (* a < b *)
  sequal : T -> T -> bool;      (* a == b *)
  of_int : Z -> T;              (* integer to double conversion *)
  indet : T                     (* content of storage that was never written *)
}.

Declare Scope scalar_scope.
Delimit Scope scalar_scope with S.
Infix "+" := sadd : scalar_scope.
Infix "-" := ssub : scalar_scope.
Infix "*" := smul : scalar_scope.
Infix "/" := sdiv : scalar_scope.

(** Exact arithmetic: the real numbers.  Division is the total [Rdiv]
    of the library, for which [x / 0 = 0], where a division by zero in
    the program yields an infinity or NaN: a property over the reals
    speaks for the program only away from zero divisors, and the
    properties below that involve a division state the non-zero
    divisors as hypotheses. *)
#[export] Instance R_scalar : Scalar R := {|
  s0 := 0%R;
  s1 := 1%R;
  sadd := Rplus;
  ssub := Rminus;
  smul := Rmult;
  sdiv := Rdiv;
  ssqrt := sqrt;
  slt := fun a b => if Rlt_dec a b then true else false;
  sequal := fun a b => if Req_dec_T a b then true else false;
  of_int := IZR;
  indet := 0%R
|}.

(** [std::exp], which only the RBF kernel calls. *)
Class ScalarExp (T : Type) : Type := { sexp : T -> T }.

#[export] Instance R_exp : ScalarExp R := {| sexp := exp |}.

(** Conversion of an integer to binary64 (exact below [2^53]). *)
Definition float_of_Z (z : Z) : PrimFloat.float :=
  if (z <? 0)%Z then PrimFloat.opp (PrimFloat.of_uint63 (Uint63.of_Z (- z)))
  else PrimFloat.of_uint63 (Uint63.of_Z z).

(** IEEE binary64 arithmetic: the kernel's primitive floats. *)
#[export] Instance double_scalar : Scalar PrimFloat.float := {|
  s0 := PrimFloat.zero;
  s1 := PrimFloat.one;
  sadd := PrimFloat.add;
  ssub := PrimFloat.sub;
  smul := PrimFloat.mul;
  sdiv := PrimFloat.div;
  ssqrt := PrimFloat.sqrt;
  slt := PrimFloat.ltb;
  sequal := PrimFloat.eqb;
  of_int := float_of_Z;
  indet := PrimFloat.nan
|}.

(** ** Machine integers *)

(** Conversion to [unsigned int]. *)
Definition u32 (z : Z) : Z := (z mod 2 ^ 32)%Z.

(** An [Index] (or [unsigned int]) count read as an [unsigned int]. *)
Definition u32_of_nat (n : nat) : nat := Z.to_nat (u32 (Z.of_nat n)).

(** Decrementing an unsigned counter that is not [(unsigned)-1] brings
    it closer to [(unsigned)-1]. *)
Lemma u32_countdown_decreases (i : Z) :
  u32 i <> u32 (-1) ->
  Z.to_nat (u32 (u32 (i - 1) + 1)) < Z.to_nat (u32 (i + 1)).
Proof.
  unfold u32. intros Hne.
  assert (Hr : (0 <= i mod 2 ^ 32 < 2 ^ 32)%Z) by (apply Z.mod_pos_bound; lia).
  assert (Hm1 : ((-1) mod 2 ^ 32 = 2 ^ 32 - 1)%Z) by reflexivity.
  rewrite Hm1 in Hne.
  rewrite Z.add_mod_idemp_l by lia.
  replace (i - 1 + 1)%Z with i by lia.
  assert (Hs : ((i + 1) mod 2 ^ 32 = i mod 2 ^ 32 + 1)%Z).
  { rewrite <- Z.add_mod_idemp_l by lia. apply Z.mod_small. lia. }
  rewrite Hs. lia.
Qed.

(** ** Dense matrices and vectors *)

Section Dense.

Context {T : Type} {ST : Scalar T}.

Local Open Scope scalar_scope.

(** [x.pow(2)], [x.square()] *)
Definition sq (x : T) : T := x * x.

(** Eigen's [MatrixXd]: dimensions and coefficients. *)
Record MatrixXd : Type := mkMatrix {
  rows : nat;
  cols : nat;
  coeff : nat -> nat -> T
}.

(** Eigen's [VectorXd]. *)
Definition VectorXd : Type := list T.

(** Two matrices are the same matrix: same dimensions, same entries. *)
Definition mat_eq (A B : MatrixXd) : Prop :=
  rows A = rows B /\ cols A = cols B /\
  forall i j, i < rows A -> j < cols A -> coeff A i j = coeff B i j.

(** [size()] of a matrix *)
Definition msize (A : MatrixXd) : nat := rows A * cols A.

(** [MatrixXd M(r, c)]: storage allocated, nothing written *)
Definition uninitialized (r c : nat) : MatrixXd :=
  mkMatrix r c (fun _ _ => indet).

(** [M(i, j) = v] *)
Definition set_coeff (M : MatrixXd) (i j : nat) (v : T) : MatrixXd :=
  mkMatrix (rows M) (cols M)
    (fun i' j' => if (i' =? i) && (j' =? j) then v else coeff M i' j').

(** [.sum()] of the first [n] terms of a sequence *)
Fixpoint sum_upto (n : nat) (f : nat -> T) : T :=
  match n with
  | 0 => s0
  | S n' => sum_upto n' f + f n'
  end.

(** [v.sum()] *)
Definition vsum (v : VectorXd) : T := fold_left sadd v s0.

(** [A * B] *)
Definition mmul (A B : MatrixXd) : MatrixXd :=
  mkMatrix (rows A) (cols B)
    (fun i j => sum_upto (cols A) (fun l => coeff A i l * coeff B l j)).

(** [A.transpose()] *)
Definition mtranspose (A : MatrixXd) : MatrixXd :=
  mkMatrix (cols A) (rows A) (fun i j => coeff A j i).

(** [A / c], [A.array() / c] *)
Definition mdiv (A : MatrixXd) (c : T) : MatrixXd :=
  mkMatrix (rows A) (cols A) (fun i j => coeff A i j / c).

(** [A + B], [A - B] *)
Definition madd (A B : MatrixXd) : MatrixXd :=
  mkMatrix (rows A) (cols A) (fun i j => coeff A i j + coeff B i j).

Definition msub (A B : MatrixXd) : MatrixXd :=
  mkMatrix (rows A) (cols A) (fun i j => coeff A i j - coeff B i j).

(** [c * A] *)
Definition mscale (c : T) (A : MatrixXd) : MatrixXd :=
  mkMatrix (rows A) (cols A) (fun i j => c * coeff A i j).

(** [MatrixXd::Identity(r, c)] *)
Definition Identity (r c : nat) : MatrixXd :=
  mkMatrix r c (fun i j => if i =? j then s1 else s0).

(** [v.asDiagonal()] *)
Definition asDiagonal (v : VectorXd) : MatrixXd :=
  mkMatrix (length v) (length v)
    (fun i j => if i =? j then nth i v s0 else s0).

(** [A.diagonal().array().sum()] *)
Definition diag_sum (A : MatrixXd) : T :=
  sum_upto (Nat.min (rows A) (cols A)) (fun i => coeff A i i).

(** [A.array().square().sum()] (column by column, as the storage order) *)
Definition sq_sum (A : MatrixXd) : T :=
  sum_upto (cols A) (fun j => sum_upto (rows A) (fun i => sq (coeff A i j))).

(** [M.conservativeResize(NoChange, c)]: the first [c] columns are kept;
    columns added beyond the old count are not written. *)
Definition conservativeResize_cols (M : MatrixXd) (c : nat) : MatrixXd :=
  mkMatrix (rows M) c
    (fun i j => if j <? cols M then coeff M i j else indet).

(** [v.conservativeResize(n)] *)
Definition conservativeResize_vec (v : VectorXd) (n : nat) : VectorXd :=
  firstn n v ++ repeat indet (n - length v).

(** [v(i)] *)
Definition vget (v : VectorXd) (i : nat) : T := nth i v indet.

(** [v(k) = x] *)
Definition vset (v : VectorXd) (k : nat) (x : T) : VectorXd :=
  if k <? length v then firstn k v ++ x :: skipn (S k) v else v.

(** [v.resize(n)]: the old content is not kept. *)
Definition resize_vec (n : nat) : VectorXd := repeat indet n.

(** [U.col(k) = E.col(i)] *)
Definition set_col (U : MatrixXd) (k : nat) (E : MatrixXd) (i : nat) : MatrixXd :=
  mkMatrix (rows U) (cols U)
    (fun r c => if (c =? k) && (r <? rows U) then coeff E r i else coeff U r c).

(** [X2.row(k) = X.row(i)] *)
Definition set_row (X2 : MatrixXd) (k : nat) (X : MatrixXd) (i : nat) : MatrixXd :=
  mkMatrix (rows X2) (cols X2)
    (fun r c => if (r =? k) && (c <? cols X2) then coeff X i c else coeff X2 r c).

(** A vector as an [n x 1] matrix, and [VectorXd::Ones(n)]. *)
Definition col_vector (v : VectorXd) : MatrixXd :=
  mkMatrix (length v) 1 (fun i _ => vget v i).

Definition Ones (n : nat) : VectorXd := repeat s1 n.

(** [X.array().square().rowwise().sum()] *)
Definition row_sq_sums (X : MatrixXd) : VectorXd :=
  map (fun i => sum_upto (cols X) (fun c => sq (coeff X i c))) (seq 0 (rows X)).

(** [D.data()]: the coefficients in storage (column-major) order. *)
Definition mat_data (D : MatrixXd) : list T :=
  flat_map (fun j => map (fun i => coeff D i j) (seq 0 (rows D))) (seq 0 (cols D)).

End Dense.

Arguments MatrixXd T : clear implicits.
Arguments VectorXd T : clear implicits.

(** ** The libraries the code is written against *)

(** randompca.hpp and util.hpp: the values of the macros. *)
Class Macros : Type := {
  METHOD_SVD : Z;
  METHOD_EIGEN : Z;
  KERNEL_LINEAR : Z;
  KERNEL_RBF : Z;
  STANDARDIZE_NONE : Z
}.

(** Eigen: [JacobiSVD<MatrixXd> svd(B, ComputeThinU | ComputeThinV)] as
    [(matrixU, singularValues, matrixV)];
    [SelfAdjointEigenSolver<MatrixXd> eig(BBT)] as
    [(eigenvalues, eigenvectors)]; and
    [ColPivHouseholderQR<MatrixXd> qr(M); qr.householderQ()]. *)
Class EigenLib (T : Type) {ST : Scalar T} : Type := {
  JacobiSVD : MatrixXd T -> MatrixXd T * VectorXd T * MatrixXd T;
  SelfAdjointEigenSolver : MatrixXd T -> VectorXd T * MatrixXd T;
  householderQ : MatrixXd T -> MatrixXd T
}.

Arguments EigenLib T {ST}.

(** Boost.Random.  [gen] is the state of [variate_generator<mt19937&,
    normal_distribution<double>>], [seed_gen] what [rng.seed(seed)]
    makes of it and [rand] one call [rand()]: the value returned and the
    state left behind.  [mt19937], [seed_mt] and [uniform01] are the
    same for a generator read through [uniform_real_distribution<>(0,
    1)], one call being [dist(rng)]. *)
Class BoostRandom (T : Type) : Type := {
  gen : Type;
  seed_gen : Z -> gen;
  rand : gen -> T * gen;
  mt19937 : Type;
  seed_mt : Z -> mt19937;
  uniform01 : mt19937 -> T * mt19937
}.

(** [std::sort] on an array of doubles. *)
Class StdSort (T : Type) : Type := {
  std_sort : list T -> list T
}.

(** util.hpp: [standardize(X, method, verbose)] and
    [standardize_transpose(X, method, verbose)] as the matrix they leave
    in [X] and the matrix they return. *)
Class Util (T : Type) {ST : Scalar T} : Type := {
  standardize : MatrixXd T -> Z -> MatrixXd T * MatrixXd T;
  standardize_transpose : MatrixXd T -> Z -> MatrixXd T * MatrixXd T
}.

Arguments Util T {ST}.

(** ** make_gaussian *)

Section MakeGaussian.

Context {T : Type} {ST : Scalar T} {BR : BoostRandom T}.

(** The inner loop [for j < cols: G(i, j) = rand()]. *)
Definition gaussian_row (cols i : nat) (st : MatrixXd T * gen) : MatrixXd T * gen :=
  fold_left
    (fun (st : MatrixXd T * gen) (j : nat) =>
       let (v, g') := rand (snd st) in (set_coeff (fst st) i j v, g'))
    (seq 0 cols) st.

Definition make_gaussian (rows cols : nat) (seed : Z) : MatrixXd T :=
  let rng := seed_gen seed in
  let G := uninitialized rows cols in
  fst (fold_left (fun st i => gaussian_row cols i st) (seq 0 rows) (G, rng)).

(** The generator after [n] calls, and the value the next call returns. *)
Fixpoint gen_after (n : nat) (g : gen) : gen :=
  match n with
  | 0 => g
  | S n' => snd (rand (gen_after n' g))
  end.

Definition nth_variate (g : gen) (n : nat) : T := fst (rand (gen_after n g)).

End MakeGaussian.

(** ** normalize *)

Section Normalize.

Context {T : Type} {ST : Scalar T}.

Local Open Scope scalar_scope.

(** [X.col(j).array().pow(2).sum()] *)
Definition col_sq_sum (X : MatrixXd T) (j : nat) : T :=
  sum_upto (rows X) (fun i => sq (coeff X i j)).

(** One iteration of the loop: column [j] is scaled by [1 / sqrt(...)]. *)
Definition normalize_col (X : MatrixXd T) (j : nat) : MatrixXd T :=
  let s := s1 / ssqrt (col_sq_sum X j) in
  mkMatrix (rows X) (cols X)
    (fun i j' => if (j' =? j) && (i <? rows X) then coeff X i j * s
                 else coeff X i j').

Definition normalize (X : MatrixXd T) : MatrixXd T :=
  let p := u32_of_nat (cols X) in
  fold_left normalize_col (seq 0 p) X.

End Normalize.

(** ** pca_small *)

Section SmallDecomposer.

Context {T : Type} {ST : Scalar T} {MC : Macros} {EL : EigenLib T}.

(** The state of the reversal loop; [rv_visited] records the values of
    [i] for which the body ran, in order (a ghost field). *)
Record rev_state : Type := mkRev {
  rv_d : VectorXd T;
  rv_U : MatrixXd T;
  rv_k : Z;
  rv_visited : list Z
}.

(** [for(unsigned int i = ... ; i != -1 ; --i) { d(k) = eval(i);
    U.col(k) = evec.col(i); k++; }] from the value [i] of the counter.
    [-1] is converted to [unsigned int] for the comparison; [i] holds an
    unsigned value, so [u32 i] is [i]. *)
Equations? reverse_loop (eval : VectorXd T) (evec : MatrixXd T) (i : Z)
  (st : rev_state) : rev_state by wf (Z.to_nat (u32 (i + 1))) lt :=
  reverse_loop eval evec i st with Z.eq_dec (u32 i) (u32 (-1)) => {
    | left _ => st;
    | right _ =>
        reverse_loop eval evec (u32 (i - 1))
          (mkRev (vset (rv_d st) (Z.to_nat (rv_k st)) (vget eval (Z.to_nat i)))
                 (set_col (rv_U st) (Z.to_nat (rv_k st)) evec (Z.to_nat i))
                 (u32 (rv_k st + 1))
                 (rv_visited st ++ [i])) }.
Proof. apply u32_countdown_decreases; assumption. Qed.

Definition pca_small (B : MatrixXd T) (method : Z) (U : MatrixXd T)
  (d : VectorXd T) : MatrixXd T * VectorXd T :=
  if (method =? METHOD_SVD)%Z then
    let '(mU, sv, mV) := JacobiSVD B in
    (mU, map sq sv)
  else if (method =? METHOD_EIGEN)%Z then
    let BBT := mmul B (mtranspose B) in
    let (eval, evec) := SelfAdjointEigenSolver BBT in
    let d := resize_vec (length eval) in
    let U := uninitialized (rows BBT) (rows BBT) in
    let st := reverse_loop eval evec (u32 (Z.of_nat (length d) - 1))
                (mkRev d U 0 []) in
    (rv_U st, rv_d st)
  else (U, d).

End SmallDecomposer.

Arguments rev_state T : clear implicits.

(** ** median_dist *)

Section MedianDist.

Context {T : Type} {ST : Scalar T} {BR : BoostRandom T} {SS : StdSort T}.

Local Open Scope scalar_scope.

(** [for(unsigned int i = 0, k = 0 ; i < X.rows() ; i++) { if(dist(rng) <
    prop) { X2.row(k++) = X.row(i); if(k == n) break; } }]: [rest] rows
    remain to be scanned from row [i].  The result is [X2] and the number
    [k] of rows accepted.  (The counter [i] is an [unsigned int]: the
    row count is taken to fit one.) *)
Fixpoint sample_rows (rest : nat) (X : MatrixXd T) (n : nat) (prop : T)
  (i k : nat) (rng : mt19937) (X2 : MatrixXd T) : MatrixXd T * nat :=
  match rest with
  | 0 => (X2, k)
  | S rest' =>
      let (u, rng') := uniform01 rng in
      if slt u prop then
        let X2' := set_row X2 k X i in
        let k' := u32_of_nat (k + 1) in
        if k' =? n then (X2', k')
        else sample_rows rest' X n prop (i + 1) k' rng' X2'
      else sample_rows rest' X n prop (i + 1) k rng' X2
  end.

(** The sample [X2] of [median_dist], with the number of rows written by
    the sampling loop (all of them when [X] is copied). *)
Definition median_sample (X : MatrixXd T) (n : nat) (seed : Z) : MatrixXd T * nat :=
  let rng := seed_mt seed in
  let prop := of_int (Z.of_nat (rows X)) / of_int (Z.of_nat n) in
  let X2 := uninitialized n (cols X) in
  if n <? rows X then sample_rows (rows X) X n prop 0 0 rng X2
  else (X, rows X).

(** [R + R.transpose() - 2 * X * X.transpose()] with
    [R = norms * ones.transpose()]: the matrix of squared distances
    between the rows of [X], [n] being the length of [ones]. *)
Definition sq_dist_matrix (X : MatrixXd T) (n : nat) : MatrixXd T :=
  let norms := row_sq_sums X in
  let ones := Ones n in
  let R := mmul (col_vector norms) (mtranspose (col_vector ones)) in
  msub (madd R (mtranspose R))
       (mmul (mscale (of_int 2) X) (mtranspose X)).

(** [std::sort(d, d + m)] on the array [d]. *)
Definition sort_prefix (m : nat) (d : list T) : list T :=
  std_sort (firstn m d) ++ skipn m d.

(** The median of the first [m] entries of the array [d], as the last
    lines of [median_dist] take it ([m] is an [unsigned int]). *)
Definition median_of (m : nat) (d : list T) : T :=
  let d := sort_prefix m d in
  if m mod 2 =? 0 then
    (vget d (Z.to_nat (u32 (Z.of_nat (m / 2) - 1))) + vget d (m / 2)) / of_int 2
  else vget d (m / 2).

Definition median_dist (X : MatrixXd T) (n : nat) (seed : Z) : T :=
  let X2 := fst (median_sample X n seed) in
  let D := sq_dist_matrix X2 n in
  let m := u32_of_nat (msize D) in
  median_of m (mat_data D).

End MedianDist.

(** ** rbf_kernel *)

Section RbfKernel.

Context {T : Type} {ST : Scalar T} {SE : ScalarExp T}.

Local Open Scope scalar_scope.

Definition rbf_kernel (X : MatrixXd T) (sigma : T) (rbf_center : bool) : MatrixXd T :=
  let n := u32_of_nat (rows X) in
  let D := sq_dist_matrix X n in
  let D := mdiv D (of_int (-1) * sigma * sigma) in
  let K := mkMatrix (rows D) (cols D) (fun i j => sexp (coeff D i j)) in
  if rbf_center then
    let ones := Ones n in
    let M := mdiv (mmul (col_vector ones) (mtranspose (col_vector ones)))
                  (of_int (Z.of_nat n)) in
    let I := asDiagonal ones in
    mmul (mmul (msub I M) K) (msub I M)
  else K.

End RbfKernel.

(** ** RandomPCA::pca *)

Section RandomPCA.

Context {T : Type} {ST : Scalar T} {SE : ScalarExp T}.
Context {MC : Macros} {EL : EigenLib T} {BR : BoostRandom T}.
Context {SS : StdSort T} {UT : Util T}.

Local Open Scope scalar_scope.

(** The members of the [RandomPCA] object that [pca] reads or writes. *)
Record RandomPCA : Type := mkRandomPCA {
  m_stand_method : Z;
  m_X_meansd : MatrixXd T;
  m_U : MatrixXd T;
  m_V : MatrixXd T;
  m_P : MatrixXd T;
  m_d : VectorXd T;
  m_pve : VectorXd T;
  m_trace : T
}.

(** What a call leaves behind: the object, the argument [X] (standardised
    in place) and the matrix written by [save_text("kernel.txt", K)]. *)
Record pca_result : Type := mkResult {
  out_self : RandomPCA;
  out_X : MatrixXd T;
  out_kernel_txt : option (MatrixXd T)
}.

(** The body of the subspace iteration. *)
Section Iteration.

Variable K : MatrixXd T.
Variable tol : T.
Variable do_orth : bool.

(** Lines 213-223: the next iterate [Yn] from [Y]. *)
Definition next_iterate (Y : MatrixXd T) : MatrixXd T :=
  let Yn := mmul K Y in
  if do_orth then
    let I := Identity (rows Yn) (cols Yn) in
    let Yn := mmul (householderQ Yn) I in
    conservativeResize_cols Yn (cols Yn)
  else normalize Yn.

(** Line 225: [(Y - Yn).array().square().sum() / Y.size()]. *)
Definition convergence_diff (Y Yn : MatrixXd T) : T :=
  sq_sum (msub Y Yn) / of_int (Z.of_nat (msize Y)).

(** The variables of the loop; [it_count] counts the executions of the
    body and [it_break] tells whether the loop was left by [break]
    (ghost fields). *)
Record iter_state : Type := mkIter {
  it_Y : MatrixXd T;
  it_Yn : MatrixXd T;
  it_count : nat;
  it_break : bool
}.

(** [for(unsigned int iter = 0 ; iter < maxiter ; iter++) { ... }] with
    [budget = maxiter - iter] iterations left. *)
Fixpoint subspace_loop (budget : nat) (st : iter_state) : iter_state :=
  match budget with
  | 0 => st
  | S budget' =>
      let Yn := next_iterate (it_Y st) in
      let diff := convergence_diff (it_Y st) Yn in
      let st' := mkIter Yn Yn (S (it_count st)) false in
      if slt diff tol then mkIter Yn Yn (S (it_count st)) true
      else subspace_loop budget' st'
  end.

End Iteration.

Section Call.

Variable self : RandomPCA.
Variable X0 : MatrixXd T.
Variable method : Z.
Variable transpose : bool.
Variables ndim nextra maxiter : nat.
Variable tol : T.
Variable seed : Z.
Variable kernel : Z.
Variable sigma : T.
Variable rbf_center : bool.
Variable rbf_sample : nat.
Variables save_kernel do_orth do_loadings : bool.

(** Lines 148-153: [transpose] after the kernel check. *)
Definition pca_transpose : bool :=
  if negb (kernel =? KERNEL_LINEAR)%Z then false else transpose.

(** Lines 158-169: [X] and [X_meansd] after standardisation, and [N]. *)
Definition pca_standardized : MatrixXd T * MatrixXd T * nat :=
  if pca_transpose then
    let (X, ms) :=
      if negb (m_stand_method self =? STANDARDIZE_NONE)%Z
      then standardize_transpose X0 (m_stand_method self)
      else (X0, m_X_meansd self) in
    (X, ms, u32_of_nat (cols X))
  else
    let (X, ms) :=
      if negb (m_stand_method self =? STANDARDIZE_NONE)%Z
      then standardize X0 (m_stand_method self)
      else (X0, m_X_meansd self) in
    (X, ms, u32_of_nat (rows X)).

Definition pca_X : MatrixXd T := fst (fst pca_standardized).
Definition pca_X_meansd : MatrixXd T := snd (fst pca_standardized).
Definition pca_N : nat := snd pca_standardized.

(** [N - 1] in [unsigned int] arithmetic, converted to [double]. *)
Definition pca_Nm1 : T := of_int (u32 (Z.of_nat pca_N - 1)).

(** Lines 171-175: the normalised sketch [Y = X * R]. *)
Definition pca_total_dim : nat :=
  Z.to_nat (u32 (Z.of_nat ndim + Z.of_nat nextra)).

Definition pca_Y0 : MatrixXd T :=
  let R := make_gaussian (u32_of_nat (cols pca_X)) pca_total_dim seed in
  normalize (mmul pca_X R).

(** Lines 182-187: the bandwidth of the RBF kernel. *)
Definition pca_sigma : T :=
  if sequal sigma s0 then
    let med_samples := Nat.min rbf_sample pca_N in
    let med := median_dist pca_X med_samples seed in
    ssqrt med
  else sigma.

(** Lines 180-196: the kernel matrix. *)
Definition pca_K : MatrixXd T :=
  if (kernel =? KERNEL_RBF)%Z then rbf_kernel pca_X pca_sigma rbf_center
  else mdiv (mmul pca_X (mtranspose pca_X)) pca_Nm1.

(** Line 199. *)
Definition pca_trace : T := diag_sum pca_K.

(** Lines 210-230: the loop, entered with the default-constructed [Yn]. *)
Definition pca_loop : iter_state :=
  subspace_loop pca_K tol do_orth maxiter
    (mkIter pca_Y0 (uninitialized 0 0) 0 false).

Definition pca_Y : MatrixXd T := it_Y pca_loop.

(** Lines 233-236: the QR stage. *)
Definition pca_Q : MatrixXd T :=
  let Q := Identity (rows pca_Y) (cols pca_Y) in
  let Q := mmul (householderQ pca_Y) Q in
  conservativeResize_cols Q (cols pca_Y).

(** Line 240. *)
Definition pca_B : MatrixXd T := mmul (mtranspose pca_Q) pca_X.

(** Lines 243-244: [Et] and [d] after [pca_small]. *)
Definition pca_decomposition : MatrixXd T * VectorXd T :=
  pca_small pca_B method (uninitialized 0 0) (m_d self).

Definition pca_Et : MatrixXd T := fst pca_decomposition.

(** Line 247: [d = d.array() / (N - 1)]. *)
Definition pca_d : VectorXd T :=
  map (fun x => x / pca_Nm1) (snd pca_decomposition).

(** [s = 1 / (d.array().sqrt() * sqrt(N - 1)); Dinv = s.asDiagonal()] *)
Definition pca_Dinv : MatrixXd T :=
  asDiagonal (map (fun x => s1 / (ssqrt x * ssqrt pca_Nm1)) pca_d).

(** Lines 249-270: the object before the final truncation. *)
Definition pca_assembled : RandomPCA :=
  if pca_transpose then
    let V := mmul pca_Q pca_Et in
    let P := mmul (mtranspose pca_X) V in
    let U := mmul P pca_Dinv in
    mkRandomPCA (m_stand_method self) pca_X_meansd U V P pca_d
      (m_pve self) pca_trace
  else
    let U := mmul pca_Q pca_Et in
    let P := mmul U (asDiagonal pca_d) in
    let V := if do_loadings
             then mmul (mmul (mtranspose pca_X) U) pca_Dinv
             else m_V self in
    mkRandomPCA (m_stand_method self) pca_X_meansd U V P pca_d
      (m_pve self) pca_trace.

(** Lines 272-276: truncation to [ndim] components and [pve]. *)
Definition pca_truncate (r : RandomPCA) : RandomPCA :=
  let P := conservativeResize_cols (m_P r) ndim in
  let U := conservativeResize_cols (m_U r) ndim in
  let V := conservativeResize_cols (m_V r) ndim in
  let d := conservativeResize_vec (m_d r) ndim in
  let pve := map (fun x => x / m_trace r) d in
  mkRandomPCA (m_stand_method r) (m_X_meansd r) U V P d pve (m_trace r).

Definition pca : pca_result :=
  mkResult (pca_truncate pca_assembled) pca_X
    (if save_kernel then Some pca_K else None).

End Call.

End RandomPCA.

Arguments RandomPCA T : clear implicits.
Arguments pca_result T : clear implicits.
Arguments iter_state T : clear implicits.

(** ** RandomPCA::zca_whiten *)

Section ZcaWhiten.

Context {T : Type} {ST : Scalar T}.

Local Open Scope scalar_scope.

(** [zca_whiten] reads the members [U] and [d] that [pca] has written
    and the member [X] of the object, and writes the member [W]; [X]
    and [W] are not among the members that [pca] touches, so [X] is an
    argument here and [W] the result.  The product is evaluated from
    the left, as C++ parses it. *)
Definition zca_whiten (self : RandomPCA T) (X : MatrixXd T)
  (transpose : bool) : MatrixXd T :=
  let s := map (fun x => s1 / x) (m_d self) in
  let Dinv := asDiagonal s in
  if transpose then
    mmul (mmul (mmul (m_U self) Dinv) (mtranspose (m_U self))) (mtranspose X)
  else
    mmul (mmul (mmul (m_U self) Dinv) (mtranspose (m_U self))) X.

End ZcaWhiten.

(** * Definitions used in the statements *)

(** ** Quantities the properties speak of *)

(** [m - 1, m - 2, ..., 0] *)
Definition countdown (m : nat) : list Z := map Z.of_nat (rev (seq 0 m)).

(** The squared Euclidean distance between rows [i] and [j] of [X]. *)
Definition sq_euclidean_dist (X : MatrixXd R) (i j : nat) : R :=
  sum_upto (cols X) (fun c => (coeff X i c - coeff X j c) * (coeff X i c - coeff X j c))%R.

(** The squared distances between all pairs [(i, j)] of the first [n]
    rows of [X]: [n * n] values (each row is also paired with itself, and
    each two rows are paired in both orders). *)
Definition pairwise_sq_dists (X : MatrixXd R) (n : nat) : list R :=
  flat_map (fun j => map (fun i => sq_euclidean_dist X i j) (seq 0 n)) (seq 0 n).

(** The median of a sorted list as the specification words it: the
    middle element for an odd count, the average of the two middle
    elements for an even count. *)
Definition median_of_sorted (s : list R) : R :=
  if Nat.odd (length s) then nth (length s / 2) s 0%R
  else ((nth (length s / 2 - 1) s 0 + nth (length s / 2) s 0) / 2)%R.

(** The sum of the squares of all entries (the squared Frobenius norm). *)
Definition frob2 (A : MatrixXd R) : R :=
  sum_upto (rows A) (fun i => sum_upto (cols A) (fun c => coeff A i c * coeff A i c)%R).

(** The sum of a list of reals. *)
Definition rsum (l : list R) : R := fold_right Rplus 0%R l.

(** ** Contracts of the Eigen decompositions, in exact arithmetic *)

(** Rows [0 .. r - 1] of [A], read as vectors of length [m], are
    orthonormal. *)
Definition orthonormal_rows (A : MatrixXd R) (r m : nat) : Prop :=
  forall i i', i < r -> i' < r ->
    sum_upto m (fun j => coeff A i j * coeff A i' j)%R =
    if i =? i' then 1%R else 0%R.

(** [qr.householderQ()] for a matrix with [r] rows is an orthogonal
    [r x r] matrix. *)
Definition householderQ_ok (H : MatrixXd R) (r : nat) : Prop :=
  rows H = r /\ cols H = r /\ orthonormal_rows H r r.

(** The symmetric eigensolver on the [k x k] matrix [S]: [k]
    eigenvalues, an orthogonal matrix [E] of eigenvectors, and the
    diagonal of [E^T S E] holds the eigenvalues. *)
Definition eigen_ok (S : MatrixXd R) (res : VectorXd R * MatrixXd R) : Prop :=
  let k := rows S in
  let (eval, E) := res in
  length eval = k /\
  orthonormal_rows E k k /\
  forall i, i < k ->
    nth i eval 0%R =
    sum_upto k (fun a => sum_upto k (fun b =>
      coeff E a i * coeff S a b * coeff E b i))%R.

(** The thin SVD of [B]: [B = U diag(sv) V^T] with orthonormal columns
    in [U] and [V]. *)
Definition svd_ok (B : MatrixXd R)
  (res : MatrixXd R * VectorXd R * MatrixXd R) : Prop :=
  let '(U, sv, V) := res in
  let q := length sv in
  (forall a c, a < rows B -> c < cols B ->
     coeff B a c =
     sum_upto q (fun i => coeff U a i * nth i sv 0%R * coeff V c i)%R) /\
  orthonormal_rows (mtranspose U) q (rows B) /\
  orthonormal_rows (mtranspose V) q (cols B).

(** ** A concrete setting over the reals, for runs of the code *)

(** The values of the macros. *)
#[export] Instance demo_macros : Macros := {|
  METHOD_SVD := 2;
  METHOD_EIGEN := 1;
  KERNEL_LINEAR := 1;
  KERNEL_RBF := 2;
  STANDARDIZE_NONE := 0
|}.

(** A stand-in for the SVD in runs that do not take the SVD branch. *)
Definition svd_unused (B : MatrixXd R) : MatrixXd R * VectorXd R * MatrixXd R :=
  (B, [], B).

(** The eigendecomposition of a diagonal matrix whose diagonal is
    ascending: the diagonal, and the identity. *)
Definition eig_diag (M : MatrixXd R) : VectorXd R * MatrixXd R :=
  (map (fun i => coeff M i i) (seq 0 (rows M)), Identity (rows M) (rows M)).

(** The Householder factor of a QR decomposition that needs no
    reflection: the identity. *)
Definition qr_identity (M : MatrixXd R) : MatrixXd R :=
  Identity (rows M) (rows M).

#[export] Instance demo_eigen : EigenLib R := {|
  JacobiSVD := svd_unused;
  SelfAdjointEigenSolver := eig_diag;
  householderQ := qr_identity
|}.

(** A normal-variate generator that counts its calls, and a uniform
    generator that counts its calls and always draws [1/2]. *)
Definition counting_rand (g : nat) : R * nat := (INR g, S g).

Definition half_draws (g : nat) : R * nat := ((1 / 2)%R, S g).

#[export] Instance demo_random : BoostRandom R := {|
  gen := nat;
  seed_gen := Z.to_nat;
  rand := counting_rand;
  mt19937 := nat;
  seed_mt := Z.to_nat;
  uniform01 := half_draws
|}.

(** Insertion sort on the reals, a sort to run [median_dist] with. *)
Fixpoint insert_sorted (x : R) (l : list R) : list R :=
  match l with
  | [] => [x]
  | y :: l' => if Rle_dec x y then x :: l else y :: insert_sorted x l'
  end.

Fixpoint insertion_sort (l : list R) : list R :=
  match l with
  | [] => []
  | x :: l' => insert_sorted x (insertion_sort l')
  end.

#[export] Instance demo_sort : StdSort R := {| std_sort := insertion_sort |}.

(** No standardisation. *)
#[export] Instance demo_util : Util R := {|
  standardize := fun X _ => (X, X);
  standardize_transpose := fun X _ => (X, X)
|}.

(** A [RandomPCA] object before its first call, without
    standardisation. *)
Definition fresh_pca : RandomPCA R :=
  mkRandomPCA 0 (uninitialized 0 0) (uninitialized 0 0) (uninitialized 0 0)
    (uninitialized 0 0) [] [] 0%R.

(** ** Inputs *)

(** The [2 x 2] matrix with rows [(3, 0)] and [(4, 2)]. *)
Definition M34 : MatrixXd R :=
  mkMatrix 2 2 (fun i j =>
    match i, j with
    | 0, 0 => 3 | 1, 0 => 4 | 1, 1 => 2 | _, _ => 0
    end)%R.

(** The diagonal matrix with diagonal [(1, 2)]. *)
Definition B12 : MatrixXd R :=
  mkMatrix 2 2 (fun i j =>
    match i, j with
    | 0, 0 => 1 | 1, 1 => 2 | _, _ => 0
    end)%R.

(** The [3 x 1] matrix with rows [(0)], [(1)], [(3)]. *)
Definition X013 : MatrixXd R :=
  mkMatrix 3 1 (fun i _ =>
    match i with
    | 0 => 0 | 1 => 1 | 2 => 3 | _ => 0
    end)%R.

(** The [2 x 1] matrix with rows [(3)], [(0)]. *)
Definition X30 : MatrixXd R :=
  mkMatrix 2 1 (fun i _ =>
    match i with
    | 0 => 3 | _ => 0
    end)%R.

(** The [1 x 1] matrix of doubles [(49.0)]. *)
Definition M49 : MatrixXd PrimFloat.float :=
  mkMatrix 1 1 (fun _ _ => float_of_Z 49).

(** A [3 x 3] matrix of doubles with entry [(i, j)] equal to
    [10 i + j]. *)
Definition E3 : MatrixXd PrimFloat.float :=
  mkMatrix 3 3 (fun i j => float_of_Z (Z.of_nat (10 * i + j))).

(** ** Further inputs *)

(** The [2 x 2] matrix of doubles with rows [(0, 3)] and [(-0, 4)]. *)
Definition Z34 : MatrixXd PrimFloat.float :=
  mkMatrix 2 2 (fun i j =>
    match i, j with
    | 0, 0 => PrimFloat.zero
    | _, 0 => PrimFloat.neg_zero
    | 0, _ => float_of_Z 3
    | _, _ => float_of_Z 4
    end).

(** The thin SVD of a square diagonal matrix whose diagonal is
    non-negative and descending: the identity, the diagonal, the
    identity. *)
Definition svd_diag (B : MatrixXd R) : MatrixXd R * VectorXd R * MatrixXd R :=
  (Identity (rows B) (rows B),
   map (fun i => coeff B i i) (seq 0 (rows B)),
   Identity (cols B) (rows B)).

Definition diag_eigen : EigenLib R := {|
  JacobiSVD := svd_diag;
  SelfAdjointEigenSolver := eig_diag;
  householderQ := qr_identity
|}.

(** The diagonal matrix with diagonal [(2, 1)]. *)
Definition B21 : MatrixXd R :=
  mkMatrix 2 2 (fun i j =>
    match i, j with
    | 0, 0 => 2 | 1, 1 => 1 | _, _ => 0
    end)%R.

(** The [1 x 1] matrix [(3)]. *)
Definition B3 : MatrixXd R := mkMatrix 1 1 (fun _ _ => 3%R).

(** An object whose eigenvectors are the columns of the [2 x 2]
    identity, with eigenvalues [(4, 2)]. *)
Definition whitening_demo : RandomPCA R :=
  mkRandomPCA 0 (uninitialized 0 0) (Identity 2 2) (uninitialized 0 0)
    (uninitialized 0 0) [4; 2]%R [] 0%R.

(** A matrix with [65536] rows and one column, row [i] holding [i]. *)
Definition X65536 : MatrixXd R :=
  mkMatrix (Z.to_nat 65536) 1 (fun i _ => INR i).

(** The [1 x 2] matrix with the row [(3, 4)]. *)
Definition X34row : MatrixXd R :=
  mkMatrix 1 2 (fun _ j => match j with 0 => 3 | _ => 4 end)%R.

(** The squared distances between the pairs of distinct rows among the
    first [n] rows of [X], each pair once: "all pairwise squared
    distances among the sample" as the specification words it. *)
Definition distinct_pair_sq_dists (X : MatrixXd R) (n : nat) : list R :=
  flat_map (fun j => map (fun i => sq_euclidean_dist X i j) (seq 0 j)) (seq 0 n).

(** The [2 x 1] matrix with rows [(0)], [(1)]. *)
Definition X01 : MatrixXd R :=
  mkMatrix 2 1 (fun i _ => match i with 0 => 0 | _ => 1 end)%R.

(** ** Inputs and library stand-ins in binary64 *)

(** The double [2^600], whose square overflows. *)
Definition two_pow_600 : PrimFloat.float :=
  PrimFloat.ldshiftexp PrimFloat.one (Uint63.of_Z (600 + 2101)).

(** The [1 x 1] matrix of doubles [(2^600)]. *)
Definition M600 : MatrixXd PrimFloat.float :=
  mkMatrix 1 1 (fun _ _ => two_pow_600).

(** Two doubles agree up to the tolerance [tol]: [|a - b| <= tol]. *)
Definition within_tolerance (tol a b : PrimFloat.float) : bool :=
  PrimFloat.leb (PrimFloat.abs (PrimFloat.sub a b)) tol.

(** Insertion sort on doubles, and generators that count their calls. *)
Fixpoint insert_sorted64 (x : PrimFloat.float) (l : list PrimFloat.float)
  : list PrimFloat.float :=
  match l with
  | [] => [x]
  | y :: l' => if PrimFloat.leb x y then x :: l else y :: insert_sorted64 x l'
  end.

Fixpoint insertion_sort64 (l : list PrimFloat.float) : list PrimFloat.float :=
  match l with
  | [] => []
  | x :: l' => insert_sorted64 x (insertion_sort64 l')
  end.

Definition sort64 : StdSort PrimFloat.float := {| std_sort := insertion_sort64 |}.

Definition random64 : BoostRandom PrimFloat.float := {|
  gen := nat;
  seed_gen := Z.to_nat;
  rand := fun g => (float_of_Z (Z.of_nat g), S g);
  mt19937 := nat;
  seed_mt := Z.to_nat;
  uniform01 := fun g => (PrimFloat.div PrimFloat.one PrimFloat.two, S g)
|}.

(** The [2 x 1] matrix of doubles with rows [(201326594)] and
    [(201326595)]: two rows at distance [1]. *)
Definition Xclose64 : MatrixXd PrimFloat.float :=
  mkMatrix 2 1 (fun i _ => float_of_Z (201326594 + Z.of_nat i)).

(** * Properties *)

(** ** Machine integers *)

Lemma u32_small (z : Z) : (0 <= z < 2 ^ 32)%Z -> u32 z = z.
Proof. intros H. unfold u32. now apply Z.mod_small. Qed.

Lemma u32_minus_one : u32 (-1) = (2 ^ 32 - 1)%Z.
Proof. reflexivity. Qed.

Lemma u32_of_nat_small (n : nat) : (Z.of_nat n < 2 ^ 32)%Z -> u32_of_nat n = n.
Proof.
  intros H. unfold u32_of_nat. rewrite u32_small by lia. apply Nat2Z.id.
Qed.

Lemma u32_of_nat_le (n : nat) : u32_of_nat n <= n.
Proof.
  unfold u32_of_nat, u32.
  pose proof (Z.mod_le (Z.of_nat n) (2 ^ 32)) as H.
  pose proof (Z.mod_pos_bound (Z.of_nat n) (2 ^ 32)) as H'.
  lia.
Qed.

(** ** Properties of make_gaussian *)

Section MakeGaussianFacts.

Context {T : Type} {ST : Scalar T} {BR : BoostRandom T}.

Lemma gen_after_add (m n : nat) (g : gen) :
  gen_after n (gen_after m g) = gen_after (m + n) g.
Proof.
  induction n as [|n IH]; simpl.
  - now rewrite Nat.add_0_r.
  - rewrite Nat.add_succ_r. simpl. now rewrite IH.
Qed.

Lemma nth_variate_add (m n : nat) (g : gen) :
  nth_variate (gen_after m g) n = nth_variate g (m + n).
Proof. unfold nth_variate. now rewrite gen_after_add. Qed.

(** One row of the fill: [cols] variates are consumed, entry [(i, j)]
    receives the [j]-th of them, nothing else changes. *)
Lemma gaussian_row_spec (c i : nat) (G : MatrixXd T) (g : gen) :
  let r := gaussian_row c i (G, g) in
  snd r = gen_after c g /\
  rows (fst r) = rows G /\ cols (fst r) = cols G /\
  forall i' j', coeff (fst r) i' j' =
    if (i' =? i) && (j' <? c) then nth_variate g j' else coeff G i' j'.
Proof.
  unfold gaussian_row. induction c as [|c IH].
  - simpl. repeat split; auto. intros i' j'. now rewrite andb_false_r.
  - rewrite seq_S, fold_left_app. simpl.
    destruct IH as (Hg & Hr & Hc & Hco).
    set (st := fold_left _ (seq 0 c) (G, g)) in *.
    destruct (rand (snd st)) as [v g'] eqn:Hrand. simpl.
    rewrite Hg in Hrand.
    repeat split; auto.
    + now rewrite Hrand.
    + intros i' j'. rewrite Hco.
      destruct (i' =? i) eqn:Hi; simpl; auto.
      destruct (j' =? c) eqn:Hj.
      * apply Nat.eqb_eq in Hj. subst j'.
        replace (c <? S c) with true by (symmetry; apply Nat.ltb_lt; lia).
        unfold nth_variate. now rewrite Hrand.
      * apply Nat.eqb_neq in Hj.
        destruct (j' <? c) eqn:Hlt.
        -- replace (j' <? S c) with true; auto.
           symmetry; apply Nat.ltb_lt. apply Nat.ltb_lt in Hlt. lia.
        -- replace (j' <? S c) with false; auto.
           symmetry; apply Nat.ltb_ge. apply Nat.ltb_ge in Hlt. lia.
Qed.

(** The whole fill, from any generator state. *)
Lemma gaussian_fill_spec (c r : nat) (G : MatrixXd T) (g : gen) :
  let st := fold_left (fun st i => gaussian_row c i st) (seq 0 r) (G, g) in
  snd st = gen_after (r * c) g /\
  rows (fst st) = rows G /\ cols (fst st) = cols G /\
  forall i j, coeff (fst st) i j =
    if (i <? r) && (j <? c) then nth_variate g (i * c + j) else coeff G i j.
Proof.
  induction r as [|r IH].
  - simpl. repeat split; auto.
  - rewrite seq_S, fold_left_app. simpl.
    destruct IH as (Hg & Hr & Hc & Hco).
    set (st := fold_left _ (seq 0 r) (G, g)) in *.
    destruct (gaussian_row_spec c r (fst st) (snd st)) as (Hg' & Hr' & Hc' & Hco').
    rewrite <- surjective_pairing in Hg', Hr', Hc', Hco'.
    repeat split.
    + rewrite Hg', Hg, gen_after_add. f_equal. lia.
    + congruence.
    + congruence.
    + intros i j. rewrite Hco', Hco, Hg.
      destruct (i =? r) eqn:Hi.
      * apply Nat.eqb_eq in Hi. subst i. simpl.
        replace (r <? S r) with true by (symmetry; apply Nat.ltb_lt; lia).
        replace (r <? r) with false by (symmetry; apply Nat.ltb_ge; lia).
        simpl. destruct (j <? c); auto. apply nth_variate_add.
      * apply Nat.eqb_neq in Hi. simpl.
        destruct (i <? r) eqn:Hlt.
        -- replace (i <? S r) with true; auto.
           symmetry; apply Nat.ltb_lt. apply Nat.ltb_lt in Hlt. lia.
        -- replace (i <? S r) with false; auto.
           symmetry; apply Nat.ltb_ge. apply Nat.ltb_ge in Hlt. lia.
Qed.

Lemma make_gaussian_rows (r c : nat) (seed : Z) :
  rows (make_gaussian r c seed) = r.
Proof.
  unfold make_gaussian.
  now destruct (gaussian_fill_spec c r (uninitialized r c) (seed_gen seed)) as (_ & H & _).
Qed.

Lemma make_gaussian_cols (r c : nat) (seed : Z) :
  cols (make_gaussian r c seed) = c.
Proof.
  unfold make_gaussian.
  now destruct (gaussian_fill_spec c r (uninitialized r c) (seed_gen seed)) as (_ & _ & H & _).
Qed.

Lemma make_gaussian_coeff (r c : nat) (seed : Z) (i j : nat) :
  i < r -> j < c ->
  coeff (make_gaussian r c seed) i j =
  nth_variate (seed_gen seed) (i * c + j).
Proof.
  intros Hi Hj. unfold make_gaussian.
  destruct (gaussian_fill_spec c r (uninitialized r c) (seed_gen seed)) as (_ & _ & _ & H).
  rewrite H.
  apply Nat.ltb_lt in Hi. apply Nat.ltb_lt in Hj. now rewrite Hi, Hj.
Qed.

(** C8: two calls of make_gaussian with the same row count, column count
    and seed return the same matrix: the generator is seeded from [seed]
    in the call itself, and entry [(i, j)] is variate number
    [i * cols + j] (row-major order) of the generator so seeded. *)
Theorem make_gaussian_deterministic (rows1 cols1 : nat) (seed1 : Z)
  (rows2 cols2 : nat) (seed2 : Z) :
  rows1 = rows2 -> cols1 = cols2 -> seed1 = seed2 ->
  make_gaussian rows1 cols1 seed1 =
  make_gaussian rows2 cols2 seed2 /\
  rows (make_gaussian rows1 cols1 seed1) = rows1 /\
  cols (make_gaussian rows1 cols1 seed1) = cols1 /\
  forall i j, i < rows1 -> j < cols1 ->
    coeff (make_gaussian rows1 cols1 seed1) i j =
    nth_variate (seed_gen seed1) (i * cols1 + j).
Proof.
  intros -> -> ->. split; [reflexivity|].
  split; [apply make_gaussian_rows|].
  split; [apply make_gaussian_cols|].
  intros i j. apply make_gaussian_coeff.
Qed.

End MakeGaussianFacts.


Lemma make_gaussian_deterministic_witness :
  make_gaussian (BR := demo_random) 2 3 7 =
  make_gaussian (BR := demo_random) 2 3 7 /\
  rows (make_gaussian (BR := demo_random) 2 3 7) = 2 /\
  cols (make_gaussian (BR := demo_random) 2 3 7) = 3 /\
  forall i j, i < 2 -> j < 3 ->
    coeff (make_gaussian (BR := demo_random) 2 3 7) i j =
    nth_variate (BR := demo_random) (seed_gen 7) (i * 3 + j).
Proof.
  apply (@make_gaussian_deterministic R _ demo_random 2 3 7 2 3 7);
    reflexivity.
Defined.

(** ** Sums *)

Section SumFacts.

Context {T : Type} {ST : Scalar T}.

Lemma sum_upto_ext (n : nat) (f g : nat -> T) :
  (forall i, i < n -> f i = g i) -> sum_upto n f = sum_upto n g.
Proof.
  induction n as [|n IH]; intros H; simpl; auto.
  rewrite IH, H; auto.
Qed.

End SumFacts.

(** ** Properties of normalize *)

Section NormalizeFacts.

Context {T : Type} {ST : Scalar T}.

(** After the first [n] columns have been processed: they are scaled by
    the reciprocal of their norm in [X], the others are as in [X]. *)
Lemma normalize_prefix_spec (X : MatrixXd T) (n : nat) :
  let Xn := fold_left normalize_col (seq 0 n) X in
  rows Xn = rows X /\ cols Xn = cols X /\
  forall i j, coeff Xn i j =
    if (j <? n) && (i <? rows X)
    then smul (coeff X i j) (sdiv s1 (ssqrt (col_sq_sum X j)))
    else coeff X i j.
Proof.
  induction n as [|n IH].
  - simpl. repeat split; auto.
  - rewrite seq_S, fold_left_app. simpl.
    destruct IH as (Hr & Hc & Hco).
    set (Xn := fold_left normalize_col (seq 0 n) X) in *.
    repeat split; auto.
    intros i j. simpl. rewrite Hr.
    destruct (j =? n) eqn:Hj.
    + apply Nat.eqb_eq in Hj. subst j.
      replace (n <? S n) with true by (symmetry; apply Nat.ltb_lt; lia).
      destruct (i <? rows X) eqn:Hi; simpl.
      * assert (Hsum : col_sq_sum Xn n = col_sq_sum X n).
        { unfold col_sq_sum. rewrite Hr. apply sum_upto_ext.
          intros i' _. rewrite Hco.
          replace (n <? n) with false by (symmetry; apply Nat.ltb_ge; lia).
          reflexivity. }
        rewrite Hsum, Hco.
        replace (n <? n) with false by (symmetry; apply Nat.ltb_ge; lia).
        reflexivity.
      * rewrite Hco, Hi. now rewrite andb_false_r.
    + simpl. rewrite Hco. apply Nat.eqb_neq in Hj.
      destruct (j <? n) eqn:Hlt.
      * replace (j <? S n) with true; auto.
        symmetry; apply Nat.ltb_lt. apply Nat.ltb_lt in Hlt. lia.
      * replace (j <? S n) with false; auto.
        symmetry; apply Nat.ltb_ge. apply Nat.ltb_ge in Hlt. lia.
Qed.

Lemma normalize_rows (X : MatrixXd T) : rows (normalize X) = rows X.
Proof. unfold normalize. apply normalize_prefix_spec. Qed.

Lemma normalize_cols (X : MatrixXd T) : cols (normalize X) = cols X.
Proof. unfold normalize. apply normalize_prefix_spec. Qed.

Lemma normalize_coeff (X : MatrixXd T) (i j : nat) :
  coeff (normalize X) i j =
  if (j <? u32_of_nat (cols X)) && (i <? rows X)
  then smul (coeff X i j) (sdiv s1 (ssqrt (col_sq_sum X j)))
  else coeff X i j.
Proof. unfold normalize. apply normalize_prefix_spec. Qed.

End NormalizeFacts.

Section RealSums.

Local Open Scope R_scope.

Lemma sum_upto_scale_r (n : nat) (f : nat -> R) (c : R) :
  sum_upto n (fun i => f i * c) = sum_upto n f * c.
Proof.
  induction n as [|n IH]; simpl.
  - ring.
  - rewrite IH. ring.
Qed.

Lemma sum_upto_nonneg (n : nat) (f : nat -> R) :
  (forall i, (i < n)%nat -> 0 <= f i) -> 0 <= sum_upto n f.
Proof.
  induction n as [|n IH]; intros H; simpl.
  - lra.
  - specialize (IH (fun i Hi => H i (Nat.lt_lt_succ_r _ _ Hi))).
    specialize (H n (Nat.lt_succ_diag_r n)). lra.
Qed.

Lemma col_sq_sum_nonneg (X : MatrixXd R) (j : nat) : 0 <= col_sq_sum X j.
Proof.
  unfold col_sq_sum. apply sum_upto_nonneg. intros i _.
  unfold sq. simpl. nra.
Qed.

(** A processed column with non-zero norm has squared norm one. *)
Lemma normalize_col_sq_sum (X : MatrixXd R) (j : nat) :
  (j < u32_of_nat (cols X))%nat ->
  sqrt (col_sq_sum X j) <> 0 ->
  col_sq_sum (normalize X) j = 1.
Proof.
  intros Hj Hnz. unfold col_sq_sum at 1. rewrite normalize_rows.
  rewrite sum_upto_ext with
    (g := fun i => sq (coeff X i j) * (/ col_sq_sum X j)).
  - rewrite sum_upto_scale_r. fold (col_sq_sum X j).
    apply Rinv_r. intros H0. apply Hnz. rewrite H0. apply sqrt_0.
  - intros i Hi. rewrite normalize_coeff.
    apply Nat.ltb_lt in Hj. apply Nat.ltb_lt in Hi. rewrite Hj, Hi. simpl.
    unfold sq. simpl.
    pose proof (col_sq_sum_nonneg X j) as Hge.
    pose proof (sqrt_sqrt _ Hge) as Hss.
    set (S := col_sq_sum X j) in *.
    assert (HS : S <> 0).
    { intros H0. apply Hnz. rewrite H0. apply sqrt_0. }
    unfold Rdiv. rewrite Rmult_1_l.
    transitivity (coeff X i j * coeff X i j * (/ sqrt S * / sqrt S)); [ring|].
    rewrite <- Rinv_mult, Hss. reflexivity.
Qed.

(** C9, in exact arithmetic: on a matrix without a column of zero
    Euclidean norm, applying normalize twice gives the same matrix as
    applying it once. *)
Theorem normalize_idempotent_exact (X : MatrixXd R) :
  (forall j, (j < cols X)%nat -> sqrt (col_sq_sum X j) <> 0) ->
  mat_eq (normalize (normalize X)) (normalize X).
Proof.
  intros Hnz. unfold mat_eq.
  rewrite !normalize_rows, !normalize_cols.
  repeat split; auto.
  intros i j Hi Hj. rewrite normalize_coeff.
  rewrite normalize_rows, normalize_cols.
  destruct (j <? u32_of_nat (cols X)) eqn:Hp; simpl; auto.
  apply Nat.ltb_lt in Hp.
  apply Nat.ltb_lt in Hi. rewrite Hi.
  rewrite normalize_col_sq_sum by auto.
  rewrite sqrt_1. simpl. field.
Qed.

End RealSums.


Lemma normalize_idempotent_exact_witness :
  mat_eq (normalize (normalize M34)) (normalize M34).
Proof.
  apply (@normalize_idempotent_exact M34).
  intros j Hj. simpl in Hj.
  assert (Hpos : forall x : R, (0 < x)%R -> sqrt x <> 0%R).
  { intros x Hx H. apply sqrt_eq_0 in H; lra. }
  apply Hpos.
  destruct j as [|[|j]]; [| |lia]; unfold col_sq_sum, sq; simpl; lra.
Defined.


(** normalize on [M49], once and twice. *)
Example normalize_M49_binary64 :
  coeff (normalize M49) 0 0 = PrimFloat.next_down PrimFloat.one /\
  coeff (normalize (normalize M49)) 0 0 = PrimFloat.one.
Proof. vm_compute. split; reflexivity. Qed.

(** No double is within a tolerance of NaN. *)
Lemma leb_nan (tol : PrimFloat.float) : PrimFloat.leb PrimFloat.nan tol = false.
Proof.
  rewrite FloatAxioms.leb_spec.
  change (FloatOps.Prim2SF PrimFloat.nan) with SpecFloat.S754_nan.
  reflexivity.
Qed.

(** C9 fails in binary64 arithmetic, and not by a rounding error: the
    column of [M600] has the non-zero norm [2^600], but the square of
    its entry overflows, so the norm is computed as [+inf] and one
    application of normalize gives [2^600 * (1 / inf) = 0]; the second
    application divides by the norm [0] of that result and gives NaN,
    which is within no tolerance of [0]. *)
Lemma normalize_not_idempotent_binary64 :
  (forall j, j < cols M600 -> ssqrt (col_sq_sum M600 j) <> s0) /\
  coeff (normalize M600) 0 0 = PrimFloat.zero /\
  coeff (normalize (normalize M600)) 0 0 = PrimFloat.nan /\
  (forall tol,
     within_tolerance tol (coeff (normalize (normalize M600)) 0 0)
       (coeff (normalize M600) 0 0) = false) /\
  ~ (forall X : MatrixXd PrimFloat.float,
       (forall j, j < cols X -> ssqrt (col_sq_sum X j) <> s0) ->
       mat_eq (normalize (normalize X)) (normalize X)).
Proof.
  assert (Hnz : forall j, j < cols M600 -> ssqrt (col_sq_sum M600 j) <> s0).
  { intros j Hj. simpl in Hj. assert (j = 0) by lia. subst j.
    vm_compute. discriminate. }
  assert (H1 : coeff (normalize M600) 0 0 = PrimFloat.zero)
    by (vm_compute; reflexivity).
  assert (H2 : coeff (normalize (normalize M600)) 0 0 = PrimFloat.nan)
    by (vm_compute; reflexivity).
  split; [exact Hnz|]. split; [exact H1|]. split; [exact H2|]. split.
  - intros tol. rewrite H1, H2. unfold within_tolerance.
    change (PrimFloat.abs (PrimFloat.sub PrimFloat.nan PrimFloat.zero))
      with PrimFloat.nan.
    apply leb_nan.
  - intros H. destruct (H M600 Hnz) as (_ & _ & Hco).
    specialize (Hco 0 0).
    rewrite !normalize_rows, !normalize_cols in Hco. simpl in Hco.
    specialize (Hco (Nat.lt_0_succ 0) (Nat.lt_0_succ 0)).
    vm_compute in Hco. discriminate.
Qed.

(** ** Vectors *)

Section VectorFacts.

Context {T : Type} {ST : Scalar T}.

Lemma vset_length (v : VectorXd T) (k : nat) (x : T) :
  length (vset v k x) = length v.
Proof.
  unfold vset. destruct (k <? length v) eqn:Hk; auto.
  apply Nat.ltb_lt in Hk.
  rewrite length_app. cbn [length]. rewrite length_firstn, length_skipn. lia.
Qed.

Lemma vset_nth (v : VectorXd T) (k : nat) (x : T) (j : nat) (dflt : T) :
  k < length v ->
  nth j (vset v k x) dflt = if j =? k then x else nth j v dflt.
Proof.
  intros Hk. unfold vset.
  replace (k <? length v) with true by (symmetry; now apply Nat.ltb_lt).
  destruct (Nat.lt_trichotomy j k) as [Hlt | [Heq | Hgt]].
  - replace (j =? k) with false by (symmetry; apply Nat.eqb_neq; lia).
    rewrite app_nth1 by (rewrite length_firstn; lia).
    rewrite <- (firstn_skipn k v) at 2.
    rewrite app_nth1 by (rewrite length_firstn; lia). reflexivity.
  - subst j. rewrite Nat.eqb_refl.
    rewrite app_nth2 by (rewrite length_firstn; lia).
    rewrite length_firstn. replace (k - Nat.min k (length v)) with 0 by lia.
    reflexivity.
  - replace (j =? k) with false by (symmetry; apply Nat.eqb_neq; lia).
    rewrite app_nth2 by (rewrite length_firstn; lia).
    rewrite length_firstn. replace (Nat.min k (length v)) with k by lia.
    destruct (j - k) as [|q] eqn:Hq; [lia|]. cbn [nth].
    rewrite nth_skipn. f_equal. lia.
Qed.

End VectorFacts.

(** ** Properties of pca_small *)

Section SmallDecomposerFacts.

Context {T : Type} {ST : Scalar T} {MC : Macros} {EL : EigenLib T}.


Lemma countdown_S (m : nat) : countdown (S m) = Z.of_nat m :: countdown m.
Proof.
  unfold countdown. rewrite seq_S, rev_app_distr. reflexivity.
Qed.

(** The loop entered with [i = m - 1] and [k] runs its body for
    [i = m - 1, ..., 0] and stops: entries [k .. k + m - 1] of [d] and
    the same columns of [U] receive entries and columns [m - 1 .. 0] of
    [eval] and [evec]. *)
Lemma reverse_loop_spec (eval : VectorXd T) (evec : MatrixXd T) (m : nat) :
  forall st : rev_state T,
    (0 <= rv_k st)%Z ->
    (rv_k st + Z.of_nat m < 2 ^ 32)%Z ->
    (Z.to_nat (rv_k st) + m <= length (rv_d st)) ->
    let k := Z.to_nat (rv_k st) in
    let st' := reverse_loop eval evec (u32 (Z.of_nat m - 1)) st in
    rv_k st' = (rv_k st + Z.of_nat m)%Z /\
    rv_visited st' = rv_visited st ++ countdown m /\
    length (rv_d st') = length (rv_d st) /\
    (forall j dflt, nth j (rv_d st') dflt =
       if (k <=? j) && (j <? k + m) then vget eval (m - 1 - (j - k))
       else nth j (rv_d st) dflt) /\
    rows (rv_U st') = rows (rv_U st) /\
    cols (rv_U st') = cols (rv_U st) /\
    (forall r c, coeff (rv_U st') r c =
       if (k <=? c) && (c <? k + m) && (r <? rows (rv_U st))
       then coeff evec r (m - 1 - (c - k))
       else coeff (rv_U st) r c).
Proof.
  induction m as [|m IH]; intros st Hk0 Hk Hlen k st'.
  - subst st'. simpl Z.of_nat. simpl Z.sub.
    rewrite reverse_loop_equation_1.
    destruct (Z.eq_dec (u32 (u32 (-1))) (u32 (-1))) as [He0|Hne];
      [|exfalso; apply Hne; reflexivity].
    simpl. repeat split; auto.
    + lia.
    + unfold countdown. simpl. now rewrite app_nil_r.
    + intros j dflt.
      replace ((k <=? j) && (j <? k + 0)) with false; auto.
      symmetry. apply andb_false_iff.
      destruct (j <? k + 0) eqn:E; auto. apply Nat.ltb_lt in E.
      left. apply Nat.leb_gt. lia.
    + intros r c.
      replace ((k <=? c) && (c <? k + 0)) with false; auto.
      symmetry. apply andb_false_iff.
      destruct (c <? k + 0) eqn:E; auto. apply Nat.ltb_lt in E.
      left. apply Nat.leb_gt. lia.
  - subst st'.
    replace (Z.of_nat (S m) - 1)%Z with (Z.of_nat m) by lia.
    assert (Hm : u32 (Z.of_nat m) = Z.of_nat m) by (apply u32_small; lia).
    rewrite Hm. rewrite reverse_loop_equation_1.
    destruct (Z.eq_dec (u32 (Z.of_nat m)) (u32 (-1))) as [He|Hne].
    { exfalso. rewrite Hm, u32_minus_one in He. lia. }
    simpl.
    set (st1 := mkRev _ _ _ _).
    assert (Hk1 : rv_k st1 = (rv_k st + 1)%Z).
    { unfold st1. simpl. apply u32_small. lia. }
    specialize (IH st1).
    rewrite Hk1 in IH.
    assert (Hlen1 : length (rv_d st1) = length (rv_d st)).
    { unfold st1. simpl. apply vset_length. }
    rewrite Hlen1 in IH.
    replace (Z.to_nat (rv_k st + 1)) with (S k) in IH by (unfold k; lia).
    destruct IH as (Ek & Ev & El & Ed & Er & Ec & EU); try lia.
    repeat split.
    + rewrite Ek. lia.
    + rewrite Ev. unfold st1. simpl. rewrite <- app_assoc. simpl.
      now rewrite countdown_S.
    + exact El.
    + intros j dflt. rewrite Ed. unfold st1. cbn [rv_d rv_U rows cols coeff set_col]. fold k.
      rewrite Nat2Z.id.
      destruct (Nat.lt_trichotomy j k) as [Hlt | [Heq | Hgt]].
      * replace (S k <=? j) with false by (symmetry; apply Nat.leb_gt; lia).
        replace (k <=? j) with false by (symmetry; apply Nat.leb_gt; lia).
        cbn [andb]. rewrite vset_nth by lia.
        replace (j =? k) with false by (symmetry; apply Nat.eqb_neq; lia).
        reflexivity.
      * subst j.
        replace (S k <=? k) with false by (symmetry; apply Nat.leb_gt; lia).
        replace (k <=? k) with true by (symmetry; apply Nat.leb_le; lia).
        replace (k <? k + S m) with true by (symmetry; apply Nat.ltb_lt; lia).
        cbn [andb]. rewrite vset_nth by lia. rewrite Nat.eqb_refl.
        f_equal. lia.
      * replace (S k <=? j) with true by (symmetry; apply Nat.leb_le; lia).
        replace (k <=? j) with true by (symmetry; apply Nat.leb_le; lia).
        replace (S k + m) with (k + S m) by lia.
        destruct (j <? k + S m) eqn:E; cbn [andb].
        -- f_equal. apply Nat.ltb_lt in E. lia.
        -- rewrite vset_nth by lia.
           replace (j =? k) with false by (symmetry; apply Nat.eqb_neq; lia).
           reflexivity.
    + rewrite Er. reflexivity.
    + rewrite Ec. reflexivity.
    + intros r c. rewrite EU. unfold st1. cbn [rv_d rv_U rows cols coeff set_col]. fold k.
      rewrite Nat2Z.id.
      destruct (Nat.lt_trichotomy c k) as [Hlt | [Heq | Hgt]].
      * replace (S k <=? c) with false by (symmetry; apply Nat.leb_gt; lia).
        replace (k <=? c) with false by (symmetry; apply Nat.leb_gt; lia).
        replace (c =? k) with false by (symmetry; apply Nat.eqb_neq; lia).
        reflexivity.
      * subst c.
        replace (S k <=? k) with false by (symmetry; apply Nat.leb_gt; lia).
        replace (k <=? k) with true by (symmetry; apply Nat.leb_le; lia).
        replace (k <? k + S m) with true by (symmetry; apply Nat.ltb_lt; lia).
        rewrite Nat.eqb_refl. cbn [andb].
        destruct (r <? rows (rv_U st)); auto. f_equal. lia.
      * replace (S k <=? c) with true by (symmetry; apply Nat.leb_le; lia).
        replace (k <=? c) with true by (symmetry; apply Nat.leb_le; lia).
        replace (c =? k) with false by (symmetry; apply Nat.eqb_neq; lia).
        replace (S k + m) with (k + S m) by lia.
        destruct (c <? k + S m) eqn:E; cbn [andb]; auto.
        destruct (r <? rows (rv_U st)); auto. f_equal.
        apply Nat.ltb_lt in E. lia.
Qed.

(** The loop never changes the dimensions of [U], whatever the size of
    the eigenvalue vector. *)
Lemma reverse_loop_cols (eval : VectorXd T) (evec : MatrixXd T) (i : Z)
  (st : rev_state T) :
  cols (rv_U (reverse_loop eval evec i st)) = cols (rv_U st).
Proof.
  funelim (reverse_loop eval evec i st).
  - reflexivity.
  - rewrite H. reflexivity.
Qed.

Lemma StronglySorted_snoc (ord : T -> T -> Prop) (l : list T) (a : T) :
  StronglySorted ord l -> Forall (fun x => ord x a) l ->
  StronglySorted ord (l ++ [a]).
Proof.
  induction 1 as [|x l Hs IH Hx]; intros Hall; simpl.
  - repeat constructor.
  - inversion Hall; subst. constructor; auto.
    apply Forall_app. split; auto.
Qed.

(** Reversal turns a list sorted for [ord] into one sorted for the
    converse of [ord]. *)
Lemma StronglySorted_rev (ord : T -> T -> Prop) (l : list T) :
  StronglySorted ord l -> StronglySorted (fun a b => ord b a) (rev l).
Proof.
  induction 1 as [|x l Hs IH Hx]; simpl.
  - constructor.
  - apply StronglySorted_snoc; auto.
    apply Forall_rev. exact Hx.
Qed.

(** The Eigen branch of pca_small, for an eigenvalue vector whose length
    fits an [unsigned int]. *)
Lemma pca_small_eigen_spec (B U0 : MatrixXd T) (d0 : VectorXd T) (method : Z) :
  method <> METHOD_SVD -> method = METHOD_EIGEN ->
  let eval := fst (SelfAdjointEigenSolver (mmul B (mtranspose B))) in
  let evec := snd (SelfAdjointEigenSolver (mmul B (mtranspose B))) in
  let n := length eval in
  (Z.of_nat n < 2 ^ 32)%Z ->
  let st := reverse_loop eval evec (u32 (Z.of_nat n - 1))
              (mkRev (resize_vec n) (uninitialized (rows B) (rows B)) 0 []) in
  pca_small B method U0 d0 = (rv_U st, rv_d st) /\
  rv_visited st = countdown n /\
  rv_d st = rev eval /\
  rows (rv_U st) = rows B /\ cols (rv_U st) = rows B /\
  (forall r c, r < rows B -> c < n ->
     coeff (rv_U st) r c = coeff evec r (n - 1 - c)).
Proof.
  intros Hsvd Heig eval evec n Hn st.
  assert (Hlen0 : length (resize_vec (T := T) n) = n)
    by (unfold resize_vec; apply repeat_length).
  destruct (reverse_loop_spec eval evec n
              (mkRev (resize_vec n) (uninitialized (rows B) (rows B)) 0 []))
    as (Ek & Ev & El & Ed & Er & Ec & EU);
    cbn [rv_k rv_d rv_U rv_visited]; try lia.
  cbn [rv_k rv_d rv_U rv_visited] in *. fold st in Ek, Ev, El, Ed, Er, Ec, EU.
  repeat split.
  - unfold pca_small.
    apply Z.eqb_neq in Hsvd. rewrite Hsvd.
    apply Z.eqb_eq in Heig. rewrite Heig.
    cbn [rows mmul].
    rewrite (surjective_pairing (SelfAdjointEigenSolver (mmul B (mtranspose B)))).
    fold eval evec. fold n. rewrite Hlen0. reflexivity.
  - exact Ev.
  - apply nth_ext with (d := indet) (d' := indet).
    + rewrite El, Hlen0, length_rev. reflexivity.
    + intros j Hj. rewrite El, Hlen0 in Hj. rewrite Ed.
      change (Z.to_nat 0) with 0.
      replace (0 <=? j) with true by (symmetry; apply Nat.leb_le; lia).
      replace (j <? 0 + n) with true by (symmetry; apply Nat.ltb_lt; lia).
      cbn [andb]. unfold vget. rewrite rev_nth by (fold n; lia).
      fold n. f_equal. lia.
  - exact Er.
  - exact Ec.
  - intros r c Hr Hc. rewrite EU. change (Z.to_nat 0) with 0.
    replace (0 <=? c) with true by (symmetry; apply Nat.leb_le; lia).
    replace (c <? 0 + n) with true by (symmetry; apply Nat.ltb_lt; lia).
    cbn [uninitialized rows].
    replace (r <? rows B) with true by (symmetry; apply Nat.ltb_lt; lia).
    cbn [andb]. f_equal. lia.
Qed.

(** C1, as amended: the Eigen branch of pca_small returns the
    eigensolver's eigenvalues in reverse order and the eigenvector
    columns in the same reversed order; the countdown loop runs its body
    once for each of [size - 1, ..., 0] and stops.  Hence eigenvalues
    that are sorted for an order come out sorted for its converse:
    non-increasing when they are ascending, strictly decreasing when
    they are strictly ascending. *)
Theorem pca_small_eigen_reverses (B U0 : MatrixXd T) (d0 : VectorXd T) (method : Z) :
  method <> METHOD_SVD -> method = METHOD_EIGEN ->
  let eval := fst (SelfAdjointEigenSolver (mmul B (mtranspose B))) in
  let evec := snd (SelfAdjointEigenSolver (mmul B (mtranspose B))) in
  let n := length eval in
  (Z.of_nat n < 2 ^ 32)%Z ->
  let st := reverse_loop eval evec (u32 (Z.of_nat n - 1))
              (mkRev (resize_vec n) (uninitialized (rows B) (rows B)) 0 []) in
  pca_small B method U0 d0 = (rv_U st, rv_d st) /\
  rv_visited st = countdown n /\
  rv_d st = rev eval /\
  rows (rv_U st) = rows B /\ cols (rv_U st) = rows B /\
  (forall r c, r < rows B -> c < n ->
     coeff (rv_U st) r c = coeff evec r (n - 1 - c)) /\
  (forall ord : T -> T -> Prop,
     StronglySorted ord eval ->
     StronglySorted (fun a b => ord b a) (rv_d st)).
Proof.
  intros Hsvd Heig eval evec n Hn st.
  destruct (pca_small_eigen_spec B U0 d0 Hsvd Heig Hn)
    as (H1 & H2 & H3 & H4 & H5 & H6).
  fold eval evec n st in H1, H2, H3, H4, H5, H6.
  repeat split; auto.
  intros ord Hs. rewrite H3. now apply StronglySorted_rev.
Qed.

(** C10: with a method that is neither METHOD_SVD nor METHOD_EIGEN,
    pca_small returns with [U] and [d] as they were passed. *)
Theorem pca_small_other_method (B U0 : MatrixXd T) (d0 : VectorXd T) (method : Z) :
  method <> METHOD_SVD -> method <> METHOD_EIGEN ->
  pca_small B method U0 d0 = (U0, d0).
Proof.
  intros Hsvd Heig. unfold pca_small.
  apply Z.eqb_neq in Hsvd. apply Z.eqb_neq in Heig.
  rewrite Hsvd, Heig. reflexivity.
Qed.

End SmallDecomposerFacts.

(** *** Concrete runs of pca_small *)

(** The reversal loop on doubles: eigenvalues [1, 2, 3] come out as
    [3, 2, 1], the body runs for [i = 2, 1, 0], and column [0] of [U] is
    column [2] of the eigenvector matrix. *)
Example reverse_loop_binary64 :
  let st := reverse_loop (map float_of_Z [1; 2; 3]%Z) E3 (u32 (3 - 1))
              (mkRev (resize_vec 3) (uninitialized 3 3) 0 []) in
  rv_d st = map float_of_Z [3; 2; 1]%Z /\
  rv_visited st = [2; 1; 0]%Z /\
  rv_k st = 3%Z /\
  coeff (rv_U st) 1 0 = float_of_Z 12 /\
  coeff (rv_U st) 1 2 = float_of_Z 10.
Proof. vm_compute. repeat split. Qed.


Lemma pca_small_eigen_reverses_witness :
  let eval := fst (SelfAdjointEigenSolver (EigenLib := demo_eigen) (mmul B12 (mtranspose B12))) in
  let evec := snd (SelfAdjointEigenSolver (EigenLib := demo_eigen) (mmul B12 (mtranspose B12))) in
  let st := reverse_loop eval evec (u32 (Z.of_nat 2 - 1))
              (mkRev (resize_vec 2) (uninitialized 2 2) 0 []) in
  pca_small (EL := demo_eigen) B12 1 (uninitialized 0 0) [] =
    (rv_U st, rv_d st) /\
  rv_visited st = [1%Z; 0%Z] /\
  rv_d st = rev eval /\
  rows (rv_U st) = 2 /\ cols (rv_U st) = 2 /\
  (forall r c, r < 2 -> c < 2 -> coeff (rv_U st) r c = coeff evec r (2 - 1 - c)) /\
  (forall ord : R -> R -> Prop,
     StronglySorted ord eval ->
     StronglySorted (fun a b => ord b a) (rv_d st)).
Proof.
  apply (@pca_small_eigen_reverses R _ demo_macros demo_eigen
           B12 (uninitialized 0 0) [] 1%Z).
  - discriminate.
  - reflexivity.
  - simpl. lia.
Defined.

Lemma pca_small_other_method_witness :
  pca_small (EL := demo_eigen) B12 3 (uninitialized 0 0) [5%R] =
  (uninitialized 0 0, [5%R]).
Proof.
  apply (@pca_small_other_method R _ demo_macros demo_eigen
           B12 (uninitialized 0 0) [5%R] 3%Z); discriminate.
Defined.

(** C1 as stated fails on ties: for [B] the [2 x 2] identity, [B * B^T]
    is the identity, its eigenvalues [1, 1] are in ascending order, and
    the [d] that pca_small returns is [1, 1], which is not strictly
    decreasing. *)
Lemma pca_small_eigen_ties_not_strict :
  let B := Identity (T := R) 2 2 in
  let eval := fst (SelfAdjointEigenSolver (EigenLib := demo_eigen) (mmul B (mtranspose B))) in
  let d := snd (pca_small (EL := demo_eigen) B 1 (uninitialized 0 0) []) in
  eval = [1; 1]%R /\ StronglySorted Rle eval /\ ~ StronglySorted Rgt d.
Proof.
  intros B eval d.
  assert (Heval : eval = [1; 1]%R).
  { unfold eval, B. cbn. f_equal; [|f_equal]; lra. }
  assert (Hd : d = rev eval).
  { unfold d.
    destruct (@pca_small_eigen_spec R _ demo_macros demo_eigen
                B (uninitialized 0 0) [] 1%Z) as (H1 & _ & H3 & _).
    - discriminate.
    - reflexivity.
    - simpl. lia.
    - rewrite H1. cbn [snd]. exact H3. }
  split; [exact Heval|]. split.
  - rewrite Heval. repeat constructor; lra.
  - rewrite Hd, Heval. cbn [rev app]. intros Hs.
    inversion Hs as [|a l _ Hall]; subst.
    inversion Hall as [|b l' Hgt _]; subst. lra.
Qed.

(** ** Properties of median_dist *)

Section SamplingFacts.

Context {T : Type} {ST : Scalar T} {BR : BoostRandom T}.

(** When every draw passes the comparison with [prop], the loop started
    at row [i] with [k < n] rows accepted and at least [n - k] rows left
    stops with [n] rows accepted: rows [k .. n - 1] of the sample are
    rows [i .. i + n - k - 1] of [X]. *)
Lemma sample_rows_all_accepted (X : MatrixXd T) (n : nat) (prop : T) :
  (forall g, slt (fst (uniform01 g)) prop = true) ->
  (Z.of_nat n < 2 ^ 32)%Z ->
  forall rest i k rng X2,
    k < n -> n - k <= rest ->
    let res := sample_rows rest X n prop i k rng X2 in
    snd res = n /\
    rows (fst res) = rows X2 /\ cols (fst res) = cols X2 /\
    forall r c, coeff (fst res) r c =
      if (k <=? r) && (r <? n) && (c <? cols X2)
      then coeff X (i + (r - k)) c else coeff X2 r c.
Proof.
  intros Hacc Hn. induction rest as [|rest IH]; intros i k rng X2 Hk Hrest.
  - lia.
  - cbn [sample_rows].
    pose proof (Hacc rng) as Hu.
    destruct (uniform01 rng) as [u rng'] eqn:Hdraw. cbn [fst] in Hu.
    rewrite Hu.
    rewrite u32_of_nat_small by lia.
    destruct (k + 1 =? n) eqn:Hend.
    + apply Nat.eqb_eq in Hend. cbn [fst snd].
      repeat split; auto.
      intros r c. cbn [set_row coeff].
      destruct (Nat.eq_dec r k) as [->|Hne].
      * rewrite Nat.eqb_refl.
        replace (k <=? k) with true by (symmetry; apply Nat.leb_le; lia).
        replace (k <? n) with true by (symmetry; apply Nat.ltb_lt; lia).
        cbn [andb]. destruct (c <? cols X2); auto.
        f_equal. lia.
      * replace (r =? k) with false by (symmetry; now apply Nat.eqb_neq).
        cbn [andb].
        replace ((k <=? r) && (r <? n)) with false; auto.
        symmetry. apply andb_false_iff.
        destruct (Nat.lt_ge_cases r k).
        -- left. apply Nat.leb_gt. lia.
        -- right. apply Nat.ltb_ge. lia.
    + apply Nat.eqb_neq in Hend.
      specialize (IH (i + 1) (k + 1) rng' (set_row X2 k X i)).
      destruct IH as (Hs & Hr & Hc & Hco); try lia.
      repeat split; auto.
      intros r c. rewrite Hco. cbn [set_row coeff cols].
      destruct (Nat.lt_trichotomy r k) as [Hlt | [Heq | Hgt]].
      * replace (k + 1 <=? r) with false by (symmetry; apply Nat.leb_gt; lia).
        replace (k <=? r) with false by (symmetry; apply Nat.leb_gt; lia).
        replace (r =? k) with false by (symmetry; apply Nat.eqb_neq; lia).
        reflexivity.
      * subst r.
        replace (k + 1 <=? k) with false by (symmetry; apply Nat.leb_gt; lia).
        replace (k <=? k) with true by (symmetry; apply Nat.leb_le; lia).
        replace (k <? n) with true by (symmetry; apply Nat.ltb_lt; lia).
        rewrite Nat.eqb_refl. cbn [andb].
        destruct (c <? cols X2); auto. f_equal. lia.
      * replace (k + 1 <=? r) with true by (symmetry; apply Nat.leb_le; lia).
        replace (k <=? r) with true by (symmetry; apply Nat.leb_le; lia).
        replace (r =? k) with false by (symmetry; apply Nat.eqb_neq; lia).
        cbn [andb].
        destruct ((r <? n) && (c <? cols X2)); auto. f_equal. lia.
Qed.

(** Whatever the draws, the loop only writes rows of the sample below
    the number of rows it has accepted: every other row is left as it
    was. *)
Lemma sample_rows_untouched (X : MatrixXd T) (n : nat) (prop : T) :
  (Z.of_nat (rows X) < 2 ^ 32)%Z ->
  forall rest i k rng X2,
    k + rest <= rows X ->
    let res := sample_rows rest X n prop i k rng X2 in
    k <= snd res /\
    forall r c, snd res <= r -> coeff (fst res) r c = coeff X2 r c.
Proof.
  intros HX. induction rest as [|rest IH]; intros i k rng X2 Hk.
  - cbn. split; auto.
  - cbn [sample_rows].
    destruct (uniform01 rng) as [u rng'].
    destruct (slt u prop).
    + rewrite u32_of_nat_small by lia.
      destruct (k + 1 =? n).
      * cbn [fst snd]. split; [lia|].
        intros r c Hr. cbn [set_row coeff].
        replace (r =? k) with false by (symmetry; apply Nat.eqb_neq; lia).
        reflexivity.
      * specialize (IH (i + 1) (k + 1) rng' (set_row X2 k X i)).
        destruct IH as (Hle & Hco); [lia|].
        split; [lia|]. intros r c Hr. rewrite Hco by lia.
        cbn [set_row coeff].
        replace (r =? k) with false by (symmetry; apply Nat.eqb_neq; lia).
        reflexivity.
    + specialize (IH (i + 1) k rng' X2).
      destruct IH as (Hle & Hco); [lia|]. split; auto.
Qed.

End SamplingFacts.

Section SortFacts.

Local Open Scope R_scope.

Lemma insert_sorted_perm (x : R) (l : list R) :
  Permutation (insert_sorted x l) (x :: l).
Proof.
  induction l as [|y l IH]; simpl; auto.
  destruct (Rle_dec x y); auto.
  rewrite IH. apply perm_swap.
Qed.

Lemma insert_sorted_sorted (x : R) (l : list R) :
  StronglySorted Rle l -> StronglySorted Rle (insert_sorted x l).
Proof.
  induction 1 as [|y l Hs IH Hy]; simpl.
  - repeat constructor.
  - destruct (Rle_dec x y) as [Hle|Hgt].
    + constructor; [constructor; auto|].
      constructor; auto.
      eapply Forall_impl; [|exact Hy]. intros z Hz. simpl in Hz. lra.
    + constructor; auto.
      eapply Permutation_Forall; [symmetry; apply insert_sorted_perm|].
      constructor; auto. lra.
Qed.

Lemma insertion_sort_perm (l : list R) : Permutation (insertion_sort l) l.
Proof.
  induction l as [|x l IH]; simpl; auto.
  rewrite insert_sorted_perm. now constructor.
Qed.

Lemma insertion_sort_sorted (l : list R) : StronglySorted Rle (insertion_sort l).
Proof.
  induction l as [|x l IH]; simpl.
  - constructor.
  - now apply insert_sorted_sorted.
Qed.

End SortFacts.

Section MedianFacts.

Local Open Scope R_scope.

Context {BR : BoostRandom R}.

(** [uniform_real_distribution<>(0, 1)] draws from [[0, 1)]. *)
Hypothesis draw_range : forall g, 0 <= fst (uniform01 g) < 1.

(** For [1 <= n < rows] the acceptance threshold [rows / n] exceeds
    every draw. *)
Lemma draws_below_threshold (r n : nat) (g : mt19937) :
  (1 <= n)%nat -> (n < r)%nat ->
  slt (fst (uniform01 g)) (of_int (Z.of_nat r) / of_int (Z.of_nat n))%S = true.
Proof.
  intros Hn Hr. cbn [slt sdiv of_int R_scalar].
  assert (Hn0 : 0 < IZR (Z.of_nat n)) by (apply IZR_lt; lia).
  assert (Hrn : IZR (Z.of_nat n) < IZR (Z.of_nat r)) by (apply IZR_lt; lia).
  assert (H1 : 1 < IZR (Z.of_nat r) / IZR (Z.of_nat n)).
  { apply Rmult_lt_reg_r with (IZR (Z.of_nat n)); auto.
    unfold Rdiv. rewrite Rmult_assoc, Rinv_l by lra. lra. }
  pose proof (draw_range g).
  destruct (Rlt_dec _ _) as [|Hno]; auto. exfalso. apply Hno. lra.
Qed.

(** The sampling branch of median_dist accepts every row it scans. *)
Lemma median_sample_full (X : MatrixXd R) (n : nat) (seed : Z) :
  (1 <= n)%nat -> (n < rows X)%nat -> (Z.of_nat n < 2 ^ 32)%Z ->
  let res := median_sample X n seed in
  snd res = n /\ rows (fst res) = n /\ cols (fst res) = cols X /\
  forall r c, (r < n)%nat -> (c < cols X)%nat ->
    coeff (fst res) r c = coeff X r c.
Proof.
  intros Hn Hr H32. unfold median_sample.
  replace (n <? rows X)%nat with true by (symmetry; now apply Nat.ltb_lt).
  destruct (@sample_rows_all_accepted R _ BR X n
              (of_int (Z.of_nat (rows X)) / of_int (Z.of_nat n))%S
              (fun g => draws_below_threshold g Hn Hr) H32
              (rows X) 0%nat 0%nat (seed_mt seed) (uninitialized n (cols X)))
    as (Hs & Hrw & Hc & Hco); try lia.
  repeat split; auto.
  intros r c Hrn Hcc. rewrite Hco. cbn [uninitialized cols].
  replace (0 <=? r)%nat with true by (symmetry; apply Nat.leb_le; lia).
  replace (r <? n)%nat with true by (symmetry; now apply Nat.ltb_lt).
  replace (c <? cols X)%nat with true by (symmetry; now apply Nat.ltb_lt).
  cbn [andb]. f_equal. lia.
Qed.

(** C7: what the sampling loop of median_dist does where the
    specification expects a possible shortfall.  The acceptance threshold is computed
    as [rows / n], which exceeds [1] for [1 <= n < rows], and every draw
    is below [1]: for every matrix, every such [n] and every seed, each
    row the loop scans is accepted, the loop stops with exactly [n] rows
    accepted, and every row of the sample is assigned (the sample is the
    first [n] rows of [X]). *)
Theorem median_sample_never_short (X : MatrixXd R) (n : nat) (seed : Z) :
  (1 <= n)%nat -> (n < rows X)%nat -> (Z.of_nat n < 2 ^ 32)%Z ->
  let res := median_sample X n seed in
  snd res = n /\ rows (fst res) = n /\ cols (fst res) = cols X /\
  forall r c, (r < n)%nat -> (c < cols X)%nat ->
    coeff (fst res) r c = coeff X r c.
Proof. exact (@median_sample_full X n seed). Qed.

End MedianFacts.

(** Hence the shortfall of C7 does not occur: with draws in [[0, 1)]
    there is no matrix, sample size below the row count and seed for
    which the sampling loop ends with fewer than [n] rows accepted. *)
Lemma median_sample_no_shortfall :
  ~ exists (BR : BoostRandom R) (X : MatrixXd R) (n : nat) (seed : Z),
      (forall g, (0 <= fst (uniform01 g) < 1)%R) /\
      (Z.of_nat n < 2 ^ 32)%Z /\ n < rows X /\
      snd (median_sample X n seed) < n.
Proof.
  intros (BR & X & n & seed & Hdraw & H32 & Hn & Hshort).
  destruct n as [|n]; [lia|].
  destruct (@median_sample_full BR Hdraw X (S n) seed)
    as (Hs & _); try lia.
Qed.

Lemma median_sample_never_short_witness :
  let res := median_sample (BR := demo_random) X013 2 7 in
  snd res = 2 /\ rows (fst res) = 2 /\ cols (fst res) = 1 /\
  forall r c, r < 2 -> c < 1 -> coeff (fst res) r c = coeff X013 r c.
Proof.
  apply (@median_sample_never_short demo_random).
  - intros g. cbn. lra.
  - lia.
  - simpl. lia.
  - simpl. lia.
Defined.

(** ** The value computed by median_dist *)

Section ListFacts.

Context {A B : Type}.

Lemma flat_map_ext_in (f g : A -> list B) (l : list A) :
  (forall a, In a l -> f a = g a) -> flat_map f l = flat_map g l.
Proof.
  induction l as [|a l IH]; intros H; simpl; auto.
  rewrite H by (now left). rewrite IH; auto.
  intros b Hb. apply H. now right.
Qed.

Lemma flat_map_length_const (f : A -> list B) (l : list A) (n : nat) :
  (forall a, length (f a) = n) -> length (flat_map f l) = length l * n.
Proof.
  intros H. induction l as [|a l IH]; simpl; auto.
  rewrite length_app, H, IH. reflexivity.
Qed.

Lemma nth_map_seq (f : nat -> B) (n i : nat) (d : B) :
  i < n -> nth i (map f (seq 0 n)) d = f i.
Proof.
  intros Hi.
  rewrite nth_indep with (d' := f 0) by (now rewrite length_map, length_seq).
  rewrite map_nth. now rewrite seq_nth.
Qed.

Lemma nth_map_in (f : A -> B) (l : list A) (i : nat) (d : B) (d' : A) :
  i < length l -> nth i (map f l) d = f (nth i l d').
Proof.
  intros Hi.
  rewrite nth_indep with (d' := f d') by (now rewrite length_map).
  apply map_nth.
Qed.

Lemma firstn_incl (n : nat) (l : list A) (x : A) :
  In x (firstn n l) -> In x l.
Proof.
  intros H. rewrite <- (firstn_skipn n l). apply in_or_app. now left.
Qed.

End ListFacts.

Lemma mod2_even (n : nat) : (n mod 2 =? 0) = Nat.even n.
Proof.
  rewrite (Nat.div_mod_eq n 2) at 2.
  rewrite Nat.add_comm, Nat.even_add_mul_2.
  pose proof (Nat.mod_upper_bound n 2).
  destruct (n mod 2) as [|[|k]]; auto; lia.
Qed.

Section DistanceFacts.

Local Open Scope R_scope.

Lemma sum_upto_sq_diff (n : nat) (f g : nat -> R) :
  sum_upto n (fun c => (f c - g c) * (f c - g c)) =
  sum_upto n (fun c => f c * f c) + sum_upto n (fun c => g c * g c)
  - sum_upto n (fun c => 2 * f c * g c).
Proof.
  induction n as [|n IH]; simpl.
  - ring.
  - rewrite IH. ring.
Qed.

Lemma vget_row_sq_sums (X : MatrixXd R) (i : nat) :
  (i < rows X)%nat ->
  vget (row_sq_sums X) i = sum_upto (cols X) (fun c => coeff X i c * coeff X i c).
Proof.
  intros Hi. unfold vget, row_sq_sums. now rewrite nth_map_seq.
Qed.

Lemma vget_Ones (n j : nat) : (j < n)%nat -> vget (Ones (T := R) n) j = 1.
Proof.
  intros Hj. unfold vget, Ones.
  rewrite nth_indep with (d' := s1) by (now rewrite repeat_length).
  apply nth_repeat.
Qed.

(** The entries of [R + R^T - 2 X X^T] are the squared Euclidean
    distances between the rows of [X]. *)
Lemma sq_dist_matrix_coeff (X : MatrixXd R) (n i j : nat) :
  (i < rows X)%nat -> (j < rows X)%nat -> (i < n)%nat -> (j < n)%nat ->
  coeff (sq_dist_matrix X n) i j = sq_euclidean_dist X i j.
Proof.
  intros Hi Hj Hin Hjn. unfold sq_dist_matrix, sq_euclidean_dist.
  cbn [msub madd mmul mscale mtranspose col_vector coeff rows cols sum_upto
       sadd ssub smul of_int s0 R_scalar].
  rewrite !vget_row_sq_sums, !vget_Ones by assumption.
  rewrite sum_upto_sq_diff.
  ring.
Qed.

Lemma sq_dist_matrix_rows (X : MatrixXd R) (n : nat) :
  rows (sq_dist_matrix X n) = rows X.
Proof.
  unfold sq_dist_matrix, row_sq_sums. cbn. now rewrite length_map, length_seq.
Qed.

Lemma sq_dist_matrix_cols (X : MatrixXd R) (n : nat) :
  cols (sq_dist_matrix X n) = n.
Proof. unfold sq_dist_matrix, Ones. cbn. apply repeat_length. Qed.

Lemma sq_dist_matrix_data (X : MatrixXd R) (n : nat) :
  rows X = n -> mat_data (sq_dist_matrix X n) = pairwise_sq_dists X n.
Proof.
  intros Hn. unfold mat_data, pairwise_sq_dists.
  rewrite sq_dist_matrix_rows, sq_dist_matrix_cols, Hn.
  apply flat_map_ext_in. intros j Hj. apply in_seq in Hj.
  apply map_ext_in. intros i Hi. apply in_seq in Hi.
  apply sq_dist_matrix_coeff; lia.
Qed.

Lemma pairwise_sq_dists_length (X : MatrixXd R) (n : nat) :
  length (pairwise_sq_dists X n) = (n * n)%nat.
Proof.
  unfold pairwise_sq_dists.
  rewrite flat_map_length_const with (n := n).
  - now rewrite length_seq.
  - intros a. now rewrite length_map, length_seq.
Qed.

Context {SS : StdSort R}.

(** [std::sort] leaves a sorted rearrangement of the array. *)
Hypothesis std_sort_perm : forall l, Permutation (std_sort l) l.

(** On the whole array, of a length that fits an [unsigned int], the
    last lines of median_dist take the median as the specification
    words it. *)
Lemma median_of_whole (d : list R) :
  (1 <= length d)%nat -> (Z.of_nat (length d) < 2 ^ 32)%Z ->
  median_of (length d) d = median_of_sorted (std_sort d).
Proof.
  intros Hlen H32. unfold median_of, median_of_sorted, sort_prefix.
  rewrite firstn_all, skipn_all, app_nil_r.
  rewrite (Permutation_length (std_sort_perm d)).
  rewrite mod2_even, <- Nat.negb_odd.
  destruct (Nat.odd (length d)) eqn:Hodd; cbn [negb].
  - reflexivity.
  - assert (Hhalf : (1 <= length d / 2)%nat).
    { destruct (length d) as [|[|m]] eqn:E; try lia.
      - discriminate.
      - change (S (S m)) with (2 + m)%nat.
        replace (2 + m)%nat with (m + 1 * 2)%nat by lia.
        rewrite Nat.div_add by lia. lia. }
    assert (Hle : (length d / 2 <= length d)%nat)
      by (apply Nat.Div0.div_le_upper_bound; lia).
    rewrite u32_small by lia.
    replace (Z.to_nat (Z.of_nat (length d / 2) - 1)) with (length d / 2 - 1)%nat by lia.
    reflexivity.
Qed.

End DistanceFacts.

Section MedianDistValue.

Local Open Scope R_scope.

Context {BR : BoostRandom R} {SS : StdSort R}.

Hypothesis draw_range : forall g, 0 <= fst (uniform01 g) < 1.
Hypothesis std_sort_perm : forall l, Permutation (std_sort l) l.

(** The sample of median_dist is made of the first [n] rows of [X]. *)
Lemma median_sample_rows (X : MatrixXd R) (n : nat) (seed : Z) :
  (1 <= n)%nat -> (n <= rows X)%nat -> (Z.of_nat n < 2 ^ 32)%Z ->
  let X2 := fst (median_sample X n seed) in
  rows X2 = n /\ cols X2 = cols X /\
  forall r c, (r < n)%nat -> (c < cols X)%nat -> coeff X2 r c = coeff X r c.
Proof.
  intros Hn Hr H32.
  destruct (Nat.lt_ge_cases n (rows X)) as [Hlt|Hge].
  - destruct (median_sample_full draw_range X seed Hn Hlt H32)
      as (_ & H1 & H2 & H3). auto.
  - unfold median_sample.
    replace (n <? rows X)%nat with false by (symmetry; now apply Nat.ltb_ge).
    cbn [fst]. repeat split; auto. lia.
Qed.

(** median_dist returns the median, as the specification words it, of
    the sorted squared distances between all pairs of sampled rows. *)
Lemma median_dist_value (X : MatrixXd R) (n : nat) (seed : Z) :
  (1 <= n)%nat -> (n <= rows X)%nat -> (Z.of_nat (n * n) < 2 ^ 32)%Z ->
  let X2 := fst (median_sample X n seed) in
  median_dist X n seed = median_of_sorted (std_sort (pairwise_sq_dists X2 n)).
Proof.
  intros Hn Hr H32 X2.
  assert (Hn32 : (Z.of_nat n < 2 ^ 32)%Z) by nia.
  destruct (median_sample_rows X seed Hn Hr Hn32) as (Hrows & _ & _).
  fold X2 in Hrows.
  unfold median_dist. fold X2.
  unfold msize. rewrite sq_dist_matrix_rows, sq_dist_matrix_cols, Hrows.
  rewrite u32_of_nat_small by exact H32.
  rewrite sq_dist_matrix_data by exact Hrows.
  rewrite <- (pairwise_sq_dists_length X2 n) at 1.
  apply median_of_whole.
  - exact std_sort_perm.
  - rewrite pairwise_sq_dists_length. nia.
  - rewrite pairwise_sq_dists_length. exact H32.
Qed.

End MedianDistValue.

(** ** Properties of the subspace iteration *)

Section IterationFacts.

Context {T : Type} {ST : Scalar T} {EL : EigenLib T}.

Variable K : MatrixXd T.
Variable tol : T.
Variable do_orth : bool.

Let step := next_iterate K do_orth.
Let loop := subspace_loop K tol do_orth.

(** What the loop reaches from a state [st] within [budget] iterations.
    [n] is the number of executions of the body; iterate [j] is the
    [j]-fold image of the entry value of [Y]. *)
Lemma subspace_loop_spec (budget : nat) :
  forall st : iter_state T,
    let r := loop budget st in
    let n := it_count r - it_count st in
    let Y j := Nat.iter j step (it_Y st) in
    let diff j := convergence_diff (Y j) (Y (S j)) in
    it_count st <= it_count r /\
    n <= budget /\
    it_Y r = Y n /\
    (n = 0 -> r = st) /\
    (1 <= n -> it_Yn r = it_Y r) /\
    (forall j, j + 1 < n -> slt (diff j) tol = false) /\
    (1 <= n -> it_break r = slt (diff (n - 1)) tol) /\
    (n < budget -> 1 <= n /\ it_break r = true).
Proof.
  induction budget as [|budget IH]; intros st.
  - cbn. rewrite Nat.sub_diag. cbn.
    repeat split; auto; try lia.
  - cbn zeta. unfold loop. cbn [subspace_loop]. fold loop. fold step.
    destruct (slt (convergence_diff (it_Y st) (step (it_Y st))) tol) eqn:Hd.
    + cbn [it_count it_Y it_Yn it_break].
      replace (S (it_count st) - it_count st) with 1 by lia.
      cbn [Nat.iter Nat.sub].
      repeat split; auto; try lia.
    + specialize (IH (mkIter (step (it_Y st)) (step (it_Y st))
                        (S (it_count st)) false)).
      cbn zeta in IH. cbn [it_count it_Y it_Yn it_break] in IH.
      set (r := loop budget _) in *.
      destruct IH as (Hc & Hn & HY & H0 & HYn & Hd' & Hb & He).
      assert (Hsub : it_count r - it_count st = S (it_count r - S (it_count st)))
        by lia.
      rewrite Hsub.
      assert (Hiter : forall j, Nat.iter j step (step (it_Y st)) =
                                Nat.iter (S j) step (it_Y st)).
      { intros j. symmetry. apply Nat.iter_succ_r. }
      repeat split; try lia.
      * rewrite HY. apply Hiter.
      * intros _.
        destruct (Nat.eq_dec (it_count r - S (it_count st)) 0) as [E|E].
        -- rewrite (H0 E). reflexivity.
        -- apply HYn. lia.
      * intros j Hj. destruct j as [|j].
        -- exact Hd.
        -- rewrite <- !Hiter. apply Hd'. lia.
      * intros _.
        destruct (Nat.eq_dec (it_count r - S (it_count st)) 0) as [E|E].
        -- rewrite E, (H0 E). cbn [it_break Nat.sub Nat.iter].
           symmetry. exact Hd.
        -- rewrite Hb by lia.
           replace (S (it_count r - S (it_count st)) - 1)
             with (S (it_count r - S (it_count st) - 1)) by lia.
           now rewrite <- !Hiter.
      * apply He. lia.
Qed.

End IterationFacts.

(** ** Properties of RandomPCA::pca *)

Section DimensionFacts.

Context {T : Type} {ST : Scalar T} {EL : EigenLib T}.

Lemma next_iterate_cols (K Y : MatrixXd T) (do_orth : bool) :
  cols (next_iterate K do_orth Y) = cols Y.
Proof.
  unfold next_iterate. destruct do_orth.
  - reflexivity.
  - now rewrite normalize_cols.
Qed.

Lemma subspace_loop_cols (K : MatrixXd T) (tol : T) (do_orth : bool) (budget : nat) :
  forall st, cols (it_Y (subspace_loop K tol do_orth budget st)) = cols (it_Y st).
Proof.
  induction budget as [|budget IH]; intros st; cbn [subspace_loop]; auto.
  destruct (slt _ tol).
  - cbn [it_Y]. apply next_iterate_cols.
  - rewrite IH. cbn [it_Y]. apply next_iterate_cols.
Qed.

Lemma conservativeResize_vec_length (v : VectorXd T) (n : nat) :
  length (conservativeResize_vec v n) = n.
Proof.
  unfold conservativeResize_vec.
  rewrite length_app, length_firstn, repeat_length. lia.
Qed.

Lemma conservativeResize_vec_firstn (v : VectorXd T) (n : nat) :
  n <= length v -> conservativeResize_vec v n = firstn n v.
Proof.
  intros H. unfold conservativeResize_vec.
  replace (n - length v) with 0 by lia. apply app_nil_r.
Qed.

Lemma conservativeResize_vec_nth (v : VectorXd T) (n j : nat) (dflt : T) :
  j < n -> j < length v ->
  nth j (conservativeResize_vec v n) dflt = nth j v dflt.
Proof.
  intros Hn Hv. unfold conservativeResize_vec.
  rewrite app_nth1 by (rewrite length_firstn; lia).
  now rewrite nth_firstn, (proj2 (Nat.ltb_lt j n) Hn).
Qed.

End DimensionFacts.

Section PipelineFacts.

Context {T : Type} {ST : Scalar T} {SE : ScalarExp T}.
Context {MC : Macros} {EL : EigenLib T} {BR : BoostRandom T}.
Context {SS : StdSort T} {UT : Util T}.

Variable self : RandomPCA T.
Variable X0 : MatrixXd T.
Variable method : Z.
Variable transpose : bool.
Variables ndim nextra maxiter : nat.
Variable tol : T.
Variable seed : Z.
Variable kernel : Z.
Variable sigma : T.
Variable rbf_center : bool.
Variable rbf_sample : nat.
Variables save_kernel do_orth do_loadings : bool.

Local Abbreviation X := (pca_X self X0 transpose kernel).
Local Abbreviation Y0 := (pca_Y0 self X0 transpose ndim nextra seed kernel).
Local Abbreviation K :=
  (pca_K self X0 transpose seed kernel sigma rbf_center rbf_sample).
Local Abbreviation the_loop :=
  (pca_loop self X0 transpose ndim nextra maxiter tol seed kernel sigma
     rbf_center rbf_sample do_orth).
Local Abbreviation Y :=
  (pca_Y self X0 transpose ndim nextra maxiter tol seed kernel sigma
     rbf_center rbf_sample do_orth).
Local Abbreviation Q :=
  (pca_Q self X0 transpose ndim nextra maxiter tol seed kernel sigma
     rbf_center rbf_sample do_orth).
Local Abbreviation Et :=
  (pca_Et self X0 method transpose ndim nextra maxiter tol seed kernel sigma
     rbf_center rbf_sample do_orth).
Local Abbreviation d_scaled :=
  (pca_d self X0 method transpose ndim nextra maxiter tol seed kernel sigma
     rbf_center rbf_sample do_orth).
Local Abbreviation assembled :=
  (pca_assembled self X0 method transpose ndim nextra maxiter tol seed kernel
     sigma rbf_center rbf_sample do_orth do_loadings).
Local Abbreviation result :=
  (pca self X0 method transpose ndim nextra maxiter tol seed kernel
     sigma rbf_center rbf_sample save_kernel do_orth do_loadings).

(** C2: the subspace-iteration loop of RandomPCA::pca runs its body at
    most [maxiter] times; it stops with fewer than [maxiter] executions
    exactly when the metric of some iteration before the last one of the
    budget is below [tol], the metric being the sum of the squared
    entries of [Y - Yn] divided by [Y.size()]; the loop is left by
    [break] exactly when the metric of the last executed iteration is
    below [tol]; and on exit [Y] is the last iterate computed, which is
    also the value of [Yn]. *)
Theorem pca_loop_budget_and_tolerance :
  let r := the_loop in
  let n := it_count r in
  let iterate j := Nat.iter j (next_iterate K do_orth) Y0 in
  let diff j := convergence_diff (iterate j) (iterate (S j)) in
  n <= maxiter /\
  (n < maxiter <-> exists j, j + 1 < maxiter /\ slt (diff j) tol = true) /\
  (forall j, j + 1 < n -> slt (diff j) tol = false) /\
  (it_break r = true <-> 1 <= n /\ slt (diff (n - 1)) tol = true) /\
  Y = iterate n /\
  (1 <= n -> it_Yn r = Y) /\
  (forall A B : MatrixXd T,
     convergence_diff A B =
     sdiv (sum_upto (cols A) (fun j =>
             sum_upto (rows A) (fun i =>
               sq (ssub (coeff A i j) (coeff B i j)))))
          (of_int (Z.of_nat (rows A * cols A)))).
Proof.
  intros r n iterate diff.
  pose proof (subspace_loop_spec K tol do_orth maxiter
                (mkIter Y0 (uninitialized 0 0) 0 false)) as H.
  cbn zeta in H. cbn [it_count it_Y it_Yn it_break] in H.
  change (subspace_loop K tol do_orth maxiter
            (mkIter Y0 (uninitialized 0 0) 0 false)) with r in H.
  rewrite Nat.sub_0_r in H. change (it_count r) with n in H.
  destruct H as (_ & Hn & HY & H0 & HYn & Hd & Hb & He).
  assert (Hbreak : it_break r = true -> 1 <= n).
  { intros Hbr. destruct (Nat.eq_dec n 0) as [E|E]; [|lia].
    rewrite (H0 E) in Hbr. discriminate. }
  split; [exact Hn|].
  split.
  { split.
    - intros Hlt. destruct (He Hlt) as (H1 & Hbr).
      exists (n - 1). split; [lia|].
      unfold diff, iterate. rewrite <- Hb by lia. exact Hbr.
    - intros (j & Hj & Hconv).
      destruct (Nat.lt_ge_cases n maxiter) as [|Hge]; auto.
      unfold diff, iterate in Hconv. rewrite Hd in Hconv by lia. discriminate. }
  split; [exact Hd|].
  split.
  { split.
    - intros Hbr. split; [now apply Hbreak|].
      unfold diff, iterate. rewrite <- Hb by now apply Hbreak. exact Hbr.
    - intros (H1 & Hconv). rewrite Hb by exact H1. exact Hconv. }
  split; [exact HY|].
  split; [exact HYn|].
  reflexivity.
Qed.

(** C5: when the kernel is not the linear kernel, RandomPCA::pca runs
    as it does with [transpose = false], whatever [transpose] is passed:
    [X] goes through [standardize], [N] is the row count of [X], and
    [U] and [P] are assembled as [Q * Et] and [U * diag(d)]. *)
Theorem pca_nonlinear_kernel_ignores_transpose :
  kernel <> KERNEL_LINEAR ->
  result =
    pca self X0 method false ndim nextra maxiter tol seed kernel
      sigma rbf_center rbf_sample save_kernel do_orth do_loadings /\
  pca_transpose transpose kernel = false /\
  (X, pca_X_meansd self X0 transpose kernel) =
    (if negb (m_stand_method self =? STANDARDIZE_NONE)%Z
     then standardize X0 (m_stand_method self)
     else (X0, m_X_meansd self)) /\
  pca_N self X0 transpose kernel = u32_of_nat (rows X) /\
  m_U assembled = mmul Q Et /\
  m_P assembled = mmul (mmul Q Et) (asDiagonal d_scaled).
Proof.
  intros Hk. apply Z.eqb_neq in Hk.
  assert (Ht : forall t, pca_transpose t kernel = false).
  { intros t. unfold pca_transpose. now rewrite Hk. }
  assert (Hs : forall t, pca_standardized self X0 t kernel =
                         pca_standardized self X0 false kernel).
  { intros t. unfold pca_standardized. now rewrite !Ht. }
  repeat split.
  - unfold pca, pca_assembled, pca_Dinv, pca_d, pca_Et, pca_decomposition,
      pca_B, pca_Q, pca_Y, pca_loop, pca_trace, pca_K, pca_sigma, pca_Y0,
      pca_Nm1, pca_N, pca_X_meansd, pca_X.
    rewrite !Ht, (Hs transpose). reflexivity.
  - apply Ht.
  - unfold pca_X, pca_X_meansd, pca_standardized. rewrite Ht.
    destruct (negb _); [destruct (standardize _ _)|]; reflexivity.
  - unfold pca_N, pca_X, pca_standardized. rewrite Ht.
    destruct (negb _); [destruct (standardize _ _)|]; reflexivity.
  - unfold pca_assembled. rewrite Ht. reflexivity.
  - unfold pca_assembled. rewrite Ht. reflexivity.
Qed.

Lemma pca_Y_cols : cols Y = pca_total_dim ndim nextra.
Proof.
  unfold pca_Y, pca_loop. rewrite subspace_loop_cols. cbn [it_Y].
  unfold pca_Y0. rewrite normalize_cols. cbn [mmul cols].
  apply make_gaussian_cols.
Qed.

(** C6: at the end of RandomPCA::pca the members [P], [U] and [V] have
    [ndim] columns and [d] has [ndim] entries, and these are the first
    [ndim] columns and entries of what was assembled; in particular
    with the Eigen method, where [Q * Et] has [ndim + nextra] columns,
    the [nextra] oversampling columns are dropped. *)
Theorem pca_truncates_results :
  let a := assembled in
  let r := out_self result in
  (cols (m_P r) = ndim /\ cols (m_U r) = ndim /\ cols (m_V r) = ndim /\
   length (m_d r) = ndim) /\
  (rows (m_P r) = rows (m_P a) /\ rows (m_U r) = rows (m_U a) /\
   rows (m_V r) = rows (m_V a)) /\
  (forall i j, j < ndim ->
     (j < cols (m_P a) -> coeff (m_P r) i j = coeff (m_P a) i j) /\
     (j < cols (m_U a) -> coeff (m_U r) i j = coeff (m_U a) i j) /\
     (j < cols (m_V a) -> coeff (m_V r) i j = coeff (m_V a) i j)) /\
  (forall j, j < ndim -> j < length (m_d a) ->
     nth j (m_d r) indet = nth j (m_d a) indet) /\
  (ndim <= length (m_d a) -> m_d r = firstn ndim (m_d a)) /\
  (method = METHOD_EIGEN -> method <> METHOD_SVD ->
   cols (mmul Q Et) = pca_total_dim ndim nextra /\
   ((Z.of_nat ndim + Z.of_nat nextra < 2 ^ 32)%Z ->
    pca_total_dim ndim nextra = ndim + nextra)).
Proof.
  intros a r. unfold r, pca. cbn [out_self]. fold a.
  unfold pca_truncate.
  cbn [m_P m_U m_V m_d conservativeResize_cols rows cols coeff].
  split; [|split; [|split; [|split; [|split]]]].
  - repeat split; auto. apply conservativeResize_vec_length.
  - repeat split; auto.
  - intros i j Hj. repeat split; intros Hc;
      apply Nat.ltb_lt in Hc; now rewrite Hc.
  - intros j Hj Hl. now apply conservativeResize_vec_nth.
  - apply conservativeResize_vec_firstn.
  - intros Heig Hsvd. split.
    + cbn [mmul cols]. unfold pca_Et, pca_decomposition, pca_small.
      apply Z.eqb_neq in Hsvd. rewrite Hsvd.
      apply Z.eqb_eq in Heig. rewrite Heig.
      destruct (SelfAdjointEigenSolver _) as [eval evec].
      cbn [fst].
      match goal with
      | |- cols (rv_U (reverse_loop ?e ?v ?i ?st)) = _ =>
          pose proof (reverse_loop_cols e v i st) as Hc
      end.
      rewrite Hc. cbn [rv_U uninitialized cols mmul rows mtranspose].
      unfold pca_B. cbn [mmul rows mtranspose cols].
      unfold pca_Q. cbn [conservativeResize_cols cols].
      apply pca_Y_cols.
    + intros Hsmall. unfold pca_total_dim. rewrite u32_small by lia. lia.
Qed.

End PipelineFacts.

Lemma pca_nonlinear_kernel_ignores_transpose_witness :
  pca fresh_pca X013 1 true 1 1 0 0%R 7 2 1%R false 2 false false false =
    pca fresh_pca X013 1 false 1 1 0 0%R 7 2 1%R false 2 false false false /\
  pca_transpose true 2 = false /\
  (pca_X fresh_pca X013 true 2, pca_X_meansd fresh_pca X013 true 2) =
    (if negb (m_stand_method fresh_pca =? STANDARDIZE_NONE)%Z
     then standardize X013 (m_stand_method fresh_pca)
     else (X013, m_X_meansd fresh_pca)) /\
  pca_N fresh_pca X013 true 2 = u32_of_nat (rows (pca_X fresh_pca X013 true 2)) /\
  m_U (pca_assembled fresh_pca X013 1 true 1 1 0 0%R 7 2 1%R false 2 false false) =
    mmul (pca_Q fresh_pca X013 true 1 1 0 0%R 7 2 1%R false 2 false)
         (pca_Et fresh_pca X013 1 true 1 1 0 0%R 7 2 1%R false 2 false) /\
  m_P (pca_assembled fresh_pca X013 1 true 1 1 0 0%R 7 2 1%R false 2 false false) =
    mmul (mmul (pca_Q fresh_pca X013 true 1 1 0 0%R 7 2 1%R false 2 false)
               (pca_Et fresh_pca X013 1 true 1 1 0 0%R 7 2 1%R false 2 false))
         (asDiagonal (pca_d fresh_pca X013 1 true 1 1 0 0%R 7 2 1%R false 2 false)).
Proof.
  apply (pca_nonlinear_kernel_ignores_transpose (MC := demo_macros)
           (EL := demo_eigen) (BR := demo_random) (SS := demo_sort)
           (UT := demo_util)).
  discriminate.
Defined.

(** ** RandomPCA::pca in exact arithmetic *)

Section PipelineReal.

Local Open Scope R_scope.

Context {MC : Macros} {EL : EigenLib R} {BR : BoostRandom R}.
Context {SS : StdSort R} {UT : Util R}.

(** [uniform_real_distribution<>(0, 1)] draws from [[0, 1)], and
    [std::sort] leaves the array sorted, with the same entries. *)
Hypothesis draw_range : forall g, 0 <= fst (uniform01 g) < 1.
Hypothesis std_sort_perm : forall l, Permutation (std_sort l) l.
Hypothesis std_sort_sorted : forall l, StronglySorted Rle (std_sort l).

Variable self : RandomPCA R.
Variable X0 : MatrixXd R.
Variable transpose : bool.
Variable seed : Z.
Variable kernel : Z.
Variable rbf_center : bool.
Variable rbf_sample : nat.

Local Abbreviation X := (pca_X self X0 transpose kernel).
Local Abbreviation N := (pca_N self X0 transpose kernel).

(** C3, as amended: in exact arithmetic, with the RBF kernel and a
    configured bandwidth of zero, for [1 <= n = min(rbf_sample, N)] and
    [n * n] within unsigned range, the bandwidth the pipeline uses is
    the square root of the value of median_dist, and that value is the
    median of the [n * n] entries of the matrix of squared Euclidean
    distances between the sampled rows (the first [n] rows of [X]):
    one entry for every ordered pair of rows, so that the zero distance
    of each row to itself is among them and each two distinct rows
    count twice.  The median is the middle element of the sorted
    entries when their count is odd, the average of the two middle
    elements when it is even. *)
Theorem pca_sigma_is_sqrt_of_median :
  kernel = KERNEL_RBF -> KERNEL_RBF <> KERNEL_LINEAR ->
  let n := Nat.min rbf_sample N in
  (1 <= n)%nat -> (Z.of_nat (n * n) < 2 ^ 32)%Z ->
  let X2 := fst (median_sample X n seed) in
  let s := std_sort (pairwise_sq_dists X2 n) in
  (rows X2 = n /\ cols X2 = cols X /\
   forall r c, (r < n)%nat -> (c < cols X)%nat -> coeff X2 r c = coeff X r c) /\
  (Permutation s (pairwise_sq_dists X2 n) /\ StronglySorted Rle s) /\
  median_dist X n seed = median_of_sorted s /\
  median_of_sorted s =
    (if Nat.odd (n * n) then nth (n * n / 2) s 0
     else (nth (n * n / 2 - 1) s 0 + nth (n * n / 2) s 0) / 2) /\
  pca_sigma self X0 transpose seed kernel 0 rbf_sample = sqrt (median_of_sorted s) /\
  pca_K self X0 transpose seed kernel 0 rbf_center rbf_sample =
    rbf_kernel X (sqrt (median_of_sorted s)) rbf_center.
Proof.
  intros Hk Hmac n Hn H32 X2 s.
  assert (Hnl : kernel <> KERNEL_LINEAR) by congruence.
  assert (HN : N = u32_of_nat (rows X)).
  { unfold pca_N, pca_X, pca_standardized, pca_transpose.
    apply Z.eqb_neq in Hnl. rewrite Hnl. cbn [negb].
    destruct (negb _); [destruct (standardize _ _)|]; reflexivity. }
  assert (Hrows : (n <= rows X)%nat).
  { unfold n. rewrite HN. pose proof (u32_of_nat_le (rows X)). lia. }
  assert (Hn32 : (Z.of_nat n < 2 ^ 32)%Z) by nia.
  assert (Hmed : median_dist X n seed = median_of_sorted s)
    by (apply median_dist_value; assumption).
  assert (Hsig : pca_sigma self X0 transpose seed kernel 0 rbf_sample =
                 sqrt (median_of_sorted s)).
  { unfold pca_sigma. cbn [sequal s0 ssqrt R_scalar].
    destruct (Req_dec_T 0 0) as [_|Hne]; [|exfalso; now apply Hne].
    fold n. now rewrite Hmed. }
  split; [apply median_sample_rows; assumption|].
  split; [split; [apply std_sort_perm | apply std_sort_sorted]|].
  split; [exact Hmed|].
  split.
  { unfold median_of_sorted, s.
    rewrite (Permutation_length (std_sort_perm _)), pairwise_sq_dists_length.
    reflexivity. }
  split; [exact Hsig|].
  unfold pca_K. apply Z.eqb_eq in Hk. rewrite Hk. now rewrite Hsig.
Qed.

End PipelineReal.

Lemma pca_sigma_is_sqrt_of_median_witness :
  let X := pca_X fresh_pca X013 false 2 in
  let X2 := fst (median_sample X 2 7) in
  let s := std_sort (pairwise_sq_dists X2 2) in
  (rows X2 = 2 /\ cols X2 = cols X /\
   forall r c, r < 2 -> c < cols X -> coeff X2 r c = coeff X r c) /\
  (Permutation s (pairwise_sq_dists X2 2) /\ StronglySorted Rle s) /\
  median_dist X 2 7 = median_of_sorted s /\
  median_of_sorted s =
    (if Nat.odd (2 * 2) then nth (2 * 2 / 2) s 0
     else (nth (2 * 2 / 2 - 1) s 0 + nth (2 * 2 / 2) s 0) / 2)%R /\
  pca_sigma fresh_pca X013 false 7 2 0%R 2 = sqrt (median_of_sorted s) /\
  pca_K fresh_pca X013 false 7 2 0%R false 2 =
    rbf_kernel X (sqrt (median_of_sorted s)) false.
Proof.
  refine (@pca_sigma_is_sqrt_of_median demo_macros demo_random demo_sort
            demo_util _ _ _ fresh_pca X013 false 7%Z 2%Z false 2 _ _ _ _).
  - intros g. cbn. lra.
  - apply insertion_sort_perm.
  - apply insertion_sort_sorted.
  - reflexivity.
  - discriminate.
  - vm_compute. lia.
  - vm_compute. reflexivity.
Defined.

(** C3 as stated fails: the median is taken over the whole distance
    matrix, not over the distances between the pairs of sampled rows.
    For the two rows [(0)] and [(1)] the only pairwise squared distance
    is [1], whose median is [1]; median_dist sorts the four entries
    [0, 1, 1, 0] of the matrix and returns [1/2], and the bandwidth is
    [sqrt (1/2)], not [sqrt 1]. *)
Lemma median_dist_includes_self_distances :
  let X2 := fst (median_sample X01 2 7) in
  distinct_pair_sq_dists X2 2 = [1%R] /\
  median_of_sorted (std_sort (distinct_pair_sq_dists X2 2)) = 1%R /\
  pairwise_sq_dists X2 2 = [0; 1; 1; 0]%R /\
  median_dist X01 2 7 = (1 / 2)%R /\
  pca_sigma fresh_pca X01 false 7 2 0%R 2 = sqrt (1 / 2) /\
  pca_sigma fresh_pca X01 false 7 2 0%R 2 <>
    sqrt (median_of_sorted (std_sort (distinct_pair_sq_dists X2 2))).
Proof.
  change (fst (median_sample X01 2 7)) with X01. cbv zeta.
  assert (Hd : forall i j, (i < 2)%nat -> (j < 2)%nat ->
            sq_euclidean_dist X01 i j = if i =? j then 0%R else 1%R).
  { intros i j Hi Hj. unfold sq_euclidean_dist.
    cbn [X01 cols coeff sum_upto sadd s0 R_scalar].
    destruct i as [|[|i]]; destruct j as [|[|j]]; try lia; cbn [Nat.eqb]; ring. }
  assert (H1 : distinct_pair_sq_dists X01 2 = [1%R]).
  { unfold distinct_pair_sq_dists. cbn [seq flat_map map app].
    now rewrite Hd by lia. }
  assert (H2 : median_of_sorted (std_sort (distinct_pair_sq_dists X01 2)) = 1%R).
  { rewrite H1. reflexivity. }
  assert (H3 : pairwise_sq_dists X01 2 = [0; 1; 1; 0]%R).
  { unfold pairwise_sq_dists. cbn [seq flat_map map app].
    now rewrite !Hd by lia. }
  assert (H4 : median_dist X01 2 7 = (1 / 2)%R).
  { rewrite (@median_dist_value demo_random demo_sort) ;
      [ | intros g; cbn; lra | apply insertion_sort_perm | lia
        | cbn; lia | cbn; lia ].
    change (fst (median_sample X01 2 7)) with X01. rewrite H3.
    cbn [std_sort demo_sort insertion_sort insert_sorted].
    repeat match goal with
           | |- context [Rle_dec ?a ?b] =>
               destruct (Rle_dec a b); try lra;
               cbn [insert_sorted]
           end.
    unfold median_of_sorted. cbn [length Nat.odd Nat.even Nat.div Nat.divmod
                                   fst Nat.sub nth negb].
    lra. }
  assert (H5 : pca_sigma fresh_pca X01 false 7 2 0%R 2 = sqrt (1 / 2)).
  { unfold pca_sigma. cbn [sequal s0 ssqrt R_scalar].
    destruct (Req_dec_T 0 0) as [_|Hne]; [|exfalso; now apply Hne].
    change (Nat.min 2 (pca_N fresh_pca X01 false 2)) with 2.
    change (pca_X fresh_pca X01 false 2) with X01.
    now rewrite H4. }
  repeat split; try assumption.
  rewrite H5, H2. intros E.
  apply sqrt_inj in E; lra.
Qed.

(** In binary64 the value of median_dist can be negative, and its
    square root NaN: for the rows [(201326594)] and [(201326595)], at
    squared distance [1], the sum of the rounded squared norms is [16]
    below the rounded double product, the entries of the distance
    matrix are [0, -16, -16, 0] and the value returned is [-8]. *)
Example median_dist_negative_binary64 :
  mat_data (sq_dist_matrix Xclose64 2) =
    map float_of_Z [0; -16; -16; 0]%Z /\
  median_dist (BR := random64) (SS := sort64) Xclose64 2 7 = float_of_Z (-8) /\
  ssqrt (median_dist (BR := random64) (SS := sort64) Xclose64 2 7) =
    PrimFloat.nan.
Proof. vm_compute. repeat split; reflexivity. Qed.

(** ** Sums and orthogonal matrices over the reals *)

Section RealSumAlgebra.

Local Open Scope R_scope.

Lemma sum_upto_plus (n : nat) (f g : nat -> R) :
  sum_upto n (fun i => f i + g i) = sum_upto n f + sum_upto n g.
Proof.
  induction n as [|n IH]; simpl.
  - ring.
  - rewrite IH. ring.
Qed.

Lemma sum_upto_scale_l (n : nat) (f : nat -> R) (c : R) :
  sum_upto n (fun i => c * f i) = c * sum_upto n f.
Proof.
  induction n as [|n IH]; simpl.
  - ring.
  - rewrite IH. ring.
Qed.

Lemma sum_upto_zero (n : nat) : sum_upto n (fun _ => 0) = 0.
Proof.
  induction n as [|n IH]; simpl; [reflexivity|]. rewrite IH. ring.
Qed.

Lemma sum_upto_swap (n m : nat) (f : nat -> nat -> R) :
  sum_upto n (fun i => sum_upto m (fun j => f i j)) =
  sum_upto m (fun j => sum_upto n (fun i => f i j)).
Proof.
  induction n as [|n IH]; simpl.
  - now rewrite sum_upto_zero.
  - rewrite IH. now rewrite <- sum_upto_plus.
Qed.

Lemma sum_upto_mul (n m : nat) (f g : nat -> R) :
  sum_upto n f * sum_upto m g =
  sum_upto n (fun i => sum_upto m (fun j => f i * g j)).
Proof.
  induction n as [|n IH]; simpl.
  - ring.
  - rewrite <- IH, sum_upto_scale_l. ring.
Qed.

Lemma sum_upto_delta (n a : nat) (f : nat -> R) :
  (a < n)%nat ->
  sum_upto n (fun i => f i * (if a =? i then 1 else 0)) = f a.
Proof.
  induction n as [|n IH]; intros Ha; [lia|]. simpl.
  destruct (Nat.eq_dec a n) as [->|Hne].
  - rewrite Nat.eqb_refl.
    rewrite sum_upto_ext with (g := fun _ => 0).
    + rewrite sum_upto_zero. ring.
    + intros i Hi.
      replace (n =? i)%nat with false by (symmetry; apply Nat.eqb_neq; lia).
      ring.
  - replace (a =? n)%nat with false by (symmetry; now apply Nat.eqb_neq).
    rewrite IH by lia. ring.
Qed.

Lemma sum_upto_le (n : nat) (f g : nat -> R) :
  (forall i, (i < n)%nat -> f i <= g i) -> sum_upto n f <= sum_upto n g.
Proof.
  induction n as [|n IH]; intros H; simpl.
  - lra.
  - specialize (IH (fun i Hi => H i (Nat.lt_lt_succ_r _ _ Hi))).
    specialize (H n (Nat.lt_succ_diag_r n)). lra.
Qed.

Lemma sum_upto_le_more (n m : nat) (f : nat -> R) :
  (n <= m)%nat -> (forall i, 0 <= f i) -> sum_upto n f <= sum_upto m f.
Proof.
  intros Hnm Hf. induction Hnm as [|m Hnm IH]; simpl.
  - lra.
  - specialize (Hf m). lra.
Qed.

(** A sum restricted to the indices below [r]. *)
Lemma sum_upto_below (k r : nat) (f : nat -> R) :
  sum_upto k (fun j => if (j <? r)%nat then f j else 0) =
  sum_upto (Nat.min k r) f.
Proof.
  induction k as [|k IH]; cbn [sum_upto sadd s0 R_scalar]; [reflexivity|].
  rewrite IH. destruct (k <? r)%nat eqn:E.
  - apply Nat.ltb_lt in E.
    replace (Nat.min (S k) r) with (S (Nat.min k r)) by lia.
    cbn [sum_upto sadd s0 R_scalar].
    replace (Nat.min k r) with k by lia. reflexivity.
  - apply Nat.ltb_ge in E.
    replace (Nat.min (S k) r) with (Nat.min k r) by lia. ring.
Qed.

(** Multiplication by the transpose of a matrix with orthonormal rows
    preserves the squared norm of a vector. *)
Lemma orthonormal_rows_isometry (A : MatrixXd R) (r m : nat) (x : nat -> R) :
  orthonormal_rows A r m ->
  sum_upto m (fun j =>
    sum_upto r (fun i => coeff A i j * x i) *
    sum_upto r (fun i => coeff A i j * x i)) =
  sum_upto r (fun i => x i * x i).
Proof.
  intros Horth.
  rewrite sum_upto_ext with
    (g := fun j => sum_upto r (fun i => sum_upto r (fun i' =>
            x i * x i' * (coeff A i j * coeff A i' j))));
    cycle 1.
  { intros j _. rewrite sum_upto_mul.
    apply sum_upto_ext. intros i _.
    apply sum_upto_ext. intros i' _. ring. }
  rewrite sum_upto_swap.
  apply sum_upto_ext. intros i Hi.
  rewrite sum_upto_swap.
  rewrite sum_upto_ext with
    (g := fun i' => (x i * x i') * (if i =? i' then 1 else 0)); cycle 1.
  { intros i' Hi'. rewrite sum_upto_scale_l.
    now rewrite Horth. }
  now rewrite sum_upto_delta with (f := fun i' => x i * x i').
Qed.

Lemma rsum_fold_left (l : list R) (a : R) :
  fold_left Rplus l a = a + rsum l.
Proof.
  revert a. induction l as [|x l IH]; intros a; simpl.
  - ring.
  - rewrite IH. ring.
Qed.

Lemma vsum_rsum (l : VectorXd R) : vsum l = rsum l.
Proof. unfold vsum. cbn [sadd s0 R_scalar]. rewrite rsum_fold_left. ring. Qed.

Lemma rsum_app (l l' : list R) : rsum (l ++ l') = rsum l + rsum l'.
Proof.
  induction l as [|x l IH]; simpl.
  - ring.
  - rewrite IH. ring.
Qed.

Lemma rsum_rev (l : list R) : rsum (rev l) = rsum l.
Proof.
  induction l as [|x l IH]; simpl; [reflexivity|].
  rewrite rsum_app, IH. simpl. ring.
Qed.

Lemma rsum_nonneg (l : list R) : Forall (fun x => 0 <= x) l -> 0 <= rsum l.
Proof.
  induction 1 as [|x l Hx _ IH]; simpl; lra.
Qed.

Lemma rsum_map_div (l : list R) (c : R) :
  rsum (map (fun x => x / c) l) = rsum l / c.
Proof.
  induction l as [|x l IH]; simpl.
  - unfold Rdiv. ring.
  - rewrite IH. unfold Rdiv. ring.
Qed.

Lemma rsum_firstn_le (l : list R) (n : nat) :
  Forall (fun x => 0 <= x) l -> rsum (firstn n l) <= rsum l.
Proof.
  intros H. rewrite <- (firstn_skipn n l) at 2. rewrite rsum_app.
  assert (0 <= rsum (skipn n l)).
  { apply rsum_nonneg. rewrite <- (firstn_skipn n l) in H.
    now apply Forall_app in H. }
  lra.
Qed.

Lemma rsum_In_le (l : list R) (x : R) :
  Forall (fun y => 0 <= y) l -> In x l -> x <= rsum l.
Proof.
  induction 1 as [|y l Hy Hl IH]; intros Hin; simpl in *; [tauto|].
  pose proof (rsum_nonneg Hl).
  destruct Hin as [->|Hin]; [lra|]. specialize (IH Hin). lra.
Qed.

Lemma rsum_map_seq (f : nat -> R) (n : nat) :
  rsum (map f (seq 0 n)) = sum_upto n f.
Proof.
  induction n as [|n IH]; [reflexivity|].
  rewrite seq_S, map_app, rsum_app, IH. simpl. ring.
Qed.

Lemma rsum_nth (l : list R) :
  rsum l = sum_upto (length l) (fun i => nth i l 0).
Proof.
  rewrite <- rsum_map_seq. f_equal.
  apply nth_ext with (d := 0) (d' := 0).
  - now rewrite length_map, length_seq.
  - intros i Hi. now rewrite nth_map_seq.
Qed.

End RealSumAlgebra.

(** ** The proportion of variance explained *)

Lemma Rdiv_nonneg_pos (a b : R) : (0 <= a -> 0 < b -> 0 <= a / b)%R.
Proof.
  intros Ha Hb. unfold Rdiv. apply Rmult_le_pos; [exact Ha|].
  left. now apply Rinv_0_lt_compat.
Qed.

Lemma Rdiv_le_one (a b : R) : (a <= b -> 0 < b -> a / b <= 1)%R.
Proof.
  intros Hab Hb. apply Rmult_le_reg_r with b; [exact Hb|].
  unfold Rdiv. rewrite Rmult_assoc, Rinv_l by lra. lra.
Qed.

Section DecompositionFacts.

Local Open Scope R_scope.

Lemma sum_upto_delta_col (n a : nat) (f : nat -> R) :
  sum_upto n (fun l => f l * (if l =? a then 1 else 0)) =
  if (a <? n)%nat then f a else 0.
Proof.
  destruct (a <? n)%nat eqn:E.
  - apply Nat.ltb_lt in E. rewrite <- (sum_upto_delta f E).
    apply sum_upto_ext. intros l _. now rewrite Nat.eqb_sym.
  - apply Nat.ltb_ge in E.
    rewrite sum_upto_ext with (g := fun _ => 0).
    + apply sum_upto_zero.
    + intros l Hl.
      replace (l =? a)%nat with false by (symmetry; apply Nat.eqb_neq; lia).
      ring.
Qed.

(** The squared norm of [B * B^T]'s eigenvalues: they are non-negative
    and add up to the squared Frobenius norm of [B]. *)
Lemma eigen_ok_sum (B : MatrixXd R) (eval : VectorXd R) (E : MatrixXd R) :
  eigen_ok (mmul B (mtranspose B)) (eval, E) ->
  Forall (fun x => 0 <= x) eval /\ rsum eval = frob2 B.
Proof.
  unfold eigen_ok. cbn [mmul rows]. set (k := rows B).
  intros (Hlen & Horth & Hdiag).
  assert (Hval : forall i, (i < k)%nat ->
            nth i eval 0 =
            sum_upto (cols B) (fun c =>
              sum_upto k (fun a => coeff E a i * coeff B a c) *
              sum_upto k (fun a => coeff E a i * coeff B a c))).
  { intros i Hi. rewrite (Hdiag i Hi).
    cbn [mmul mtranspose coeff cols sadd smul s0 R_scalar].
    symmetry.
    rewrite sum_upto_ext with (n := cols B)
      (g := fun c => sum_upto k (fun a => sum_upto k (fun b =>
              coeff E a i * (coeff B a c * coeff B b c) * coeff E b i)));
      cycle 1.
    { intros c _. rewrite sum_upto_mul.
      apply sum_upto_ext. intros a _.
      apply sum_upto_ext. intros b _. ring. }
    rewrite sum_upto_swap.
    apply sum_upto_ext. intros a _.
    rewrite sum_upto_swap.
    apply sum_upto_ext. intros b _.
    rewrite sum_upto_scale_r, sum_upto_scale_l.
    reflexivity. }
  split.
  - apply Forall_forall. intros x Hx.
    destruct (In_nth _ _ 0 Hx) as (i & Hi & <-).
    rewrite Hval by lia.
    apply sum_upto_nonneg. intros c _. nra.
  - rewrite rsum_nth, Hlen.
    rewrite sum_upto_ext with
      (g := fun i => sum_upto (cols B) (fun c =>
              sum_upto k (fun a => coeff E a i * coeff B a c) *
              sum_upto k (fun a => coeff E a i * coeff B a c)))
      by exact Hval.
    rewrite (sum_upto_swap k (cols B)).
    unfold frob2. rewrite (sum_upto_swap (rows B) (cols B)). fold k.
    apply sum_upto_ext. intros c _.
    apply (orthonormal_rows_isometry (fun a => coeff B a c) Horth).
Qed.

(** The squared singular values of [B] are non-negative and add up to
    the squared Frobenius norm of [B]. *)
Lemma svd_ok_sum (B U V : MatrixXd R) (sv : VectorXd R) :
  svd_ok B (U, sv, V) ->
  Forall (fun x => 0 <= x) (map sq sv) /\ rsum (map sq sv) = frob2 B.
Proof.
  unfold svd_ok. set (q := length sv). intros (HB & HU & HV).
  split.
  - apply Forall_forall. intros x Hx. apply in_map_iff in Hx.
    destruct Hx as (y & <- & _). unfold sq. cbn. nra.
  - unfold frob2.
    rewrite sum_upto_ext with
      (g := fun a => sum_upto q (fun i =>
              (nth i sv 0 * nth i sv 0) * (coeff U a i * coeff U a i)));
      cycle 1.
    { intros a Ha.
      rewrite sum_upto_ext with
        (g := fun c =>
           sum_upto q (fun i => coeff (mtranspose V) i c *
                                (coeff U a i * nth i sv 0)) *
           sum_upto q (fun i => coeff (mtranspose V) i c *
                                (coeff U a i * nth i sv 0))); cycle 1.
      { intros c Hc. rewrite (HB a c Ha Hc). cbn [mtranspose coeff].
        assert (E : sum_upto q (fun i => coeff U a i * nth i sv 0 * coeff V c i) =
                    sum_upto q (fun i => coeff V c i * (coeff U a i * nth i sv 0))).
        { apply sum_upto_ext. intros i _. ring. }
        now rewrite E. }
      rewrite (orthonormal_rows_isometry
                 (fun i => coeff U a i * nth i sv 0) HV).
      apply sum_upto_ext. intros i _. ring. }
    rewrite (sum_upto_swap (rows B) q).
    rewrite sum_upto_ext with (g := fun i => nth i sv 0 * nth i sv 0); cycle 1.
    { intros i Hi. rewrite sum_upto_scale_l.
      pose proof (HU i i Hi Hi) as H1. cbn [mtranspose coeff] in H1.
      rewrite H1, Nat.eqb_refl. ring. }
    rewrite rsum_nth, length_map. fold q.
    apply sum_upto_ext. intros i Hi.
    rewrite nth_indep with (d' := sq (T := R) 0)
      by (rewrite length_map; exact Hi).
    rewrite map_nth. reflexivity.
Qed.

Lemma sum_upto_ones (n : nat) : sum_upto n (fun _ => 1) = INR n.
Proof.
  induction n as [|n IH]; [reflexivity|].
  rewrite S_INR. cbn [sum_upto sadd R_scalar]. now rewrite IH.
Qed.

Lemma sq_euclidean_dist_self (X : MatrixXd R) (i : nat) :
  sq_euclidean_dist X i i = 0.
Proof.
  unfold sq_euclidean_dist.
  rewrite sum_upto_ext with (g := fun _ => 0).
  - apply sum_upto_zero.
  - intros c _. ring.
Qed.

(** Without centering, the diagonal of the RBF kernel is all ones. *)
Lemma rbf_kernel_trace (X : MatrixXd R) (sigma : R) :
  diag_sum (rbf_kernel X sigma false) =
  INR (Nat.min (rows X) (u32_of_nat (rows X))).
Proof.
  unfold rbf_kernel, diag_sum. cbn [rows cols coeff mdiv].
  rewrite sq_dist_matrix_rows, sq_dist_matrix_cols.
  rewrite <- sum_upto_ones. apply sum_upto_ext. intros i Hi.
  rewrite sq_dist_matrix_coeff by lia.
  rewrite sq_euclidean_dist_self.
  cbn [sexp R_exp sdiv R_scalar].
  unfold Rdiv. rewrite Rmult_0_l. apply exp_0.
Qed.

Lemma Identity_orthonormal (n : nat) : orthonormal_rows (Identity (T := R) n n) n n.
Proof.
  intros i i' Hi Hi'. cbn [Identity coeff s0 s1 R_scalar].
  now rewrite (sum_upto_delta (fun j => if i =? j then 1 else 0) Hi').
Qed.

Lemma qr_identity_ok (M : MatrixXd R) : householderQ_ok (qr_identity M) (rows M).
Proof.
  unfold householderQ_ok, qr_identity. cbn [Identity rows cols].
  repeat split. apply Identity_orthonormal.
Qed.

Lemma eig_diag_ok_1x1 (S : MatrixXd R) : rows S = 1%nat -> eigen_ok S (eig_diag S).
Proof.
  intros H1. unfold eigen_ok, eig_diag. rewrite H1.
  split; [reflexivity|]. split; [apply Identity_orthonormal|].
  intros i Hi. assert (i = 0)%nat by lia. subst i.
  cbn. ring.
Qed.

End DecompositionFacts.

Section PveBounds.

Local Open Scope R_scope.

Context {MC : Macros} {EL : EigenLib R} {BR : BoostRandom R}.
Context {SS : StdSort R} {UT : Util R}.

Variable self : RandomPCA R.
Variable X0 : MatrixXd R.
Variable method : Z.
Variable transpose : bool.
Variables ndim nextra maxiter : nat.
Variable tol : R.
Variable seed : Z.
Variable kernel : Z.
Variable sigma : R.
Variable rbf_center : bool.
Variable rbf_sample : nat.
Variables save_kernel do_orth do_loadings : bool.

Local Abbreviation X := (pca_X self X0 transpose kernel).
Local Abbreviation Nm1 := (pca_Nm1 self X0 transpose kernel).
Local Abbreviation trace :=
  (pca_trace self X0 transpose seed kernel sigma rbf_center rbf_sample).
Local Abbreviation Y :=
  (pca_Y self X0 transpose ndim nextra maxiter tol seed kernel sigma
     rbf_center rbf_sample do_orth).
Local Abbreviation Q :=
  (pca_Q self X0 transpose ndim nextra maxiter tol seed kernel sigma
     rbf_center rbf_sample do_orth).
Local Abbreviation B :=
  (pca_B self X0 transpose ndim nextra maxiter tol seed kernel sigma
     rbf_center rbf_sample do_orth).
Local Abbreviation decomposition :=
  (pca_decomposition self X0 method transpose ndim nextra maxiter tol seed
     kernel sigma rbf_center rbf_sample do_orth).
Local Abbreviation result :=
  (pca self X0 method transpose ndim nextra maxiter tol seed kernel
     sigma rbf_center rbf_sample save_kernel do_orth do_loadings).

(** The trace of the linear kernel. *)
Lemma pca_trace_linear :
  kernel <> KERNEL_RBF -> trace = frob2 X / Nm1.
Proof.
  intros Hk. unfold pca_trace, pca_K.
  apply Z.eqb_neq in Hk. rewrite Hk.
  unfold diag_sum, frob2. cbn [mdiv mmul mtranspose rows cols coeff].
  rewrite Nat.min_id.
  cbn [sdiv smul R_scalar]. unfold Rdiv.
  now rewrite sum_upto_scale_r.
Qed.

(** The entries of [Q]: the first columns of the Householder factor. *)
Lemma pca_Q_coeff (i j : nat) :
  householderQ_ok (householderQ Y) (rows X) ->
  (j < cols Y)%nat ->
  coeff Q i j = if (j <? rows X)%nat then coeff (householderQ Y) i j else 0.
Proof.
  intros (Hr & Hc & _) Hj. unfold pca_Q.
  cbn [conservativeResize_cols mmul Identity coeff cols rows].
  apply Nat.ltb_lt in Hj. rewrite Hj. rewrite Hc.
  cbn [smul s0 s1 R_scalar].
  apply sum_upto_delta_col.
Qed.

(** The projection does not increase the squared Frobenius norm. *)
Lemma pca_B_frob2_le :
  householderQ_ok (householderQ Y) (rows X) -> frob2 B <= frob2 X.
Proof.
  intros HQ. pose proof HQ as (Hr & Hc & Horth).
  assert (HrQ : rows Q = rows X)
    by (unfold pca_Q; cbn [conservativeResize_cols mmul rows]; exact Hr).
  set (H := householderQ Y) in *.
  set (g := fun j => sum_upto (cols X) (fun c =>
              sum_upto (rows X) (fun i => coeff H i j * coeff X i c) *
              sum_upto (rows X) (fun i => coeff H i j * coeff X i c))).
  assert (Hg : forall j, 0 <= g j).
  { intros j. unfold g. apply sum_upto_nonneg. intros c _. nra. }
  assert (HB : frob2 B = sum_upto (cols Y) (fun j =>
                 if (j <? rows X)%nat then g j else 0)).
  { unfold frob2, pca_B.
    cbn [mmul mtranspose rows cols conservativeResize_cols coeff].
    replace (cols Q) with (cols Y) by reflexivity.
    apply sum_upto_ext. intros j Hj.
    rewrite HrQ.
    destruct (j <? rows X)%nat eqn:E.
    - unfold g. apply sum_upto_ext. intros c _.
      cbn [sadd smul s0 R_scalar].
      assert (Es : sum_upto (rows X) (fun l => coeff Q l j * coeff X l c) =
                   sum_upto (rows X) (fun i => coeff H i j * coeff X i c)).
      { apply sum_upto_ext. intros i _.
        rewrite (pca_Q_coeff i HQ Hj), E. reflexivity. }
      now rewrite Es.
    - rewrite sum_upto_ext with (g := fun _ => 0).
      + apply sum_upto_zero.
      + intros c _. cbn [sadd smul s0 R_scalar].
        assert (Es : sum_upto (rows X) (fun l => coeff Q l j * coeff X l c) = 0).
        { rewrite sum_upto_ext with (g := fun _ => 0).
          - apply sum_upto_zero.
          - intros i _. rewrite (pca_Q_coeff i HQ Hj), E. ring. }
        rewrite Es. ring. }
  rewrite HB, sum_upto_below.
  apply Rle_trans with (sum_upto (rows X) g).
  - apply sum_upto_le_more; [lia | exact Hg].
  - unfold g. rewrite (sum_upto_swap (rows X) (cols X)).
    unfold frob2. rewrite (sum_upto_swap (rows X) (cols X)).
    apply Req_le. apply sum_upto_ext. intros c _.
    apply (orthonormal_rows_isometry (fun i => coeff X i c) Horth).
Qed.

(** What either decomposition returns under its contract: at least
    [ndim] values, none negative, adding up to the squared Frobenius
    norm of [B]. *)
Lemma pca_decomposition_sum :
  (Z.of_nat ndim + Z.of_nat nextra < 2 ^ 32)%Z ->
  (method = METHOD_SVD /\ svd_ok B (JacobiSVD B) /\
   (ndim <= length (snd (fst (JacobiSVD B))))%nat) \/
  (method <> METHOD_SVD /\ method = METHOD_EIGEN /\
   eigen_ok (mmul B (mtranspose B))
     (SelfAdjointEigenSolver (mmul B (mtranspose B)))) ->
  (ndim <= length (snd decomposition))%nat /\
  Forall (fun x => 0 <= x) (snd decomposition) /\
  rsum (snd decomposition) = frob2 B.
Proof.
  intros H32 [(Hm & Hsvd & Hlen) | (Hm & Hm' & Heig)].
  - unfold pca_decomposition, pca_small.
    apply Z.eqb_eq in Hm. rewrite Hm.
    destruct (JacobiSVD B) as [[mU sv] mV]. cbn [fst snd] in *.
    destruct (svd_ok_sum Hsvd) as (Hpos & Hsum).
    repeat split; auto. now rewrite length_map.
  - assert (Hk : rows B = (ndim + nextra)%nat).
    { unfold pca_B. cbn [mmul mtranspose rows].
      unfold pca_Q. cbn [conservativeResize_cols cols].
      rewrite pca_Y_cols. unfold pca_total_dim.
      rewrite u32_small by lia. lia. }
    pose proof Heig as Heig'.
    unfold eigen_ok in Heig'. cbn [mmul rows] in Heig'.
    destruct (SelfAdjointEigenSolver (mmul B (mtranspose B)))
      as [eval E] eqn:Hsolve.
    destruct Heig' as (Hlen & _).
    destruct (eigen_ok_sum Heig) as (Hpos & Hsum).
    destruct (pca_small_eigen_spec B (uninitialized 0 0) (m_d self) Hm Hm')
      as (Hsmall & _ & Hd & _).
    { rewrite Hsolve. cbn [fst]. rewrite Hlen, Hk. lia. }
    unfold pca_decomposition. rewrite Hsmall. cbn [snd]. rewrite Hd.
    rewrite Hsolve. cbn [fst].
    repeat split.
    + rewrite length_rev, Hlen, Hk. lia.
    + apply Forall_rev. exact Hpos.
    + rewrite rsum_rev. exact Hsum.
Qed.

(** C4, as amended: with the linear kernel (the kernel is not RBF), a
    positive [N - 1], a non-zero [X], an orthogonal Householder factor
    in the QR stage and a decomposition (SVD or Eigen) that meets its
    contract, in exact arithmetic every entry of [pve] lies in [[0, 1]]
    and the entries add up to at most [1]. *)
Theorem pca_linear_pve_bounds :
  kernel <> KERNEL_RBF ->
  (Z.of_nat ndim + Z.of_nat nextra < 2 ^ 32)%Z ->
  0 < Nm1 -> 0 < trace ->
  householderQ_ok (householderQ Y) (rows X) ->
  (method = METHOD_SVD /\ svd_ok B (JacobiSVD B) /\
   (ndim <= length (snd (fst (JacobiSVD B))))%nat) \/
  (method <> METHOD_SVD /\ method = METHOD_EIGEN /\
   eigen_ok (mmul B (mtranspose B))
     (SelfAdjointEigenSolver (mmul B (mtranspose B)))) ->
  let pve := m_pve (out_self result) in
  length pve = ndim /\
  (forall i, (i < ndim)%nat -> 0 <= nth i pve 0 <= 1) /\
  vsum pve <= 1.
Proof.
  intros Hk H32 Hc Ht HQ Hdec pve.
  destruct (pca_decomposition_sum H32 Hdec) as (Hlen & Hpos & Hsum).
  pose proof (pca_B_frob2_le HQ) as HB.
  pose proof (pca_trace_linear Hk) as Htr.
  set (d0 := snd decomposition) in *.
  set (F := frob2 X) in *.
  assert (HF : 0 < F).
  { rewrite Htr in Ht.
    assert (E : F = F / Nm1 * Nm1) by (field; lra).
    rewrite E. now apply Rmult_lt_0_compat. }
  assert (Hpve : pve = map (fun y => y / F) (firstn ndim d0)).
  { unfold pve, pca. cbn [out_self]. unfold pca_truncate. cbn [m_pve].
    assert (Hd : m_d (pca_assembled self X0 method transpose ndim nextra
                        maxiter tol seed kernel sigma rbf_center rbf_sample
                        do_orth do_loadings) =
                 map (fun x => x / Nm1) d0).
    { unfold pca_assembled, pca_d. now destruct (pca_transpose _ _). }
    assert (Hm : m_trace (pca_assembled self X0 method transpose ndim nextra
                            maxiter tol seed kernel sigma rbf_center
                            rbf_sample do_orth do_loadings) = trace).
    { unfold pca_assembled. now destruct (pca_transpose _ _). }
    rewrite Hd, Hm.
    rewrite conservativeResize_vec_firstn by (now rewrite length_map).
    rewrite firstn_map, map_map.
    apply map_ext. intros y. cbn [sdiv R_scalar]. rewrite Htr.
    field. split; lra. }
  assert (Hfirst : Forall (fun y => 0 <= y) (firstn ndim d0)).
  { apply Forall_forall. intros y Hy.
    apply (proj1 (Forall_forall _ _) Hpos). now apply (firstn_incl ndim). }
  split; [|split].
  - rewrite Hpve, length_map, length_firstn. lia.
  - intros i Hi. rewrite Hpve.
    assert (Hi' : (i < length (firstn ndim d0))%nat)
      by (rewrite length_firstn; lia).
    rewrite nth_map_in with (d' := 0) by exact Hi'.
    pose proof (nth_In _ 0 Hi') as Hin.
    set (y := nth i (firstn ndim d0) 0) in *.
    assert (Hy0 : 0 <= y) by (apply (proj1 (Forall_forall _ _) Hfirst); exact Hin).
    assert (Hy1 : y <= rsum d0).
    { apply rsum_In_le; auto. now apply (firstn_incl ndim). }
    split.
    + apply Rdiv_nonneg_pos; lra.
    + apply Rdiv_le_one; lra.
  - rewrite vsum_rsum, Hpve, rsum_map_div.
    pose proof (rsum_firstn_le ndim Hpos) as Hle.
    apply Rdiv_le_one; lra.
Qed.

End PveBounds.

(** *** A run with the linear kernel and a run with the RBF kernel *)

Section DemoRuns.

Local Open Scope R_scope.

Variable kernel : Z.

Local Abbreviation demo_Y := (pca_Y fresh_pca X30 false 1 0 0 0 7 kernel 1 false 5 false).
Local Abbreviation demo_B := (pca_B fresh_pca X30 false 1 0 0 0 7 kernel 1 false 5 false).

Lemma demo_X : pca_X fresh_pca X30 false kernel = X30.
Proof.
  unfold pca_X, pca_standardized.
  now destruct (pca_transpose false kernel).
Qed.

Lemma demo_Y_rows : rows demo_Y = 2%nat.
Proof.
  unfold pca_Y, pca_loop. cbn [subspace_loop it_Y].
  unfold pca_Y0. rewrite normalize_rows. cbn [mmul rows].
  now rewrite demo_X.
Qed.

Lemma demo_householderQ_ok :
  householderQ_ok (householderQ demo_Y) (rows (pca_X fresh_pca X30 false kernel)).
Proof.
  rewrite demo_X. change (rows X30) with 2%nat. rewrite <- demo_Y_rows.
  apply qr_identity_ok.
Qed.

Lemma demo_B_rows : rows demo_B = 1%nat.
Proof.
  unfold pca_B. cbn [mmul mtranspose rows].
  unfold pca_Q. cbn [conservativeResize_cols cols].
  rewrite pca_Y_cols. reflexivity.
Qed.

Lemma demo_eigen_ok :
  eigen_ok (mmul demo_B (mtranspose demo_B))
    (SelfAdjointEigenSolver (mmul demo_B (mtranspose demo_B))).
Proof.
  apply eig_diag_ok_1x1. cbn [mmul rows]. apply demo_B_rows.
Qed.

(** The single entry of [B = Q^T X]. *)
Lemma demo_B_coeff : coeff demo_B 0 0 = 3.
Proof.
  unfold pca_B. cbn [mmul mtranspose coeff cols rows].
  replace (rows (pca_Q fresh_pca X30 false 1 0 0 0 7 kernel 1 false 5 false))
    with 2%nat.
  - cbn [sum_upto].
    rewrite (pca_Q_coeff fresh_pca X30 false 1 0 0 0 7 kernel 1 false 5
               false 0 demo_householderQ_ok)
      by (rewrite pca_Y_cols; vm_compute; lia).
    rewrite (pca_Q_coeff fresh_pca X30 false 1 0 0 0 7 kernel 1 false 5
               false 1 demo_householderQ_ok)
      by (rewrite pca_Y_cols; vm_compute; lia).
    rewrite !demo_X.
    cbn [householderQ demo_eigen qr_identity Identity coeff X30 rows
         Nat.ltb Nat.leb Nat.eqb sadd smul s0 s1 R_scalar].
    ring.
  - unfold pca_Q. cbn [conservativeResize_cols mmul rows].
    cbn [householderQ demo_eigen qr_identity Identity rows].
    now rewrite demo_Y_rows.
Qed.

(** The unscaled [d] of the run: the single eigenvalue [9]. *)
Lemma demo_decomposition :
  snd (pca_decomposition fresh_pca X30 1 false 1 0 0 0 7 kernel 1 false 5 false)
  = [9].
Proof.
  destruct (pca_small_eigen_spec demo_B (uninitialized 0 0) (m_d fresh_pca)
              (method := 1%Z)) as (H1 & _ & H3 & _).
  - discriminate.
  - reflexivity.
  - cbn [SelfAdjointEigenSolver demo_eigen eig_diag fst mmul rows].
    rewrite length_map, length_seq, demo_B_rows. vm_compute. reflexivity.
  - unfold pca_decomposition. rewrite H1. cbn [snd]. rewrite H3.
    cbn [SelfAdjointEigenSolver demo_eigen eig_diag fst mmul rows].
    rewrite demo_B_rows. cbn [seq map rev app coeff mmul mtranspose cols].
    replace (cols demo_B) with 1%nat
      by (unfold pca_B; cbn [mmul cols]; now rewrite demo_X).
    cbn [sum_upto sadd smul s0 R_scalar]. rewrite demo_B_coeff.
    f_equal. ring.
Qed.

(** The [pve] of the run, from its trace. *)
Lemma demo_pve :
  m_pve (out_self
    (pca fresh_pca X30 1 false 1 0 0 0 7 kernel 1 false 5 false false false)) =
  [9 / 1 / pca_trace fresh_pca X30 false 7 kernel 1 false 5].
Proof.
  unfold pca. cbn [out_self]. unfold pca_truncate. cbn [m_pve].
  assert (Hd : m_d (pca_assembled fresh_pca X30 1 false 1 0 0 0 7 kernel 1
                      false 5 false false) = [9 / 1]).
  { unfold pca_assembled, pca_d. rewrite demo_decomposition.
    assert (Hc : pca_Nm1 fresh_pca X30 false kernel = 1).
    { assert (Ht : pca_transpose false kernel = false)
        by (unfold pca_transpose; now destruct (negb _)).
      unfold pca_Nm1, pca_N, pca_standardized. rewrite Ht. reflexivity. }
    rewrite Hc. now destruct (pca_transpose false kernel). }
  assert (Hm : m_trace (pca_assembled fresh_pca X30 1 false 1 0 0 0 7 kernel 1
                          false 5 false false) =
               pca_trace fresh_pca X30 false 7 kernel 1 false 5).
  { unfold pca_assembled. now destruct (pca_transpose false kernel). }
  rewrite Hd, Hm. reflexivity.
Qed.

End DemoRuns.

Lemma pca_linear_pve_bounds_witness :
  let pve := m_pve (out_self
    (pca fresh_pca X30 1 false 1 0 0 0%R 7 1 1%R false 5 false false false)) in
  length pve = 1 /\
  (forall i, i < 1 -> (0 <= nth i pve 0 <= 1)%R) /\
  (vsum pve <= 1)%R.
Proof.
  refine (@pca_linear_pve_bounds demo_macros demo_eigen demo_random demo_sort
            demo_util fresh_pca X30 1%Z false 1 0 0 0%R 7%Z 1%Z 1%R false 5
            false false false _ _ _ _ _ _).
  - discriminate.
  - simpl. lia.
  - change (pca_Nm1 fresh_pca X30 false 1) with 1%R. lra.
  - rewrite pca_trace_linear by discriminate.
    rewrite demo_X. change (pca_Nm1 fresh_pca X30 false 1) with 1%R.
    unfold frob2. cbn. lra.
  - apply demo_householderQ_ok.
  - right. split; [discriminate|]. split; [reflexivity|].
    apply demo_eigen_ok.
Defined.

(** C4 as stated fails for the RBF kernel: for the [2 x 1] matrix with
    rows [(3)] and [(0)], bandwidth [1], one component and no iteration,
    the Householder factor is the identity, [B = (3)], the eigenvalue of
    [B * B^T] is [9], [N - 1 = 1], and the trace of the RBF kernel is
    [2]: [pve] is [(9 / 2)], above [1]. *)
Lemma pca_rbf_pve_exceeds_one :
  let r := pca fresh_pca X30 1 false 1 0 0 0%R 7 2 1%R false 5 false false false in
  let Y := pca_Y fresh_pca X30 false 1 0 0 0%R 7 2 1%R false 5 false in
  let B := pca_B fresh_pca X30 false 1 0 0 0%R 7 2 1%R false 5 false in
  householderQ_ok (householderQ Y) (rows (pca_X fresh_pca X30 false 2)) /\
  eigen_ok (mmul B (mtranspose B))
    (SelfAdjointEigenSolver (mmul B (mtranspose B))) /\
  m_pve (out_self r) = [(9 / 2)%R] /\
  ~ (forall i, i < 1 -> (0 <= nth i (m_pve (out_self r)) 0 <= 1)%R).
Proof.
  intros r Y B.
  assert (Hpve : m_pve (out_self r) = [(9 / 2)%R]).
  { unfold r. rewrite demo_pve. f_equal.
    unfold pca_trace, pca_K.
    change (2 =? KERNEL_RBF)%Z with true. cbn iota.
    rewrite rbf_kernel_trace, demo_X.
    change (Nat.min (rows X30) (u32_of_nat (rows X30))) with 2.
    change (INR 2) with (1 + 1)%R. field. }
  split; [apply demo_householderQ_ok|].
  split; [apply demo_eigen_ok|].
  split; [exact Hpve|].
  intros H. specialize (H 0 (Nat.lt_0_succ 0)).
  rewrite Hpve in H. cbn [nth] in H. lra.
Qed.

(** * Further properties of the functions *)

(** ** normalize *)

Section NormalizeUnit.

Local Open Scope R_scope.

(** X1: in exact arithmetic normalize keeps the dimensions, divides
    every entry of a processed column whose Euclidean norm is not zero
    by the norm that the column had on entry, and leaves that column
    with squared norm one. *)
Theorem normalize_unit_columns (X : MatrixXd R) (j : nat) :
  (j < u32_of_nat (cols X))%nat ->
  sqrt (col_sq_sum X j) <> 0 ->
  rows (normalize X) = rows X /\ cols (normalize X) = cols X /\
  (forall i, (i < rows X)%nat ->
     coeff (normalize X) i j = coeff X i j / sqrt (col_sq_sum X j)) /\
  col_sq_sum (normalize X) j = 1.
Proof.
  intros Hj Hnz.
  split; [apply normalize_rows|].
  split; [apply normalize_cols|].
  split; [|now apply normalize_col_sq_sum].
  intros i Hi. rewrite normalize_coeff.
  apply Nat.ltb_lt in Hj. apply Nat.ltb_lt in Hi. rewrite Hj, Hi.
  cbn [andb smul sdiv s1 ssqrt R_scalar]. unfold Rdiv. ring.
Qed.

End NormalizeUnit.

Lemma normalize_unit_columns_witness :
  rows (normalize M34) = rows M34 /\ cols (normalize M34) = cols M34 /\
  (forall i, i < rows M34 ->
     coeff (normalize M34) i 0 = (coeff M34 i 0 / sqrt (col_sq_sum M34 0))%R) /\
  col_sq_sum (normalize M34) 0 = 1%R.
Proof.
  apply (@normalize_unit_columns M34 0).
  - vm_compute. lia.
  - intros H. apply sqrt_eq_0 in H.
    + unfold col_sq_sum, sq in H. simpl in H. lra.
    + apply col_sq_sum_nonneg.
Defined.

Section NormalizeBinary64.

(** The sum of squares of a column of zeros of either sign is [+0]. *)
Lemma col_sq_sum_zero_binary64 (X : MatrixXd PrimFloat.float) (j : nat) :
  (forall i, i < rows X ->
     coeff X i j = PrimFloat.zero \/ coeff X i j = PrimFloat.neg_zero) ->
  col_sq_sum X j = PrimFloat.zero.
Proof.
  unfold col_sq_sum. generalize (rows X) as n.
  induction n as [|n IH]; intros H; [reflexivity|].
  cbn [sum_upto]. rewrite IH by (intros i Hi; apply H; lia).
  destruct (H n (Nat.lt_succ_diag_r n)) as [E|E]; rewrite E; reflexivity.
Qed.

(** X2: in IEEE binary64 arithmetic a processed column that holds only
    zeros (of either sign) comes out of normalize as a column of NaN:
    the norm is [0], its reciprocal is [+inf], and [0 * inf] is NaN.
    The column is not skipped and no error is raised. *)
Theorem normalize_zero_column_nan (X : MatrixXd PrimFloat.float) (j : nat) :
  j < u32_of_nat (cols X) ->
  (forall i, i < rows X ->
     coeff X i j = PrimFloat.zero \/ coeff X i j = PrimFloat.neg_zero) ->
  forall i, i < rows X -> coeff (normalize X) i j = PrimFloat.nan.
Proof.
  intros Hj Hz i Hi. rewrite normalize_coeff.
  rewrite (col_sq_sum_zero_binary64 X j Hz).
  apply Nat.ltb_lt in Hj. rewrite Hj.
  pose proof Hi as Hi'. apply Nat.ltb_lt in Hi'. rewrite Hi'. cbn [andb].
  destruct (Hz i Hi) as [E|E]; rewrite E; reflexivity.
Qed.

End NormalizeBinary64.

Lemma normalize_zero_column_nan_witness :
  coeff (normalize Z34) 0 0 = PrimFloat.nan /\
  coeff (normalize Z34) 1 0 = PrimFloat.nan.
Proof.
  assert (Hj : 0 < u32_of_nat (cols Z34)) by (vm_compute; lia).
  assert (Hz : forall i, i < rows Z34 ->
            coeff Z34 i 0 = PrimFloat.zero \/ coeff Z34 i 0 = PrimFloat.neg_zero).
  { intros i Hi. destruct i as [|i]; [left|right]; reflexivity. }
  split; apply (@normalize_zero_column_nan Z34 0 Hj Hz); simpl; lia.
Defined.

(** ** median_dist: the sampling loop, whatever the draws *)

Section SamplingOrder.

Context {T : Type} {ST : Scalar T} {BR : BoostRandom T}.

(** The loop started at row [i] with [k] rows accepted: the rows it
    accepts are rows of [X] taken in increasing order, each at most
    once, and written to consecutive rows of the sample from row [k]
    on; nothing else is written. *)
Lemma sample_rows_increasing (X : MatrixXd T) (n : nat) (prop : T) :
  (Z.of_nat (rows X) < 2 ^ 32)%Z ->
  forall rest i k rng X2,
    k + rest <= rows X -> k < n ->
    let res := sample_rows rest X n prop i k rng X2 in
    (k <= snd res /\ snd res <= k + rest /\ snd res <= n) /\
    rows (fst res) = rows X2 /\ cols (fst res) = cols X2 /\
    exists src : nat -> nat,
      (forall r, k <= r -> r < snd res -> i <= src r /\ src r < i + rest) /\
      (forall r r', k <= r -> r < r' -> r' < snd res -> src r < src r') /\
      (forall r c, coeff (fst res) r c =
         if (k <=? r) && (r <? snd res) && (c <? cols X2)
         then coeff X (src r) c else coeff X2 r c).
Proof.
  intros HX. induction rest as [|rest IH]; intros i k rng X2 Hk Hn.
  - cbn [sample_rows fst snd]. split; [lia|]. split; [reflexivity|].
    split; [reflexivity|].
    exists (fun _ => 0). split; [lia|]. split; [lia|].
    intros r c.
    replace ((k <=? r) && (r <? k)) with false; [reflexivity|].
    symmetry. apply andb_false_iff.
    destruct (Nat.lt_ge_cases r k);
      [left; apply Nat.leb_gt | right; apply Nat.ltb_ge]; lia.
  - cbn [sample_rows].
    destruct (uniform01 rng) as [u rng'].
    destruct (slt u prop).
    + rewrite u32_of_nat_small by lia.
      destruct (k + 1 =? n) eqn:Hend.
      * apply Nat.eqb_eq in Hend. cbn [fst snd].
        split; [lia|]. split; [reflexivity|]. split; [reflexivity|].
        exists (fun _ => i). split; [lia|]. split; [lia|].
        intros r c. cbn [set_row coeff].
        destruct (Nat.eq_dec r k) as [->|Hne].
        -- rewrite Nat.eqb_refl.
           replace (k <=? k) with true by (symmetry; apply Nat.leb_le; lia).
           replace (k <? k + 1) with true by (symmetry; apply Nat.ltb_lt; lia).
           reflexivity.
        -- replace (r =? k) with false by (symmetry; now apply Nat.eqb_neq).
           replace ((k <=? r) && (r <? k + 1)) with false; [reflexivity|].
           symmetry. apply andb_false_iff.
           destruct (Nat.lt_ge_cases r k);
             [left; apply Nat.leb_gt | right; apply Nat.ltb_ge]; lia.
      * apply Nat.eqb_neq in Hend.
        specialize (IH (i + 1) (k + 1) rng' (set_row X2 k X i)).
        destruct IH as (Hs & Hr & Hc & src & Hrange & Hmono & Hco); try lia.
        set (res := sample_rows rest X n prop (i + 1) (k + 1) rng'
                      (set_row X2 k X i)) in *.
        split; [lia|]. split; [exact Hr|]. split; [exact Hc|].
        exists (fun r => if r =? k then i else src r).
        split; [|split].
        -- intros r Hr1 Hr2. destruct (Nat.eqb_spec r k); [lia|].
           specialize (Hrange r). lia.
        -- intros r r' Hr1 Hr2 Hr3.
           replace (r' =? k) with false by (symmetry; apply Nat.eqb_neq; lia).
           destruct (Nat.eqb_spec r k).
           ++ specialize (Hrange r'). lia.
           ++ apply Hmono; lia.
        -- intros r c. rewrite Hco. cbn [set_row coeff cols].
           destruct (Nat.lt_trichotomy r k) as [Hlt | [Heq | Hgt]].
           ++ replace (k + 1 <=? r) with false by (symmetry; apply Nat.leb_gt; lia).
              replace (k <=? r) with false by (symmetry; apply Nat.leb_gt; lia).
              replace (r =? k) with false by (symmetry; apply Nat.eqb_neq; lia).
              reflexivity.
           ++ subst r.
              replace (k + 1 <=? k) with false by (symmetry; apply Nat.leb_gt; lia).
              replace (k <=? k) with true by (symmetry; apply Nat.leb_le; lia).
              replace (k <? snd res) with true by (symmetry; apply Nat.ltb_lt; lia).
              rewrite Nat.eqb_refl. reflexivity.
           ++ replace (k + 1 <=? r) with true by (symmetry; apply Nat.leb_le; lia).
              replace (k <=? r) with true by (symmetry; apply Nat.leb_le; lia).
              replace (r =? k) with false by (symmetry; apply Nat.eqb_neq; lia).
              reflexivity.
    + specialize (IH (i + 1) k rng' X2).
      destruct IH as (Hs & Hr & Hc & src & Hrange & Hmono & Hco); try lia.
      split; [lia|]. split; [exact Hr|]. split; [exact Hc|].
      exists src. split; [|split; [exact Hmono | exact Hco]].
      intros r Hr1 Hr2. specialize (Hrange r). lia.
Qed.

(** X3: when median_dist samples ([1 <= n < X.rows()]), whatever the
    generator draws and whatever the threshold, the sample has [n] rows
    of which the first [k <= n] are written: they are [k] distinct rows
    of [X] in their original order (sampling without replacement).  The
    remaining [n - k] rows are never written. *)
Theorem median_sample_ordered_subsample (X : MatrixXd T) (n : nat) (seed : Z) :
  1 <= n -> n < rows X -> (Z.of_nat (rows X) < 2 ^ 32)%Z ->
  let X2 := fst (median_sample X n seed) in
  let k := snd (median_sample X n seed) in
  k <= n /\ rows X2 = n /\ cols X2 = cols X /\
  exists src : nat -> nat,
    (forall r, r < k -> src r < rows X) /\
    (forall r r', r < r' -> r' < k -> src r < src r') /\
    (forall r c, r < k -> c < cols X -> coeff X2 r c = coeff X (src r) c) /\
    (forall r c, k <= r -> coeff X2 r c = indet).
Proof.
  intros Hn Hlt HX. unfold median_sample.
  replace (n <? rows X) with true by (symmetry; now apply Nat.ltb_lt).
  set (prop := sdiv _ _).
  destruct (@sample_rows_increasing X n prop HX (rows X) 0 0 (seed_mt seed)
              (uninitialized n (cols X)))
    as ((_ & _ & Hk) & Hr & Hc & src & Hrange & Hmono & Hco); try lia.
  cbv zeta.
  split; [exact Hk|]. split; [exact Hr|]. split; [exact Hc|].
  exists src. repeat split.
  - intros r Hr1. specialize (Hrange r). lia.
  - intros r r' H1 H2. apply Hmono; lia.
  - intros r c Hr1 Hc1. rewrite Hco. cbn [uninitialized cols].
    apply Nat.ltb_lt in Hr1. apply Nat.ltb_lt in Hc1. rewrite Hr1, Hc1.
    reflexivity.
  - intros r c Hr1. rewrite Hco.
    replace (r <? _) with false by (symmetry; apply Nat.ltb_ge; exact Hr1).
    reflexivity.
Qed.

End SamplingOrder.

Lemma median_sample_ordered_subsample_witness :
  let X2 := fst (median_sample (BR := demo_random) X013 2 7) in
  let k := snd (median_sample (BR := demo_random) X013 2 7) in
  k <= 2 /\ rows X2 = 2 /\ cols X2 = cols X013 /\
  exists src : nat -> nat,
    (forall r, r < k -> src r < rows X013) /\
    (forall r r', r < r' -> r' < k -> src r < src r') /\
    (forall r c, r < k -> c < cols X013 -> coeff X2 r c = coeff X013 (src r) c) /\
    (forall r c, k <= r -> coeff X2 r c = indet).
Proof.
  apply (@median_sample_ordered_subsample R R_scalar demo_random X013 2 7).
  - lia.
  - simpl. lia.
  - simpl. lia.
Defined.

(** ** median_dist: the value returned *)

Section MedianValueFacts.

Local Open Scope R_scope.

Context {BR : BoostRandom R} {SS : StdSort R}.

(** [uniform_real_distribution<>(0, 1)] draws from [[0, 1)], and
    [std::sort] rearranges the array. *)
Hypothesis draw_range : forall g, 0 <= fst (uniform01 g) < 1.
Hypothesis std_sort_perm : forall l, Permutation (std_sort l) l.

Lemma sq_euclidean_dist_nonneg (X : MatrixXd R) (i j : nat) :
  0 <= sq_euclidean_dist X i j.
Proof.
  unfold sq_euclidean_dist. apply sum_upto_nonneg. intros c _.
  cbv beta. apply (Rle_0_sqr (coeff X i c - coeff X j c)).
Qed.

Lemma pairwise_sq_dists_nonneg (X : MatrixXd R) (n : nat) (x : R) :
  In x (pairwise_sq_dists X n) -> 0 <= x.
Proof.
  unfold pairwise_sq_dists. intros H.
  apply in_flat_map in H. destruct H as (j & _ & H).
  apply in_map_iff in H. destruct H as (i & <- & _).
  apply sq_euclidean_dist_nonneg.
Qed.



Lemma median_of_sorted_nonneg (s : list R) :
  (forall x, In x s -> 0 <= x) -> 0 <= median_of_sorted s.
Proof.
  intros Hs.
  assert (Hnth : forall i, 0 <= nth i s 0).
  { intros i. destruct (nth_in_or_default i s 0) as [Hin|E]; [auto|rewrite E; lra]. }
  unfold median_of_sorted. destruct (Nat.odd (length s)).
  - apply Hnth.
  - pose proof (Hnth (length s / 2 - 1)%nat).
    pose proof (Hnth (length s / 2)%nat). lra.
Qed.

(** X5: in exact arithmetic the value of median_dist is never
    negative.  (This is a property of exact arithmetic only: in binary64
    the cancellation in [R + R^T - 2 X X^T] can leave a negative
    value.) *)
Theorem median_dist_nonneg (X : MatrixXd R) (n : nat) (seed : Z) :
  (1 <= n)%nat -> (n <= rows X)%nat -> (Z.of_nat (n * n) < 2 ^ 32)%Z ->
  0 <= median_dist X n seed.
Proof.
  intros Hn Hr H32.
  rewrite (median_dist_value draw_range std_sort_perm X seed Hn Hr H32).
  apply median_of_sorted_nonneg. intros x Hx.
  apply (Permutation_in _ (std_sort_perm _)) in Hx.
  now apply pairwise_sq_dists_nonneg in Hx.
Qed.


Context {MC : Macros} {UT : Util R}.


End MedianValueFacts.


Lemma median_dist_nonneg_witness : (0 <= median_dist X013 2 7)%R.
Proof.
  refine (@median_dist_nonneg demo_random demo_sort _ _ X013 2 7%Z _ _ _).
  - intros g. cbn. lra.
  - apply insertion_sort_perm.
  - lia.
  - simpl. lia.
  - simpl. lia.
Defined.


(** ** rbf_kernel *)

Section RbfKernelFacts.

Local Open Scope R_scope.

Lemma sq_euclidean_dist_sym (X : MatrixXd R) (i j : nat) :
  sq_euclidean_dist X i j = sq_euclidean_dist X j i.
Proof.
  unfold sq_euclidean_dist. apply sum_upto_ext. intros c _. ring.
Qed.

Lemma exp_nonpos_le_1 (x : R) : x <= 0 -> exp x <= 1.
Proof.
  intros [Hlt | ->].
  - rewrite <- exp_0. left. now apply exp_increasing.
  - rewrite exp_0. lra.
Qed.

(** The entries of the kernel before centering. *)
Lemma rbf_kernel_coeff (X : MatrixXd R) (sigma : R) (i j : nat) :
  (Z.of_nat (rows X) < 2 ^ 32)%Z ->
  (i < rows X)%nat -> (j < rows X)%nat ->
  coeff (rbf_kernel X sigma false) i j =
  exp (sq_euclidean_dist X i j / (-1 * sigma * sigma)).
Proof.
  intros H32 Hi Hj. unfold rbf_kernel.
  rewrite u32_of_nat_small by exact H32.
  cbn [coeff mdiv]. rewrite sq_dist_matrix_coeff by assumption.
  reflexivity.
Qed.

(** X7: without centering, for a bandwidth that is not zero,
    rbf_kernel returns the Gaussian kernel matrix of the rows of [X]:
    it is square of order [X.rows()], entry [(i, j)] is
    [exp(-|x_i - x_j|^2 / sigma^2)], every entry lies in [(0, 1]], the
    matrix is symmetric and its diagonal is all ones.  Only the square
    of the bandwidth enters: a negative bandwidth gives the same matrix
    as its absolute value, centred or not. *)
Theorem rbf_kernel_gaussian (X : MatrixXd R) (sigma : R) :
  (Z.of_nat (rows X) < 2 ^ 32)%Z -> sigma <> 0 ->
  let K := rbf_kernel X sigma false in
  rows K = rows X /\ cols K = rows X /\
  (forall i j, (i < rows X)%nat -> (j < rows X)%nat ->
     coeff K i j = exp (- (sq_euclidean_dist X i j / (sigma * sigma))) /\
     0 < coeff K i j <= 1 /\
     coeff K i j = coeff K j i) /\
  (forall i, (i < rows X)%nat -> coeff K i i = 1) /\
  (forall rbf_center,
     rbf_kernel X (- sigma) rbf_center = rbf_kernel X sigma rbf_center).
Proof.
  intros H32 Hs K.
  assert (Hss : 0 < sigma * sigma) by nra.
  assert (Hco : forall i j, (i < rows X)%nat -> (j < rows X)%nat ->
            coeff K i j = exp (- (sq_euclidean_dist X i j / (sigma * sigma)))).
  { intros i j Hi Hj. unfold K. rewrite rbf_kernel_coeff by assumption.
    f_equal. field. exact Hs. }
  split; [|split; [|split; [|split]]].
  - unfold K, rbf_kernel. cbn [rows mdiv]. apply sq_dist_matrix_rows.
  - unfold K, rbf_kernel. cbn [cols mdiv]. rewrite sq_dist_matrix_cols.
    now apply u32_of_nat_small.
  - intros i j Hi Hj. split; [now apply Hco|]. split.
    + rewrite Hco by assumption. split; [apply exp_pos|].
      apply exp_nonpos_le_1.
      pose proof (sq_euclidean_dist_nonneg X i j) as Hd.
      assert (0 <= sq_euclidean_dist X i j / (sigma * sigma))
        by (apply Rdiv_nonneg_pos; assumption).
      lra.
    + rewrite !Hco by assumption. now rewrite sq_euclidean_dist_sym.
  - intros i Hi. rewrite Hco by assumption.
    rewrite sq_euclidean_dist_self. unfold Rdiv. rewrite Rmult_0_l, Ropp_0.
    apply exp_0.
  - intros c. unfold rbf_kernel. cbn [of_int smul R_scalar].
    replace (-1 * - sigma * - sigma) with (-1 * sigma * sigma) by ring.
    reflexivity.
Qed.

(** The centering matrix [I - M], [M = ones * ones^T / n]: its entries,
    and the sum of each of its rows and columns. *)
Lemma centering_coeff (n i j : nat) :
  (i < n)%nat -> (j < n)%nat ->
  coeff (msub (asDiagonal (Ones n))
           (mdiv (mmul (col_vector (Ones n)) (mtranspose (col_vector (Ones n))))
                 (of_int (Z.of_nat n)))) i j =
  (if i =? j then 1 else 0) - 1 / INR n.
Proof.
  intros Hi Hj.
  cbn [msub mdiv mmul mtranspose col_vector asDiagonal coeff rows cols
       sum_upto sadd ssub smul sdiv of_int s0 R_scalar].
  rewrite !vget_Ones by assumption.
  rewrite <- INR_IZR_INZ.
  assert (Hnth : nth i (Ones (T := R) n) 0 = 1).
  { unfold Ones. apply nth_repeat_lt. exact Hi. }
  rewrite Hnth. destruct (i =? j); f_equal; field;
    apply not_0_INR; lia.
Qed.

Lemma centering_sum (n a : nat) :
  (a < n)%nat ->
  sum_upto n (fun i => (if i =? a then 1 else 0) - 1 / INR n) = 0.
Proof.
  intros Ha.
  rewrite sum_upto_ext with
    (g := fun i => 1 * (if i =? a then 1 else 0) + (- (1 / INR n)))
    by (intros; ring).
  rewrite sum_upto_plus, (sum_upto_delta_col n a (fun _ => 1)).
  apply Nat.ltb_lt in Ha. rewrite Ha.
  rewrite sum_upto_ext with (g := fun _ => - (1 / INR n) * 1)
    by (intros; ring).
  rewrite sum_upto_scale_l, sum_upto_ones.
  field. apply not_0_INR. apply Nat.ltb_lt in Ha. lia.
Qed.

(** X8: with centering and a bandwidth that is not zero, every row
    and every column of the matrix that rbf_kernel returns sums to zero
    in exact arithmetic (the kernel is centred on both sides); the
    matrix is square of order [X.rows()]. *)
Theorem rbf_kernel_centered_sums (X : MatrixXd R) (sigma : R) :
  (1 <= rows X)%nat -> (Z.of_nat (rows X) < 2 ^ 32)%Z -> sigma <> 0 ->
  let K := rbf_kernel X sigma true in
  rows K = rows X /\ cols K = rows X /\
  (forall i, (i < rows X)%nat -> sum_upto (rows X) (fun j => coeff K i j) = 0) /\
  (forall j, (j < rows X)%nat -> sum_upto (rows X) (fun i => coeff K i j) = 0).
Proof.
  intros Hn H32 _ K. unfold K, rbf_kernel.
  rewrite u32_of_nat_small by exact H32.
  set (n := rows X).
  set (C := msub _ _).
  set (K0 := mkMatrix _ _ _).
  assert (HCc : cols C = n).
  { unfold C, Ones. cbn [msub asDiagonal cols]. apply repeat_length. }
  assert (HCr : rows C = n).
  { unfold C, Ones. cbn [msub asDiagonal rows]. apply repeat_length. }
  assert (HK0c : cols K0 = n).
  { unfold K0. cbn [cols mdiv]. apply sq_dist_matrix_cols. }
  assert (HCco : forall i j, (i < n)%nat -> (j < n)%nat ->
            coeff C i j = (if i =? j then 1 else 0) - 1 / INR n).
  { intros i j Hi Hj. unfold C. now apply centering_coeff. }
  assert (Hrow : forall l, (l < n)%nat -> sum_upto n (fun j => coeff C l j) = 0).
  { intros l Hl.
    rewrite sum_upto_ext with
      (g := fun j => (if j =? l then 1 else 0) - 1 / INR n).
    - now apply centering_sum.
    - intros j Hj. rewrite HCco by assumption. now rewrite Nat.eqb_sym. }
  assert (Hcol : forall l, (l < n)%nat -> sum_upto n (fun i => coeff C i l) = 0).
  { intros l Hl.
    rewrite sum_upto_ext with
      (g := fun i => (if i =? l then 1 else 0) - 1 / INR n).
    - now apply centering_sum.
    - intros i Hi. now rewrite HCco. }
  split; [exact HCr|]. split; [exact HCc|].
  cbn [mmul coeff cols]. rewrite HK0c, HCc.
  split.
  - intros i Hi.
    rewrite (sum_upto_swap n n
               (fun j l => sum_upto n (fun m => coeff C i m * coeff K0 m l)
                           * coeff C l j)).
    rewrite sum_upto_ext with (g := fun _ => 0); [apply sum_upto_zero|].
    intros l Hl. rewrite sum_upto_scale_l, Hrow by assumption. ring.
  - intros j Hj.
    rewrite (sum_upto_swap n n
               (fun i l => sum_upto n (fun m => coeff C i m * coeff K0 m l)
                           * coeff C l j)).
    rewrite sum_upto_ext with (g := fun _ => 0); [apply sum_upto_zero|].
    intros l Hl. rewrite sum_upto_scale_r.
    rewrite (sum_upto_swap n n (fun i m => coeff C i m * coeff K0 m l)).
    rewrite sum_upto_ext with (g := fun _ => 0);
      [rewrite sum_upto_zero; ring|].
    intros m Hm. rewrite sum_upto_scale_r, Hcol by assumption. ring.
Qed.

End RbfKernelFacts.

Lemma rbf_kernel_gaussian_witness :
  let K := rbf_kernel X013 2%R false in
  rows K = rows X013 /\ cols K = rows X013 /\
  (forall i j, i < rows X013 -> j < rows X013 ->
     coeff K i j = exp (- (sq_euclidean_dist X013 i j / (2 * 2))) /\
     (0 < coeff K i j <= 1)%R /\
     coeff K i j = coeff K j i) /\
  (forall i, i < rows X013 -> coeff K i i = 1%R) /\
  (forall rbf_center,
     rbf_kernel X013 (- (2))%R rbf_center = rbf_kernel X013 2%R rbf_center).
Proof.
  apply (@rbf_kernel_gaussian X013 2%R).
  - simpl. lia.
  - lra.
Defined.

Lemma rbf_kernel_centered_sums_witness :
  let K := rbf_kernel X013 2%R true in
  rows K = rows X013 /\ cols K = rows X013 /\
  (forall i, i < rows X013 -> sum_upto (rows X013) (fun j => coeff K i j) = 0%R) /\
  (forall j, j < rows X013 -> sum_upto (rows X013) (fun i => coeff K i j) = 0%R).
Proof.
  apply (@rbf_kernel_centered_sums X013 2%R).
  - simpl. lia.
  - simpl. lia.
  - lra.
Defined.

(** ** pca_small in exact arithmetic *)

Section SmallDecomposerReal.

Local Open Scope R_scope.

Context {MC : Macros} {EL : EigenLib R}.

Lemma map_sq_descending (sv : list R) :
  StronglySorted Rge sv -> Forall (fun x => 0 <= x) sv ->
  StronglySorted Rge (map sq sv).
Proof.
  induction 1 as [|a l Hs IH Ha]; intros Hpos; cbn [map]; constructor.
  - apply IH. now inversion Hpos.
  - inversion Hpos as [|? ? Ha0 Hl0]; subst.
    rewrite Forall_forall in *. intros y Hy.
    apply in_map_iff in Hy. destruct Hy as (x & <- & Hx).
    specialize (Ha x Hx). specialize (Hl0 x Hx).
    unfold sq. cbn [smul R_scalar]. nra.
Qed.

(** X9: for the SVD strategy pca_small returns the left singular
    vectors as [U] and the squares of the singular values as [d], one
    for one and in the same order; the right singular vectors are not
    used.  In exact arithmetic every entry of [d] is non-negative, and
    [d] is non-increasing when the singular values are non-negative and
    non-increasing, as Eigen returns them. *)
Theorem pca_small_svd_squares (B U0 : MatrixXd R) (d0 : VectorXd R) (method : Z) :
  method = METHOD_SVD ->
  let mU := fst (fst (JacobiSVD B)) in
  let sv := snd (fst (JacobiSVD B)) in
  let d := snd (pca_small B method U0 d0) in
  fst (pca_small B method U0 d0) = mU /\
  length d = length sv /\
  (forall i, (i < length sv)%nat -> nth i d 0 = nth i sv 0 * nth i sv 0) /\
  Forall (fun x => 0 <= x) d /\
  (StronglySorted Rge sv -> Forall (fun x => 0 <= x) sv ->
   StronglySorted Rge d).
Proof.
  intros Hm mU sv d. unfold d, mU, sv, pca_small.
  apply Z.eqb_eq in Hm. rewrite Hm.
  destruct (JacobiSVD B) as [[U1 s] V1]. cbn [fst snd].
  split; [reflexivity|]. split; [apply length_map|].
  split; [|split].
  - intros i Hi. rewrite nth_map_in with (d' := 0) by exact Hi. reflexivity.
  - apply Forall_forall. intros y Hy.
    apply in_map_iff in Hy. destruct Hy as (x & <- & _).
    unfold sq. cbn [smul R_scalar]. nra.
  - apply map_sq_descending.
Qed.

(** X10: whichever strategy is chosen, when the Eigen decomposition
    behind it meets its contract the vector [d] that pca_small returns
    holds non-negative values whose sum is the squared Frobenius norm
    of [B]: the SVD strategy (squared singular values of [B]) and the
    Eigen strategy (eigenvalues of [B * B^T]) agree on the total. *)
Theorem pca_small_total_variance (B U0 : MatrixXd R) (d0 : VectorXd R) (method : Z) :
  (method = METHOD_SVD /\ svd_ok B (JacobiSVD B)) \/
  (method <> METHOD_SVD /\ method = METHOD_EIGEN /\
   (Z.of_nat (rows B) < 2 ^ 32)%Z /\
   eigen_ok (mmul B (mtranspose B))
     (SelfAdjointEigenSolver (mmul B (mtranspose B)))) ->
  let d := snd (pca_small B method U0 d0) in
  Forall (fun x => 0 <= x) d /\ rsum d = frob2 B.
Proof.
  intros [(Hm & Hsvd) | (Hm & Hm' & H32 & Heig)] d; unfold d.
  - unfold pca_small. apply Z.eqb_eq in Hm. rewrite Hm.
    destruct (JacobiSVD B) as [[mU sv] mV]. cbn [fst snd].
    now apply svd_ok_sum with (U := mU) (V := mV).
  - pose proof Heig as Heig'.
    unfold eigen_ok in Heig'. cbn [mmul rows] in Heig'.
    destruct (SelfAdjointEigenSolver (mmul B (mtranspose B)))
      as [eval E] eqn:Hsolve.
    destruct Heig' as (Hlen & _).
    destruct (eigen_ok_sum Heig) as (Hpos & Hsum).
    destruct (pca_small_eigen_spec B U0 d0 Hm Hm')
      as (Hsmall & _ & Hd & _).
    { rewrite Hsolve. cbn [fst]. rewrite Hlen. exact H32. }
    rewrite Hsmall. cbn [snd]. rewrite Hd, Hsolve. cbn [fst].
    split; [now apply Forall_rev | now rewrite rsum_rev].
Qed.

End SmallDecomposerReal.

Lemma pca_small_svd_squares_witness :
  let mU := fst (fst (JacobiSVD (EigenLib := diag_eigen) B21)) in
  let sv := snd (fst (JacobiSVD (EigenLib := diag_eigen) B21)) in
  let d := snd (pca_small (EL := diag_eigen) B21 2 (uninitialized 0 0) []) in
  fst (pca_small (EL := diag_eigen) B21 2 (uninitialized 0 0) []) = mU /\
  length d = length sv /\
  (forall i, i < length sv -> nth i d 0%R = (nth i sv 0 * nth i sv 0)%R) /\
  Forall (fun x => (0 <= x)%R) d /\
  (StronglySorted Rge sv -> Forall (fun x => (0 <= x)%R) sv ->
   StronglySorted Rge d).
Proof.
  apply (@pca_small_svd_squares demo_macros diag_eigen B21 (uninitialized 0 0)
           [] 2%Z).
  reflexivity.
Defined.

Lemma pca_small_total_variance_witness :
  let d := snd (pca_small (EL := demo_eigen) B3 1 (uninitialized 0 0) []) in
  Forall (fun x => (0 <= x)%R) d /\ rsum d = frob2 B3.
Proof.
  apply (@pca_small_total_variance demo_macros demo_eigen B3 (uninitialized 0 0)
           [] 1%Z).
  right. split; [discriminate|]. split; [reflexivity|].
  split; [simpl; lia|].
  apply eig_diag_ok_1x1. reflexivity.
Defined.

(** ** RandomPCA::pca in exact arithmetic: the loop, the trace, the scores *)

Section LoopReal.

Local Open Scope R_scope.

Context {EL : EigenLib R}.

Variable K : MatrixXd R.
Variable tol : R.
Variable do_orth : bool.

(** The convergence metric is a mean of squares.  (For an empty [Y] it
    is the quotient [0 / 0], which is not below any tolerance either.) *)
Lemma convergence_diff_nonneg (A B : MatrixXd R) : 0 <= convergence_diff A B.
Proof.
  unfold convergence_diff. cbn [sdiv of_int R_scalar].
  assert (Hs : 0 <= sq_sum (msub A B)).
  { unfold sq_sum. apply sum_upto_nonneg. intros j _.
    apply sum_upto_nonneg. intros i _. unfold sq. cbn [smul R_scalar].
    apply (Rle_0_sqr (coeff (msub A B) i j)). }
  destruct (Nat.eq_dec (msize A) 0) as [E|E].
  - rewrite E. unfold Rdiv. cbn [Z.of_nat]. rewrite Rinv_0. lra.
  - apply Rdiv_nonneg_pos; [exact Hs|].
    apply IZR_lt. lia.
Qed.

Lemma subspace_loop_full_budget :
  tol <= 0 ->
  forall budget st,
    let r := subspace_loop K tol do_orth budget st in
    it_count r = (it_count st + budget)%nat /\
    it_Y r = Nat.iter budget (next_iterate K do_orth) (it_Y st) /\
    ((1 <= budget)%nat -> it_break r = false /\ it_Yn r = it_Y r).
Proof.
  intros Htol. induction budget as [|budget IH]; intros st.
  - cbn [subspace_loop Nat.iter]. split; [lia|]. split; [reflexivity|]. lia.
  - cbn [subspace_loop].
    pose proof (convergence_diff_nonneg (it_Y st) (next_iterate K do_orth (it_Y st)))
      as Hd.
    cbn [slt R_scalar].
    destruct (Rlt_dec _ tol) as [Hlt|_]; [lra|].
    specialize (IH (mkIter (next_iterate K do_orth (it_Y st))
                      (next_iterate K do_orth (it_Y st))
                      (S (it_count st)) false)).
    cbv zeta in IH. cbn [it_count it_Y it_Yn it_break] in IH.
    destruct IH as (Hc & HY & Hb).
    split; [rewrite Hc; lia|].
    split; [rewrite HY; symmetry; apply Nat.iter_succ_r|].
    intros _. destruct budget as [|budget'].
    + cbn [subspace_loop it_break it_Yn it_Y]. split; reflexivity.
    + apply Hb. lia.
Qed.

End LoopReal.

Section PipelineValues.

Local Open Scope R_scope.

Context {MC : Macros} {EL : EigenLib R} {BR : BoostRandom R}.
Context {SS : StdSort R} {UT : Util R}.

Variable self : RandomPCA R.
Variable X0 : MatrixXd R.
Variable method : Z.
Variable transpose : bool.
Variables ndim nextra maxiter : nat.
Variable tol : R.
Variable seed : Z.
Variable kernel : Z.
Variable sigma : R.
Variable rbf_center : bool.
Variable rbf_sample : nat.
Variables save_kernel do_orth do_loadings : bool.

Local Abbreviation X := (pca_X self X0 transpose kernel).
Local Abbreviation Nm1 := (pca_Nm1 self X0 transpose kernel).
Local Abbreviation Y0 := (pca_Y0 self X0 transpose ndim nextra seed kernel).
Local Abbreviation K :=
  (pca_K self X0 transpose seed kernel sigma rbf_center rbf_sample).
Local Abbreviation the_loop :=
  (pca_loop self X0 transpose ndim nextra maxiter tol seed kernel sigma
     rbf_center rbf_sample do_orth).
Local Abbreviation Q :=
  (pca_Q self X0 transpose ndim nextra maxiter tol seed kernel sigma
     rbf_center rbf_sample do_orth).
Local Abbreviation Et :=
  (pca_Et self X0 method transpose ndim nextra maxiter tol seed kernel sigma
     rbf_center rbf_sample do_orth).
Local Abbreviation decomposition :=
  (pca_decomposition self X0 method transpose ndim nextra maxiter tol seed
     kernel sigma rbf_center rbf_sample do_orth).
Local Abbreviation assembled :=
  (pca_assembled self X0 method transpose ndim nextra maxiter tol seed kernel
     sigma rbf_center rbf_sample do_orth do_loadings).
Local Abbreviation result :=
  (pca self X0 method transpose ndim nextra maxiter tol seed kernel
     sigma rbf_center rbf_sample save_kernel do_orth do_loadings).

(** X11: in exact arithmetic a tolerance that is zero or negative
    switches the early exit off: the convergence metric is a mean of
    squares and is never below such a tolerance, so the loop runs its
    body exactly [maxiter] times, is never left by [break], and [Y] is
    the [maxiter]-th iterate of the sketch. *)
Theorem pca_loop_nonpositive_tol :
  tol <= 0 ->
  it_count the_loop = maxiter /\
  it_break the_loop = false /\
  it_Y the_loop = Nat.iter maxiter (next_iterate K do_orth) Y0.
Proof.
  intros Htol.
  destruct (subspace_loop_full_budget K do_orth Htol maxiter
              (mkIter Y0 (uninitialized 0 0) 0 false)) as (Hc & HY & Hb).
  cbn [it_count it_Y] in Hc, HY.
  split; [exact Hc|]. split; [|exact HY].
  destruct maxiter as [|m] eqn:E.
  - reflexivity.
  - apply Hb. lia.
Qed.

(** X12: with the linear kernel (any kernel code other than
    [KERNEL_RBF]) the trace stored in the object is the squared
    Frobenius norm of the standardised [X] divided by [N - 1] ([N - 1]
    not being zero), where [N] is the number of columns of [X] in
    transposed mode and the number of rows otherwise. *)
Theorem pca_trace_of_linear_kernel :
  kernel <> KERNEL_RBF -> Nm1 <> 0 ->
  m_trace (out_self result) = frob2 X / Nm1 /\
  pca_N self X0 transpose kernel =
    u32_of_nat (if pca_transpose transpose kernel then cols X else rows X).
Proof.
  intros Hk _. split.
  - unfold pca. cbn [out_self]. unfold pca_truncate. cbn [m_trace].
    unfold pca_assembled.
    destruct (pca_transpose transpose kernel); cbn [m_trace];
      now apply pca_trace_linear.
  - unfold pca_N, pca_X, pca_standardized.
    destruct (pca_transpose transpose kernel);
      destruct (negb _); try destruct (standardize_transpose _ _);
      try destruct (standardize _ _); reflexivity.
Qed.

(** X13: with the RBF kernel, no centering and a bandwidth that is
    not zero when it reaches rbf_kernel (the configured one, or the
    estimate that replaces a configured zero), the trace stored in the
    object is the number of rows of [X] in exact arithmetic, whatever
    the data: the diagonal of the kernel is [exp(0)]. *)
Theorem pca_trace_of_rbf_kernel :
  kernel = KERNEL_RBF -> rbf_center = false ->
  (Z.of_nat (rows (pca_X self X0 transpose kernel)) < 2 ^ 32)%Z ->
  pca_sigma self X0 transpose seed kernel sigma rbf_sample <> 0 ->
  m_trace (out_self
    (pca self X0 method transpose ndim nextra maxiter tol seed kernel
       sigma rbf_center rbf_sample save_kernel do_orth do_loadings)) =
  INR (rows (pca_X self X0 transpose kernel)).
Proof.
  intros Hk Hc H32 _.
  unfold pca. cbn [out_self]. unfold pca_truncate. cbn [m_trace].
  assert (Ht : m_trace assembled =
               pca_trace self X0 transpose seed kernel sigma rbf_center rbf_sample).
  { unfold pca_assembled. now destruct (pca_transpose transpose kernel). }
  rewrite Ht. unfold pca_trace, pca_K.
  apply Z.eqb_eq in Hk. rewrite Hk, Hc.
  rewrite rbf_kernel_trace, u32_of_nat_small by exact H32.
  now rewrite Nat.min_id.
Qed.

(** X14: without transposition the scores returned in [P] are the
    columns of the returned [U] scaled by the returned eigenvalues [d]
    (by [d] itself, not by its square root): the product
    [U * d.asDiagonal()] survives the truncation to [ndim] columns.
    The decomposer is assumed to return as many values as columns. *)
Theorem pca_scores_are_scaled_directions (i j : nat) :
  pca_transpose transpose kernel = false ->
  cols Et = length (snd decomposition) ->
  (j < ndim)%nat -> (j < cols Et)%nat ->
  coeff (m_P (out_self result)) i j =
  coeff (m_U (out_self result)) i j * nth j (m_d (out_self result)) 0.
Proof.
  intros Ht Hdim Hj Hje.
  unfold pca. cbn [out_self]. unfold pca_truncate. cbn [m_P m_U m_d].
  unfold pca_assembled. rewrite Ht. cbn [m_P m_U m_d].
  assert (Hlen : length (pca_d self X0 method transpose ndim nextra maxiter tol
                   seed kernel sigma rbf_center rbf_sample do_orth) = cols Et).
  { unfold pca_d. now rewrite length_map. }
  rewrite conservativeResize_vec_nth by (rewrite ?Hlen; assumption).
  cbn [conservativeResize_cols coeff mmul cols asDiagonal].
  rewrite Hlen.
  apply Nat.ltb_lt in Hje. rewrite Hje. apply Nat.ltb_lt in Hje.
  cbn [smul s0 R_scalar].
  set (d := pca_d _ _ _ _ _ _ _ _ _ _ _ _ _ _).
  pose (U := fun l : nat => coeff (mmul Q Et) i l).
  change (sum_upto (cols Et) (fun l => U l * (if l =? j then nth l d 0 else 0)) =
          U j * nth j d 0).
  rewrite sum_upto_ext with
    (g := fun l => U l * nth l d 0 * (if l =? j then 1 else 0)).
  - rewrite (sum_upto_delta_col (cols Et) j (fun l => U l * nth l d 0)).
    apply Nat.ltb_lt in Hje. now rewrite Hje.
  - intros l _. destruct (Nat.eqb_spec l j); [subst l|]; ring.
Qed.

End PipelineValues.

Lemma pca_loop_nonpositive_tol_witness :
  it_count (pca_loop fresh_pca X30 false 1 0 2 0%R 7 1 1%R false 5 false) = 2 /\
  it_break (pca_loop fresh_pca X30 false 1 0 2 0%R 7 1 1%R false 5 false) = false /\
  it_Y (pca_loop fresh_pca X30 false 1 0 2 0%R 7 1 1%R false 5 false) =
    Nat.iter 2 (next_iterate (pca_K fresh_pca X30 false 7 1 1%R false 5) false)
      (pca_Y0 fresh_pca X30 false 1 0 7 1).
Proof.
  refine (@pca_loop_nonpositive_tol demo_macros demo_eigen demo_random demo_sort
            demo_util fresh_pca X30 false 1 0 2 0%R 7%Z 1%Z 1%R false 5 false _).
  lra.
Defined.

Lemma pca_trace_of_linear_kernel_witness :
  m_trace (out_self
    (pca fresh_pca X30 1 false 1 0 0 0%R 7 1 1%R false 5 false false false)) =
  (frob2 (pca_X fresh_pca X30 false 1) / pca_Nm1 fresh_pca X30 false 1)%R /\
  pca_N fresh_pca X30 false 1 =
    u32_of_nat (if pca_transpose false 1 then cols (pca_X fresh_pca X30 false 1)
                else rows (pca_X fresh_pca X30 false 1)).
Proof.
  refine (@pca_trace_of_linear_kernel demo_macros demo_eigen demo_random
            demo_sort demo_util fresh_pca X30 1%Z false 1 0 0 0%R 7%Z 1%Z 1%R
            false 5 false false false _ _).
  - discriminate.
  - change (pca_Nm1 fresh_pca X30 false 1) with 1%R. lra.
Defined.

Lemma pca_trace_of_rbf_kernel_witness :
  m_trace (out_self
    (pca fresh_pca X30 1 false 1 0 0 0%R 7 2 1%R false 5 false false false)) =
  INR (rows (pca_X fresh_pca X30 false 2)).
Proof.
  refine (@pca_trace_of_rbf_kernel demo_macros demo_eigen demo_random
            demo_sort demo_util fresh_pca X30 1%Z false 1 0 0 0%R 7%Z 2%Z 1%R
            false 5 false false false _ _ _ _).
  - reflexivity.
  - reflexivity.
  - rewrite demo_X. simpl. lia.
  - unfold pca_sigma. cbn [sequal s0 R_scalar].
    destruct (Req_dec_T 1 0); lra.
Defined.

Lemma demo_Et_cols (kernel : Z) :
  cols (pca_Et fresh_pca X30 1 false 1 0 0 0%R 7 kernel 1%R false 5 false) = 1.
Proof.
  destruct (pca_small_eigen_spec
              (pca_B fresh_pca X30 false 1 0 0 0%R 7 kernel 1%R false 5 false)
              (uninitialized 0 0) (m_d fresh_pca)
              (method := 1%Z)) as (H1 & _ & _ & _ & H5 & _).
  - discriminate.
  - reflexivity.
  - cbn [SelfAdjointEigenSolver demo_eigen eig_diag fst mmul rows].
    rewrite length_map, length_seq, demo_B_rows. vm_compute. reflexivity.
  - unfold pca_Et, pca_decomposition. rewrite H1. cbn [fst].
    rewrite H5. apply demo_B_rows.
Qed.

Lemma pca_scores_are_scaled_directions_witness :
  coeff (m_P (out_self
    (pca fresh_pca X30 1 false 1 0 0 0%R 7 1 1%R false 5 false false false))) 0 0 =
  (coeff (m_U (out_self
     (pca fresh_pca X30 1 false 1 0 0 0%R 7 1 1%R false 5 false false false))) 0 0 *
   nth 0 (m_d (out_self
     (pca fresh_pca X30 1 false 1 0 0 0%R 7 1 1%R false 5 false false false))) 0)%R.
Proof.
  refine (@pca_scores_are_scaled_directions demo_macros demo_eigen demo_random
            demo_sort demo_util fresh_pca X30 1%Z false 1 0 0 0%R 7%Z 1%Z 1%R
            false 5 false false false 0 0 _ _ _ _).
  - reflexivity.
  - rewrite demo_decomposition, demo_Et_cols. reflexivity.
  - lia.
  - rewrite demo_Et_cols. lia.
Defined.

(** ** RandomPCA::zca_whiten in exact arithmetic *)

Section ZcaWhitenFacts.

Local Open Scope R_scope.

(** [U * Dinv]: column [l] of [U] divided by [d(l)]. *)
Lemma zca_scaled_directions (U : MatrixXd R) (d : VectorXd R) (i l : nat) :
  cols U = length d -> (l < cols U)%nat ->
  coeff (mmul U (asDiagonal (map (fun x => s1 / x)%S d))) i l =
  coeff U i l * (1 / nth l d 0).
Proof.
  intros Hlen Hl. cbn [mmul asDiagonal coeff cols rows smul sdiv s0 s1 R_scalar].
  rewrite sum_upto_ext with
    (g := fun m => coeff U i m * nth m (map (fun x => 1 / x) d) 0
                   * (if m =? l then 1 else 0))
    by (intros m _; destruct (m =? l); ring).
  rewrite (sum_upto_delta_col (cols U) l
             (fun m => coeff U i m * nth m (map (fun x => 1 / x) d) 0)).
  pose proof Hl as Hl'. apply Nat.ltb_lt in Hl'. rewrite Hl'.
  rewrite nth_map_in with (d' := 0) by lia. reflexivity.
Qed.

(** X15: zca_whiten, for eigenvectors [U] with orthonormal columns,
    eigenvalues [d] that are all non-zero and conformable operands,
    divides, in exact arithmetic, the coordinate of the data along the
    [j]-th eigenvector by [d(j)]: with [Xt] the matrix [X] (or its
    transpose in transposed mode) and [W = U * Dinv * U^T * Xt], row [j]
    of [U^T * W] is row [j] of [U^T * Xt] divided by [d(j)].  [W] has
    the rows of [U] and the columns of [Xt].  The divisor is the
    eigenvalue [d(j)] itself, not its square root. *)
Theorem zca_whiten_rescales_coordinates (self : RandomPCA R) (X : MatrixXd R)
  (transpose : bool) (j c : nat) :
  let U := m_U self in
  let d := m_d self in
  let Xt := if transpose then mtranspose X else X in
  let W := zca_whiten self X transpose in
  cols U = length d ->
  rows Xt = rows U ->
  orthonormal_rows (mtranspose U) (cols U) (rows U) ->
  (forall l, (l < length d)%nat -> nth l d 0 <> 0) ->
  (j < cols U)%nat ->
  rows W = rows U /\ cols W = cols Xt /\
  sum_upto (rows U) (fun i => coeff U i j * coeff W i c) =
  sum_upto (rows U) (fun i => coeff U i j * coeff Xt i c) / nth j d 0.
Proof.
  intros U d Xt W Hlen Hrows Horth Hall Hj.
  assert (Hd : nth j d 0 <> 0) by (apply Hall; lia).
  assert (HW : W = mmul (mmul (mmul U (asDiagonal (map (fun x => s1 / x)%S d)))
                           (mtranspose U)) Xt).
  { unfold W, zca_whiten, Xt. now destruct transpose. }
  rewrite HW. split; [reflexivity|]. split; [reflexivity|].
  set (r := rows U). set (q := cols U).
  set (G := fun l => sum_upto r (fun k => coeff U k l * coeff Xt k c)).
  assert (Hco : forall i,
            coeff (mmul (mmul (mmul U (asDiagonal (map (fun x => s1 / x)%S d)))
                           (mtranspose U)) Xt) i c =
            sum_upto q (fun l => coeff U i l * (1 / nth l d 0) * G l)).
  { intros i.
    set (UD := mmul U (asDiagonal (map (fun x => s1 / x)%S d))).
    assert (HUDc : cols UD = q).
    { unfold UD. cbn [mmul asDiagonal cols]. now rewrite length_map. }
    assert (HUD : forall l, (l < q)%nat ->
              coeff UD i l = coeff U i l * (1 / nth l d 0)).
    { intros l Hl. unfold UD. now apply zca_scaled_directions. }
    cbn [mmul mtranspose coeff cols rows smul R_scalar].
    rewrite HUDc. fold r.
    rewrite sum_upto_ext with
      (g := fun k => sum_upto q (fun l =>
              coeff U i l * (1 / nth l d 0) * (coeff U k l * coeff Xt k c))).
    - rewrite (sum_upto_swap r q
                 (fun k l => coeff U i l * (1 / nth l d 0)
                             * (coeff U k l * coeff Xt k c))).
      apply sum_upto_ext. intros l _.
      now rewrite sum_upto_scale_l.
    - intros k _. rewrite <- sum_upto_scale_r.
      apply sum_upto_ext. intros l Hl.
      rewrite HUD by exact Hl. ring. }
  rewrite sum_upto_ext with
    (g := fun i => sum_upto q (fun l =>
            coeff U i j * coeff U i l * ((1 / nth l d 0) * G l)))
    by (intros i _; rewrite Hco, <- sum_upto_scale_l;
        apply sum_upto_ext; intros; ring).
  rewrite (sum_upto_swap r q
             (fun i l => coeff U i j * coeff U i l * ((1 / nth l d 0) * G l))).
  rewrite sum_upto_ext with
    (g := fun l => (1 / nth l d 0) * G l * (if l =? j then 1 else 0)).
  - rewrite (sum_upto_delta_col q j (fun l => 1 / nth l d 0 * G l)).
    pose proof Hj as Hj'. apply Nat.ltb_lt in Hj'. fold q in Hj'. rewrite Hj'.
    unfold G. field. exact Hd.
  - intros l Hl. rewrite sum_upto_scale_r.
    pose proof (Horth j l Hj Hl) as E.
    cbn [mtranspose coeff] in E. fold r in E. rewrite E.
    rewrite Nat.eqb_sym. ring.
Qed.

End ZcaWhitenFacts.

Lemma zca_whiten_rescales_coordinates_witness :
  let U := m_U whitening_demo in
  let d := m_d whitening_demo in
  let W := zca_whiten whitening_demo M34 false in
  rows W = rows U /\ cols W = cols M34 /\
  sum_upto (rows U) (fun i => coeff U i 1 * coeff W i 0)%R =
  (sum_upto (rows U) (fun i => coeff U i 1 * coeff M34 i 0) / nth 1 d 0)%R.
Proof.
  refine (@zca_whiten_rescales_coordinates whitening_demo M34 false 1 0 _ _ _ _ _).
  - reflexivity.
  - reflexivity.
  - intros a b Ha Hb. cbn [whitening_demo m_U rows cols] in *.
    cbn [mtranspose coeff].
    pose proof (@Identity_orthonormal 2 a b Ha Hb) as E.
    rewrite <- E. apply sum_upto_ext. intros i Hi.
    cbn [Identity coeff]. rewrite (Nat.eqb_sym i a), (Nat.eqb_sym i b).
    reflexivity.
  - intros l Hl. cbn [whitening_demo m_d length] in *.
    destruct l as [|[|l]]; cbn [nth]; [lra|lra|lia].
  - cbn. lia.
Defined.

(** ** RandomPCA::pca: a member that a call may leave as it was *)

Section StaleMembers.

Context {T : Type} {ST : Scalar T} {SE : ScalarExp T}.
Context {MC : Macros} {EL : EigenLib T} {BR : BoostRandom T}.
Context {SS : StdSort T} {UT : Util T}.

Variable self : RandomPCA T.
Variable X0 : MatrixXd T.
Variable method : Z.
Variable transpose : bool.
Variables ndim nextra maxiter : nat.
Variable tol : T.
Variable seed : Z.
Variable kernel : Z.
Variable sigma : T.
Variable rbf_center : bool.
Variable rbf_sample : nat.
Variables save_kernel do_orth do_loadings : bool.

Local Abbreviation result :=
  (pca self X0 method transpose ndim nextra maxiter tol seed kernel
     sigma rbf_center rbf_sample save_kernel do_orth do_loadings).

(** X16: when loadings are not requested in a call that does not
    transpose, [V] is neither computed nor cleared: the object keeps the
    [V] that the previous call left, resized to [ndim] columns.  Its
    rows and its first columns survive; columns that the resize adds
    are not written. *)
Theorem pca_without_loadings_keeps_V :
  pca_transpose transpose kernel = false ->
  do_loadings = false ->
  m_V (out_self result) = conservativeResize_cols (m_V self) ndim /\
  rows (m_V (out_self result)) = rows (m_V self) /\
  cols (m_V (out_self result)) = ndim /\
  forall i j, j < ndim ->
    coeff (m_V (out_self result)) i j =
    if j <? cols (m_V self) then coeff (m_V self) i j else indet.
Proof.
  intros Ht Hl.
  assert (HV : m_V (out_self result) = conservativeResize_cols (m_V self) ndim).
  { unfold pca. cbn [out_self]. unfold pca_truncate. cbn [m_V].
    unfold pca_assembled. rewrite Ht, Hl. reflexivity. }
  rewrite HV. repeat split.
Qed.

End StaleMembers.

Lemma pca_without_loadings_keeps_V_witness :
  m_V (out_self
    (pca whitening_demo X30 1 false 1 0 0 0%R 7 2 1%R false 5 false false false)) =
    conservativeResize_cols (m_V whitening_demo) 1 /\
  rows (m_V (out_self
    (pca whitening_demo X30 1 false 1 0 0 0%R 7 2 1%R false 5 false false false))) =
    rows (m_V whitening_demo) /\
  cols (m_V (out_self
    (pca whitening_demo X30 1 false 1 0 0 0%R 7 2 1%R false 5 false false false))) =
    1 /\
  forall i j, j < 1 ->
    coeff (m_V (out_self
      (pca whitening_demo X30 1 false 1 0 0 0%R 7 2 1%R false 5 false false
         false))) i j =
    if j <? cols (m_V whitening_demo) then coeff (m_V whitening_demo) i j
    else indet.
Proof.
  refine (@pca_without_loadings_keeps_V R R_scalar R_exp demo_macros
            demo_eigen demo_random demo_sort demo_util whitening_demo X30 1%Z
            false 1 0 0 0%R 7%Z 2%Z 1%R false 5 false false false _ _).
  - reflexivity.
  - reflexivity.
Defined.

(** ** RandomPCA::pca: the scaling matrix [Dinv] *)

Section ScalingMatrix.

Local Open Scope R_scope.

Lemma scaling_cancels (e m : R) :
  0 < m -> 0 <= e -> 1 / (sqrt (e / m) * sqrt m) = 1 / sqrt e.
Proof.
  intros Hm He.
  rewrite <- sqrt_mult_alt by (apply Rdiv_nonneg_pos; assumption).
  replace (e / m * m) with e by (field; lra).
  reflexivity.
Qed.

Context {MC : Macros} {EL : EigenLib R} {BR : BoostRandom R}.
Context {SS : StdSort R} {UT : Util R}.

Variable self : RandomPCA R.
Variable X0 : MatrixXd R.
Variable method : Z.
Variable transpose : bool.
Variables ndim nextra maxiter : nat.
Variable tol : R.
Variable seed : Z.
Variable kernel : Z.
Variable sigma : R.
Variable rbf_center : bool.
Variable rbf_sample : nat.
Variable do_orth : bool.

Local Abbreviation Nm1 := (pca_Nm1 self X0 transpose kernel).
Local Abbreviation decomposition :=
  (pca_decomposition self X0 method transpose ndim nextra maxiter tol seed
     kernel sigma rbf_center rbf_sample do_orth).
Local Abbreviation Dinv :=
  (pca_Dinv self X0 method transpose ndim nextra maxiter tol seed
     kernel sigma rbf_center rbf_sample do_orth).

(** X17: the matrix [Dinv], by which the scores are turned into [U]
    (transposed mode) and the projected data into the loadings [V], is
    diagonal, and the division of [d] by [N - 1] that precedes it
    cancels: for [N - 1 > 0] and a non-negative value [e] returned by
    pca_small at position [j], the [j]-th diagonal entry
    [1 / (sqrt(e / (N - 1)) * sqrt(N - 1))] is [1 / sqrt(e)]. *)
Theorem pca_Dinv_cancels_scaling (j : nat) :
  0 < pca_Nm1 self X0 transpose kernel ->
  let e := snd (pca_decomposition self X0 method transpose ndim nextra maxiter
                  tol seed kernel sigma rbf_center rbf_sample do_orth) in
  let Dinv := pca_Dinv self X0 method transpose ndim nextra maxiter tol seed
                kernel sigma rbf_center rbf_sample do_orth in
  (j < length e)%nat ->
  0 <= nth j e 0 ->
  rows Dinv = length e /\
  cols Dinv = length e /\
  coeff Dinv j j = 1 / sqrt (nth j e 0) /\
  forall i, i <> j -> coeff Dinv i j = 0.
Proof.
  intros Hm e D Hj He. unfold D, e in *. clear D e. unfold pca_Dinv, pca_d.
  cbn [asDiagonal rows cols coeff]. rewrite !length_map.
  split; [reflexivity|]. split; [reflexivity|]. split.
  - rewrite Nat.eqb_refl.
    rewrite nth_map_in with (d' := 0) by (now rewrite length_map).
    rewrite nth_map_in with (d' := 0) by exact Hj.
    cbn [sdiv smul ssqrt s1 R_scalar].
    now apply scaling_cancels.
  - intros i Hi. apply Nat.eqb_neq in Hi. now rewrite Hi.
Qed.

End ScalingMatrix.

Lemma pca_Dinv_cancels_scaling_witness :
  rows (pca_Dinv fresh_pca X30 1 false 1 0 0 0%R 7 1 1%R false 5 false) =
    length (snd (pca_decomposition fresh_pca X30 1 false 1 0 0 0%R 7 1 1%R
                   false 5 false)) /\
  cols (pca_Dinv fresh_pca X30 1 false 1 0 0 0%R 7 1 1%R false 5 false) =
    length (snd (pca_decomposition fresh_pca X30 1 false 1 0 0 0%R 7 1 1%R
                   false 5 false)) /\
  coeff (pca_Dinv fresh_pca X30 1 false 1 0 0 0%R 7 1 1%R false 5 false) 0 0 =
    (1 / sqrt (nth 0 (snd (pca_decomposition fresh_pca X30 1 false 1 0 0 0%R 7
                              1 1%R false 5 false)) 0))%R /\
  forall i, i <> 0 ->
    coeff (pca_Dinv fresh_pca X30 1 false 1 0 0 0%R 7 1 1%R false 5 false) i 0 =
    0%R.
Proof.
  refine (@pca_Dinv_cancels_scaling demo_macros demo_eigen demo_random
            demo_sort demo_util fresh_pca X30 1%Z false 1 0 0 0%R 7%Z 1%Z 1%R
            false 5 false 0 _ _ _).
  - change (pca_Nm1 fresh_pca X30 false 1) with 1%R. lra.
  - rewrite demo_decomposition. cbn. lia.
  - rewrite demo_decomposition. cbn. lra.
Defined.

(** ** median_dist: the element count as an unsigned int *)

Section MedianCountWraps.

Local Open Scope R_scope.

Context {BR : BoostRandom R} {SS : StdSort R}.

Hypothesis draw_range : forall g, 0 <= fst (uniform01 g) < 1.
Hypothesis std_sort_perm : forall l, Permutation (std_sort l) l.

(** The entry at position [j * n + i] of the storage of a matrix with
    [n] rows is its coefficient [(i, j)]. *)
Lemma nth_column_major (f : nat -> nat -> R) (n m i j : nat) (dflt : R) :
  (i < n)%nat -> (j < m)%nat ->
  nth (j * n + i)
    (flat_map (fun j => map (fun i => f i j) (seq 0 n)) (seq 0 m)) dflt = f i j.
Proof.
  intros Hi. induction m as [|m IH]; intros Hj; [lia|].
  rewrite seq_S, flat_map_app. cbn [Nat.add flat_map]. rewrite app_nil_r.
  assert (Hlen : length (flat_map (fun j => map (fun i => f i j) (seq 0 n))
                           (seq 0 m)) = (m * n)%nat).
  { rewrite flat_map_length_const with (n := n).
    - now rewrite length_seq.
    - intros a. now rewrite length_map, length_seq. }
  destruct (Nat.eq_dec j m) as [->|Hne].
  - rewrite app_nth2 by (rewrite Hlen; lia).
    rewrite Hlen. replace (m * n + i - m * n)%nat with i by lia.
    exact (@nth_map_seq R (fun i => f i m) n i dflt Hi).
  - rewrite app_nth1 by (rewrite Hlen; nia).
    apply IH. lia.
Qed.

(** X18: with exactly [65536] sampled rows the number [n * n] of
    distances is [2^32], which the [unsigned int] that holds it reads
    as [0]: nothing is sorted, the count is even, and the two "middle"
    entries are those at indices [(unsigned)(0 / 2 - 1) = 2^32 - 1] and
    [0], the last and the first entry of the distance matrix.  Both lie
    on its diagonal, so in exact arithmetic median_dist returns [0]
    whatever the data. *)
Theorem median_dist_count_wraps (X : MatrixXd R) (n : nat) (seed : Z) :
  Z.of_nat n = 65536%Z -> (n <= rows X)%nat ->
  u32_of_nat (n * n) = 0%nat /\ median_dist X n seed = 0.
Proof.
  intros Hn Hr.
  assert (Hn1 : (1 <= n)%nat) by lia.
  assert (H32 : (Z.of_nat n < 2 ^ 32)%Z) by lia.
  destruct (median_sample_rows draw_range X seed Hn1 Hr H32) as (Hrows & _ & _).
  assert (Hm : u32_of_nat (n * n) = 0%nat).
  { unfold u32_of_nat, u32. rewrite Nat2Z.inj_mul, Hn. reflexivity. }
  split; [exact Hm|].
  unfold median_dist.
  set (X2 := fst (median_sample X n seed)) in *.
  unfold msize. rewrite sq_dist_matrix_rows, sq_dist_matrix_cols, Hrows, Hm.
  rewrite sq_dist_matrix_data by exact Hrows.
  unfold median_of, sort_prefix.
  change (0 mod 2 =? 0)%nat with true. change (0 / 2)%nat with 0%nat.
  cbn [firstn skipn Z.of_nat].
  rewrite (Permutation_nil (Permutation_sym (std_sort_perm []))).
  cbn [app].
  assert (Hidx : Z.to_nat (u32 (0 - 1)) = ((n - 1) * n + (n - 1))%nat).
  { change (0 - 1)%Z with (-1)%Z. rewrite u32_minus_one.
    apply Nat2Z.inj. rewrite Z2Nat.id by lia.
    rewrite Nat2Z.inj_add, Nat2Z.inj_mul, Nat2Z.inj_sub, Hn by lia.
    reflexivity. }
  rewrite Hidx. unfold vget, pairwise_sq_dists.
  rewrite nth_column_major by lia.
  pose proof (@nth_column_major (fun i j => sq_euclidean_dist X2 i j) n n 0 0
                indet Hn1 Hn1) as H0.
  cbn [Nat.mul Nat.add] in H0. rewrite H0.
  rewrite !sq_euclidean_dist_self.
  cbn [sadd sdiv of_int R_scalar]. lra.
Qed.

End MedianCountWraps.

Lemma median_dist_count_wraps_witness :
  u32_of_nat (Z.to_nat 65536 * Z.to_nat 65536) = 0 /\
  median_dist X65536 (Z.to_nat 65536) 7 = 0%R.
Proof.
  refine (@median_dist_count_wraps demo_random demo_sort _ _ X65536
            (Z.to_nat 65536) 7%Z _ _).
  - intros g. cbn. lra.
  - apply insertion_sort_perm.
  - apply Z2Nat.id. lia.
  - apply Nat.le_refl.
Defined.

(** ** RandomPCA::pca: the directions returned in [U] *)

Section InnerProducts.

Local Open Scope R_scope.

(** Multiplication by the transpose of a matrix with orthonormal rows
    preserves inner products. *)
Lemma orthonormal_rows_inner (A : MatrixXd R) (r m : nat) (x y : nat -> R) :
  orthonormal_rows A r m ->
  sum_upto m (fun j =>
    sum_upto r (fun i => coeff A i j * x i) *
    sum_upto r (fun i => coeff A i j * y i)) =
  sum_upto r (fun i => x i * y i).
Proof.
  intros Horth.
  rewrite sum_upto_ext with
    (g := fun j => sum_upto r (fun i => sum_upto r (fun i' =>
            x i * y i' * (coeff A i j * coeff A i' j))));
    cycle 1.
  { intros j _. rewrite sum_upto_mul.
    apply sum_upto_ext. intros i _.
    apply sum_upto_ext. intros i' _. ring. }
  rewrite (sum_upto_swap m r
             (fun j i => sum_upto r (fun i' =>
                x i * y i' * (coeff A i j * coeff A i' j)))).
  apply sum_upto_ext. intros i Hi.
  rewrite (sum_upto_swap m r
             (fun j i' => x i * y i' * (coeff A i j * coeff A i' j))).
  rewrite sum_upto_ext with
    (g := fun i' => x i * y i' * (if i =? i' then 1 else 0)).
  - apply (sum_upto_delta (fun i' => x i * y i') Hi).
  - intros i' Hi'. rewrite sum_upto_scale_l, (Horth i i' Hi Hi').
    reflexivity.
Qed.

End InnerProducts.

Section Directions.

Local Open Scope R_scope.

Context {MC : Macros} {EL : EigenLib R} {BR : BoostRandom R}.
Context {SS : StdSort R} {UT : Util R}.

Variable self : RandomPCA R.
Variable X0 : MatrixXd R.
Variable method : Z.
Variable transpose : bool.
Variables ndim nextra maxiter : nat.
Variable tol : R.
Variable seed : Z.
Variable kernel : Z.
Variable sigma : R.
Variable rbf_center : bool.
Variable rbf_sample : nat.
Variables save_kernel do_orth do_loadings : bool.

Local Abbreviation Y :=
  (pca_Y self X0 transpose ndim nextra maxiter tol seed kernel sigma
     rbf_center rbf_sample do_orth).
Local Abbreviation Q :=
  (pca_Q self X0 transpose ndim nextra maxiter tol seed kernel sigma
     rbf_center rbf_sample do_orth).
Local Abbreviation Et :=
  (pca_Et self X0 method transpose ndim nextra maxiter tol seed kernel sigma
     rbf_center rbf_sample do_orth).
Local Abbreviation result :=
  (pca self X0 method transpose ndim nextra maxiter tol seed kernel
     sigma rbf_center rbf_sample save_kernel do_orth do_loadings).

(** The QR stage keeps the first [Y.cols()] columns of the Householder
    factor. *)
Lemma pca_Q_thin (i l : nat) :
  cols (householderQ Y) = rows (householderQ Y) ->
  (cols Y <= rows (householderQ Y))%nat ->
  (l < cols Y)%nat ->
  coeff Q i l = coeff (householderQ Y) i l.
Proof.
  intros Hsq Hk Hl. unfold pca_Q.
  cbn [conservativeResize_cols mmul Identity coeff cols rows].
  pose proof Hl as Hl'. apply Nat.ltb_lt in Hl'. rewrite Hl'.
  cbn [smul s0 s1 R_scalar].
  rewrite (sum_upto_delta_col (cols (householderQ Y)) l
             (fun m => coeff (householderQ Y) i m)).
  replace (l <? cols (householderQ Y))%nat with true
    by (symmetry; apply Nat.ltb_lt; lia).
  reflexivity.
Qed.

(** X19: without transposition, when the Householder factor of the QR
    stage is square with orthonormal leading columns and pca_small
    returns a matrix [Et] with orthonormal columns, the columns of the
    returned [U = Q * Et] are orthonormal in exact arithmetic: the
    inner product of columns [j] and [j'] (both below [ndim]) is [1]
    for [j = j'] and [0] otherwise.  The number [Y.cols()] of sketch
    columns must not exceed the number of rows. *)
Theorem pca_directions_orthonormal (j j' : nat) :
  pca_transpose transpose kernel = false ->
  let H := householderQ
             (pca_Y self X0 transpose ndim nextra maxiter tol seed kernel sigma
                rbf_center rbf_sample do_orth) in
  let k := pca_total_dim ndim nextra in
  cols H = rows H -> (k <= rows H)%nat ->
  orthonormal_rows (mtranspose H) k (rows H) ->
  orthonormal_rows (mtranspose Et) (cols Et) k ->
  (j < ndim)%nat -> (j' < ndim)%nat ->
  (j < cols Et)%nat -> (j' < cols Et)%nat ->
  let U := m_U (out_self result) in
  rows U = rows H /\ cols U = ndim /\
  sum_upto (rows U) (fun i => coeff U i j * coeff U i j') =
  if j =? j' then 1 else 0.
Proof.
  intros Ht H k Hsq Hk HorthH HorthE Hj Hj' Hje Hje' U.
  assert (Hcols : cols Y = k) by apply pca_Y_cols.
  assert (HU : U = conservativeResize_cols (mmul Q Et) ndim).
  { unfold U, pca. cbn [out_self]. unfold pca_truncate. cbn [m_U].
    unfold pca_assembled. rewrite Ht. reflexivity. }
  assert (HQc : cols Q = k).
  { unfold pca_Q. cbn [conservativeResize_cols cols]. exact Hcols. }
  assert (HQr : rows Q = rows H).
  { unfold pca_Q. cbn [conservativeResize_cols mmul rows]. reflexivity. }
  assert (Hco : forall i c, (c < ndim)%nat -> (c < cols Et)%nat ->
            coeff U i c =
            sum_upto k (fun l => coeff (mtranspose H) l i * coeff Et l c)).
  { intros i c Hc Hce. rewrite HU.
    cbn [conservativeResize_cols mmul coeff cols mtranspose].
    apply Nat.ltb_lt in Hce. rewrite Hce, HQc.
    apply sum_upto_ext. intros l Hl.
    rewrite pca_Q_thin; [reflexivity|exact Hsq|rewrite Hcols; exact Hk|].
    rewrite Hcols. exact Hl. }
  assert (Hr : rows U = rows H).
  { rewrite HU. cbn [conservativeResize_cols mmul rows]. exact HQr. }
  split; [exact Hr|]. split; [rewrite HU; reflexivity|].
  rewrite Hr.
  rewrite sum_upto_ext with
    (g := fun i =>
       sum_upto k (fun l => coeff (mtranspose H) l i * coeff Et l j) *
       sum_upto k (fun l => coeff (mtranspose H) l i * coeff Et l j'))
    by (intros i _; now rewrite !Hco).
  rewrite (orthonormal_rows_inner (fun l => coeff Et l j)
             (fun l => coeff Et l j') HorthH).
  apply (HorthE j j' Hje Hje').
Qed.

End Directions.

Lemma demo_Et_coeff (kernel : Z) :
  coeff (pca_Et fresh_pca X30 1 false 1 0 0 0%R 7 kernel 1%R false 5 false) 0 0
  = 1%R.
Proof.
  destruct (pca_small_eigen_spec
              (pca_B fresh_pca X30 false 1 0 0 0%R 7 kernel 1%R false 5 false)
              (uninitialized 0 0) (m_d fresh_pca)
              (method := 1%Z)) as (H1 & _ & _ & _ & _ & H6).
  - discriminate.
  - reflexivity.
  - cbn [SelfAdjointEigenSolver demo_eigen eig_diag fst mmul rows].
    rewrite length_map, length_seq, demo_B_rows. vm_compute. reflexivity.
  - unfold pca_Et, pca_decomposition. rewrite H1. cbn [fst].
    rewrite H6.
    + cbn [SelfAdjointEigenSolver demo_eigen eig_diag fst snd mmul rows].
      rewrite length_map, length_seq, demo_B_rows. reflexivity.
    + rewrite demo_B_rows. lia.
    + cbn [SelfAdjointEigenSolver demo_eigen eig_diag fst mmul rows].
      rewrite length_map, length_seq, demo_B_rows. lia.
Qed.

Lemma pca_directions_orthonormal_witness :
  let U := m_U (out_self
    (pca fresh_pca X30 1 false 1 0 0 0%R 7 1 1%R false 5 false false false)) in
  rows U =
    rows (householderQ (pca_Y fresh_pca X30 false 1 0 0 0%R 7 1 1%R false 5 false)) /\
  cols U = 1 /\
  sum_upto (rows U) (fun i => coeff U i 0 * coeff U i 0)%R =
  if 0 =? 0 then 1%R else 0%R.
Proof.
  refine (@pca_directions_orthonormal demo_macros demo_eigen demo_random
            demo_sort demo_util fresh_pca X30 1%Z false 1 0 0 0%R 7%Z 1%Z 1%R
            false 5 false false false 0 0 _ _ _ _ _ _ _ _ _).
  - reflexivity.
  - reflexivity.
  - cbn [householderQ demo_eigen qr_identity Identity rows].
    rewrite demo_Y_rows. vm_compute. lia.
  - cbn [householderQ demo_eigen qr_identity Identity rows].
    rewrite demo_Y_rows.
    intros a b Ha Hb.
    assert (a = 0) by (vm_compute in Ha; lia).
    assert (b = 0) by (vm_compute in Hb; lia). subst a b.
    cbn [householderQ demo_eigen qr_identity Identity mtranspose coeff sum_upto
         Nat.eqb sadd smul s0 s1 R_scalar]. ring.
  - rewrite demo_Et_cols.
    intros a b Ha Hb.
    assert (a = 0) by lia. assert (b = 0) by (vm_compute in Hb; lia). subst a b.
    change (pca_total_dim 1 0) with 1.
    cbn [mtranspose coeff sum_upto Nat.eqb sadd smul s0 R_scalar].
    rewrite demo_Et_coeff. ring.
  - lia.
  - lia.
  - rewrite demo_Et_cols. lia.
  - rewrite demo_Et_cols. lia.
Defined.

(** ** RandomPCA::pca in transposed mode *)

Section TransposedMode.

Local Open Scope R_scope.

Context {MC : Macros} {EL : EigenLib R} {BR : BoostRandom R}.
Context {SS : StdSort R} {UT : Util R}.

Variable self : RandomPCA R.
Variable X0 : MatrixXd R.
Variable method : Z.
Variable transpose : bool.
Variables ndim nextra maxiter : nat.
Variable tol : R.
Variable seed : Z.
Variable kernel : Z.
Variable sigma : R.
Variable rbf_center : bool.
Variable rbf_sample : nat.
Variables save_kernel do_orth do_loadings : bool.

Local Abbreviation X := (pca_X self X0 transpose kernel).
Local Abbreviation Q :=
  (pca_Q self X0 transpose ndim nextra maxiter tol seed kernel sigma
     rbf_center rbf_sample do_orth).
Local Abbreviation Et :=
  (pca_Et self X0 method transpose ndim nextra maxiter tol seed kernel sigma
     rbf_center rbf_sample do_orth).
Local Abbreviation result :=
  (pca self X0 method transpose ndim nextra maxiter tol seed kernel
     sigma rbf_center rbf_sample save_kernel do_orth do_loadings).

(** X20: in transposed mode (linear kernel, [transpose] set) the
    object holds [V = Q * Et] and [P = X^T * V] truncated to [ndim]
    columns, and the directions [U] are the scores scaled back: for
    [N - 1 > 0] and a non-negative value [e(j)] returned by pca_small,
    [U(i, j) = P(i, j) / sqrt(e(j))] for [j < ndim].  The decomposer is
    assumed to return as many values as columns. *)
Theorem pca_transposed_directions (i j : nat) :
  pca_transpose transpose kernel = true ->
  let e := snd (pca_decomposition self X0 method transpose ndim nextra maxiter
                  tol seed kernel sigma rbf_center rbf_sample do_orth) in
  let r := out_self result in
  cols Et = length e ->
  (j < ndim)%nat -> (j < cols Et)%nat ->
  0 < pca_Nm1 self X0 transpose kernel -> 0 <= nth j e 0 ->
  m_V r = conservativeResize_cols (mmul Q Et) ndim /\
  m_P r = conservativeResize_cols (mmul (mtranspose X) (mmul Q Et)) ndim /\
  coeff (m_U r) i j = coeff (m_P r) i j / sqrt (nth j e 0).
Proof.
  intros Ht e r Hdim Hj Hje Hm He.
  unfold r, pca. cbn [out_self]. unfold pca_truncate. cbn [m_V m_P m_U].
  unfold pca_assembled. rewrite Ht. cbn [m_V m_P m_U].
  split; [reflexivity|]. split; [reflexivity|].
  unfold pca_Dinv, pca_d. fold e.
  cbn [conservativeResize_cols coeff mmul cols asDiagonal].
  rewrite !length_map, <- Hdim.
  pose proof Hje as Hje'. apply Nat.ltb_lt in Hje'. rewrite Hje'.
  cbn [smul sdiv ssqrt s0 s1 R_scalar].
  set (P := fun l : nat =>
              sum_upto (rows X) (fun c => coeff X c i * sum_upto (cols Q)
                 (fun l0 => coeff Q c l0 * coeff Et l0 l))).
  set (s := map _ (map _ e)).
  rewrite sum_upto_ext with
    (g := fun l => P l * nth l s 0 * (if l =? j then 1 else 0)).
  - rewrite (sum_upto_delta_col (cols Et) j (fun l => P l * nth l s 0)).
    rewrite Hje'. unfold s.
    rewrite nth_map_in with (d' := 0) by (rewrite length_map; lia).
    rewrite nth_map_in with (d' := 0) by lia.
    rewrite scaling_cancels by assumption.
    unfold P. cbn [mtranspose coeff cols rows]. unfold Rdiv. ring.
  - intros l _. unfold P. cbn [mtranspose coeff cols rows].
    destruct (Nat.eqb_spec l j); [subst l|]; ring.
Qed.

End TransposedMode.

(** *** A run in transposed mode *)

Section TransposedRun.

Local Open Scope R_scope.

Local Abbreviation tr_B := (pca_B fresh_pca X34row true 1 0 0 0 7 1 1 false 5 false).
Local Abbreviation tr_Et := (pca_Et fresh_pca X34row 1 true 1 0 0 0 7 1 1 false 5 false).
Local Abbreviation tr_decomposition :=
  (pca_decomposition fresh_pca X34row 1 true 1 0 0 0 7 1 1 false 5 false).

Lemma tr_B_rows : rows tr_B = 1%nat.
Proof.
  unfold pca_B. cbn [mmul mtranspose rows].
  unfold pca_Q. cbn [conservativeResize_cols cols].
  rewrite pca_Y_cols. reflexivity.
Qed.

Lemma tr_small :
  cols tr_Et = 1%nat /\
  snd tr_decomposition = [coeff (mmul tr_B (mtranspose tr_B)) 0 0].
Proof.
  destruct (pca_small_eigen_spec tr_B (uninitialized 0 0) (m_d fresh_pca)
              (method := 1%Z)) as (H1 & _ & H3 & _ & H5 & _).
  - discriminate.
  - reflexivity.
  - cbn [SelfAdjointEigenSolver demo_eigen eig_diag fst mmul rows].
    rewrite length_map, length_seq, tr_B_rows. vm_compute. reflexivity.
  - unfold pca_Et, pca_decomposition. rewrite H1. cbn [fst snd].
    split; [rewrite H5; apply tr_B_rows|].
    rewrite H3.
    cbn [SelfAdjointEigenSolver demo_eigen eig_diag fst mmul rows].
    rewrite tr_B_rows. reflexivity.
Qed.

End TransposedRun.

Lemma pca_transposed_directions_witness :
  let e := snd (pca_decomposition fresh_pca X34row 1 true 1 0 0 0%R 7 1 1%R
                  false 5 false) in
  let r := out_self
    (pca fresh_pca X34row 1 true 1 0 0 0%R 7 1 1%R false 5 false false false) in
  m_V r = conservativeResize_cols
            (mmul (pca_Q fresh_pca X34row true 1 0 0 0%R 7 1 1%R false 5 false)
               (pca_Et fresh_pca X34row 1 true 1 0 0 0%R 7 1 1%R false 5 false))
            1 /\
  m_P r = conservativeResize_cols
            (mmul (mtranspose (pca_X fresh_pca X34row true 1))
               (mmul (pca_Q fresh_pca X34row true 1 0 0 0%R 7 1 1%R false 5 false)
                  (pca_Et fresh_pca X34row 1 true 1 0 0 0%R 7 1 1%R false 5
                     false))) 1 /\
  coeff (m_U r) 0 0 = (coeff (m_P r) 0 0 / sqrt (nth 0 e 0))%R.
Proof.
  destruct tr_small as (Hc & He).
  refine (@pca_transposed_directions demo_macros demo_eigen demo_random
            demo_sort demo_util fresh_pca X34row 1%Z true 1 0 0 0%R 7%Z 1%Z 1%R
            false 5 false false false 0 0 _ _ _ _ _ _).
  - reflexivity.
  - rewrite Hc, He. reflexivity.
  - lia.
  - rewrite Hc. lia.
  - change (pca_Nm1 fresh_pca X34row true 1) with 1%R. lra.
  - rewrite He. cbn [nth mmul mtranspose coeff].
    apply sum_upto_nonneg. intros c _.
    apply (Rle_0_sqr (coeff (pca_B fresh_pca X34row true 1 0 0 0%R 7 1 1%R
                               false 5 false) 0 c)).
Defined.

